(** * Verification of the geocoding core of the BambooHR employee map

    The development embeds the pure and stateful parts of the browser
    extension that the specification talks about:

    - [JsString]: ECMAScript strings as sequences of UTF-16 code units, with
      the character classes and [trim] the sources rely on;
    - [RegExp]: the fragment of ECMAScript regular expressions used by the
      sources (sequences of single-character atoms with greedy quantifiers
      and anchors), with backtracking matching, global [replace] and [split];
    - [BambooGeocoder]: [normalize], [parseLocation], the four [find*] tiers,
      the memoising [geocode], [geocodeBatch], [clearCache] and [init];
    - [Content]: [groupEmployeesByLocation] of the content script;
    - [BambooMap]: [getPinRadius] of the map renderer;
    - [Directory]: [sanitizeString], [validateEmployee],
      [processEmployeeData] and the paging loop of [fetchEmployees];
    - [Filters]: [getUniqueValues], [filterEmployeesExcluding],
      [filterEmployees], [updateDropdown], [updateFilterDropdowns] and
      [getActiveFilterCount] of the content script;
    - [BambooPopup]: [getAvatarColor], [isValidPhotoUrl] and
      [positionPopup] of the popup;
    - [Pins]: the radii that [renderPins] computes;
    - [Async]: the calls of the geocoder cut at their [await]s, run under
      any schedule.

    Definitions come first, theorems follow. *)

From Stdlib Require Import ZArith NArith List String Ascii Floats Reals Lia Lra.
From Stdlib Require Import DecimalString Permutation Sorted.
From stdpp Require Import gmap list.

Set Default Proof Using "Type".

(* ===================================================================== *)
(** * Part I: definitions                                                 *)
(* ===================================================================== *)

(** ** ECMAScript strings *)

Module JsString.

(** A string value is a finite sequence of 16-bit code units. *)
Abbreviation jsstring := (list N) (only parsing).

(** Embedding of ASCII literals. *)
Definition js (s : string) : jsstring :=
  List.map N_of_ascii (list_ascii_of_string s).

Definition in_range (lo hi c : N) : bool := ((lo <=? c) && (c <=? hi))%N.

(** [\s] of the regular expression grammar, which is also the set removed
    by [String.prototype.trim]: WhiteSpace and LineTerminator. *)
Definition isWhiteSpace (c : N) : bool :=
  in_range 9 13 c || (c =? 32)%N || (c =? 160)%N || (c =? 5760)%N
  || in_range 8192 8202 c || (c =? 8232)%N || (c =? 8233)%N
  || (c =? 8239)%N || (c =? 8287)%N || (c =? 12288)%N || (c =? 65279)%N.

(** The class of combining diacritical marks, U+0300 to U+036F. *)
Definition isCombining (c : N) : bool := in_range 768 879 c.

(** [[a-z0-9\s]]; the source uses its complement [[^a-z0-9\s]]. *)
Definition isLowerAlnumSpace (c : N) : bool :=
  in_range 97 122 c || in_range 48 57 c || isWhiteSpace c.

(** [[,\-]] *)
Definition isDelimiter (c : N) : bool := (c =? 44)%N || (c =? 45)%N.

Definition isHyphen (c : N) : bool := (c =? 45)%N.

(** A lower-case ASCII letter [l] of a pattern compiled with the [i] flag
    and without the [u] flag matches [l] and its upper-case form only:
    Canonicalize never maps a code unit above 127 to one below 128. *)
Definition ci (l : N) (c : N) : bool := (c =? l)%N || (c =? l - 32)%N.

Fixpoint dropWhile (p : N -> bool) (s : jsstring) : jsstring :=
  match s with
  | c :: s' => if p c then dropWhile p s' else s
  | [] => []
  end.

Definition trimStart (s : jsstring) : jsstring := dropWhile isWhiteSpace s.
Definition trimEnd (s : jsstring) : jsstring :=
  rev (dropWhile isWhiteSpace (rev s)).
Definition trim (s : jsstring) : jsstring := trimEnd (trimStart s).

(** The longest prefix in a class. *)
Fixpoint takeWhile (p : N -> bool) (s : list N) : list N :=
  match s with
  | c :: s' => if p c then c :: takeWhile p s' else []
  | [] => []
  end.

(** Truthiness of a string: only the empty string is falsy. *)
Definition truthy (s : jsstring) : bool :=
  match s with [] => false | _ => true end.

End JsString.
Export JsString.

(** ** Regular expressions *)

Module RegExp.

(** The atoms occurring in the sources' patterns.  [x+] is written
    [Cls x; Star x]. *)
Inductive atom :=
| Cls (p : N -> bool)    (* one character of the class *)
| Star (p : N -> bool)   (* greedy [x*] *)
| Opt (p : N -> bool)    (* greedy [x?] *)
| Bol                    (* [^], no multiline flag *)
| Eol.                   (* [$], no multiline flag *)

Definition regex := list atom.

(** [matchAt r bol s] runs the backtracking matcher of [r] at the position
    whose remaining input is [s]; [bol] tells whether that position is
    index 0.  The result is the length of the match. *)
Fixpoint matchAt (r : regex) (bol : bool) (s : jsstring) {struct r}
  : option nat :=
  match r with
  | [] => Some 0%nat
  | Cls p :: r' =>
      match s with
      | c :: s' => if p c then S <$> matchAt r' false s' else None
      | [] => None
      end
  | Star p :: r' =>
      (fix star (bol : bool) (s : jsstring) {struct s} : option nat :=
         match s with
         | c :: s' =>
             if p c then
               match star false s' with
               | Some n => Some (S n)
               | None => matchAt r' bol s
               end
             else matchAt r' bol s
         | [] => matchAt r' bol []
         end) bol s
  | Opt p :: r' =>
      match s with
      | c :: s' =>
          if p c then
            match matchAt r' false s' with
            | Some n => Some (S n)
            | None => matchAt r' bol s
            end
          else matchAt r' bol s
      | [] => matchAt r' bol []
      end
  | Bol :: r' => if bol then matchAt r' bol s else None
  | Eol :: r' => match s with [] => matchAt r' bol s | _ => None end
  end.

(** [String.prototype.replace] with a global pattern and a constant
    replacement.  [skip] counts the code units of the current match that
    are still to be consumed. *)
Fixpoint replace_from (r : regex) (rep : jsstring) (bol : bool)
    (skip : nat) (s : jsstring) {struct s} : jsstring :=
  match skip with
  | S k =>
      match s with
      | _ :: s' => replace_from r rep false k s'
      | [] => []
      end
  | O =>
      match matchAt r bol s with
      | Some (S n) =>
          rep ++ match s with
                 | _ :: s' => replace_from r rep false n s'
                 | [] => []
                 end
      | Some O =>
          rep ++ match s with
                 | c :: s' => c :: replace_from r rep false 0 s'
                 | [] => []
                 end
      | None =>
          match s with
          | c :: s' => c :: replace_from r rep false 0 s'
          | [] => []
          end
      end
  end.

Definition replace (r : regex) (rep : jsstring) (s : jsstring) : jsstring :=
  replace_from r rep true 0 s.

(** [String.prototype.split] with a pattern separator and no limit.
    [cur] is the fragment collected since the end of the last separator. *)
Fixpoint split_from (r : regex) (bol : bool) (skip : nat)
    (cur : jsstring) (s : jsstring) {struct s} : list jsstring :=
  match s with
  | [] => [cur]
  | c :: s' =>
      match skip with
      | S k => split_from r false k cur s'
      | O =>
          match matchAt r bol s with
          | Some (S n) => cur :: split_from r false n [] s'
          | Some O =>
              match cur with
              | [] => split_from r false 0 [c] s'
              | _ => cur :: split_from r false 0 [c] s'
              end
          | None => split_from r false 0 (cur ++ [c]) s'
          end
      end
  end.

Definition split (r : regex) (s : jsstring) : list jsstring :=
  match s with
  | [] => match matchAt r true [] with Some _ => [] | None => [[]] end
  | _ => split_from r true 0 [] s
  end.

(** Declarative reading of a pattern: [matches r bol s n] holds when [r]
    can match the first [n] code units of [s]. *)
Inductive matches : regex -> bool -> list N -> nat -> Prop :=
| matches_nil bol s : matches [] bol s 0
| matches_cls p r bol c s n :
    p c = true -> matches r false s n ->
    matches (Cls p :: r) bol (c :: s) (S n)
| matches_star_stop p r bol s n :
    matches r bol s n -> matches (Star p :: r) bol s n
| matches_star_step p r bol c s n :
    p c = true -> matches (Star p :: r) false s n ->
    matches (Star p :: r) bol (c :: s) (S n)
| matches_opt_skip p r bol s n :
    matches r bol s n -> matches (Opt p :: r) bol s n
| matches_opt_take p r bol c s n :
    p c = true -> matches r false s n ->
    matches (Opt p :: r) bol (c :: s) (S n)
| matches_bol r s n : matches r true s n -> matches (Bol :: r) true s n
| matches_eol r bol n : matches r bol [] n -> matches (Eol :: r) bol [] n.

End RegExp.
Export RegExp.

(** ** The host environment

    [String.prototype.toLowerCase], [String.prototype.normalize("NFD")] and
    [Number::toString] are built-ins of the JavaScript engine, driven by the
    Unicode character database; the model takes them as an interface. *)

Class Host := {
  toLowerCase : jsstring -> jsstring;
  normalizeNFD : jsstring -> jsstring;
  Number_toString : float -> jsstring
}.

(** ** The geocoder ([BambooGeocoder] of the sources) *)

Module BambooGeocoder.

(** An entry of [data/cities.json]. *)
Record Entry := {
  name : jsstring;
  code : jsstring;
  lat : float;
  lng : float
}.

(** The parsed JSON document: [countries] and [states], the latter keyed by
    country code.  An absent [states] object is the empty map. *)
Record Gazetteer := {
  countries : list Entry;
  states : gmap jsstring (list Entry)
}.

Record ParsedLocation := {
  original : jsstring;
  parts : list jsstring
}.

Record GeocodeResult := {
  res_lat : float;
  res_lng : float;
  res_name : jsstring;
  res_displayName : jsstring
}.

(** Observable events, kept in a ghost log: a fetch of the data file, a
    call of [geocode], and a run of the tier-matching loop of [geocode]
    for a cache key. *)
Inductive Event :=
| EvFetch (ok : bool)
| EvGeocode (locationStr : jsstring)
| EvResolve (cacheKey : jsstring).

(** The closure state of the module: [data] and [cache].  [fetches] lists
    the outcomes of the attempts to load and parse the data file that the
    environment will answer with, in order ([None]: the attempt throws);
    [trace] is the ghost log. *)
Record World := {
  data : option Gazetteer;
  cache : gmap jsstring (option GeocodeResult);
  fetches : list (option Gazetteer);
  trace : list Event
}.

Definition set_data (d : option Gazetteer) (w : World) : World :=
  {| data := d; cache := cache w; fetches := fetches w; trace := trace w |}.
Definition set_cache (c : gmap jsstring (option GeocodeResult)) (w : World)
  : World :=
  {| data := data w; cache := c; fetches := fetches w; trace := trace w |}.
Definition set_fetches (f : list (option Gazetteer)) (w : World) : World :=
  {| data := data w; cache := cache w; fetches := f; trace := trace w |}.
Definition emit (e : Event) (w : World) : World :=
  {| data := data w; cache := cache w; fetches := fetches w;
     trace := trace w ++ [e] |}.

(** A freshly loaded module. *)
Definition boot (fs : list (option Gazetteer)) : World :=
  {| data := None; cache := ∅; fetches := fs; trace := [] |}.

(** State monad over [World]. *)
Definition M (A : Type) : Type := World -> A * World.
Definition ret {A} (a : A) : M A := fun w => (a, w).
Definition bind {A B} (m : M A) (k : A -> M B) : M B :=
  fun w => let (a, w') := m w in k a w'.
Definition get : M World := fun w => (w, w).
Definition modify (f : World -> World) : M unit := fun w => (tt, f w).

Declare Scope m_scope.
Delimit Scope m_scope with M.
Notation "x <- m ;; k" := (bind m (fun x => k))
  (at level 100, m at next level, right associativity) : m_scope.
Notation "m ;; k" := (bind m (fun _ => k))
  (at level 100, right associativity) : m_scope.
Open Scope m_scope.

Fixpoint foldM {A B} (f : B -> A -> M B) (b : B) (l : list A) : M B :=
  match l with
  | [] => ret b
  | a :: l' => b' <- f b a ;; foldM f b' l'
  end.

(** [init]: load the data file unless it is loaded already. *)
Definition init : M (option Gazetteer) := fun w =>
  match data w with
  | Some d => (Some d, w)
  | None =>
      match fetches w with
      | Some d :: fs =>
          (Some d, emit (EvFetch true) (set_data (Some d) (set_fetches fs w)))
      | None :: fs => (None, emit (EvFetch false) (set_fetches fs w))
      | [] => (None, emit (EvFetch false) w)
      end
  end.

Section WithHost.
Context `{Host}.

Definition normalize (str : jsstring) : jsstring :=
  if negb (truthy str) then []
  else
    trim
      (replace [Cls (fun c => negb (isLowerAlnumSpace c))] []
         (replace [Cls isCombining] []
            (normalizeNFD (toLowerCase str)))).

(** Pattern fragments. *)
Definition s_star : atom := Star isWhiteSpace.
Definition hy_opt : atom := Opt isHyphen.
Definition lit (word : string) : regex :=
  List.map (fun l => Cls (ci l)) (js word).

Definition removePatterns : list regex := [
  [s_star; hy_opt; s_star] ++ lit "work" ++ [s_star] ++ lit "from"
    ++ [s_star] ++ lit "home" ++ [s_star];
  [s_star; hy_opt; s_star] ++ lit "wfh" ++ [s_star];
  [s_star; hy_opt; s_star] ++ lit "home" ++ [s_star] ++ lit "office"
    ++ [s_star];
  [s_star; hy_opt; s_star] ++ lit "office" ++ [s_star];
  [Bol; s_star] ++ lit "remote" ++ [s_star; hy_opt; s_star];
  [s_star; hy_opt; s_star] ++ lit "remote" ++ [s_star; Eol]
].

(** The [for] loop over [removePatterns]. *)
Definition stripPhrases (str : jsstring) : jsstring :=
  fold_left (fun str pattern => replace pattern (js " ") str)
    removePatterns str.

(** The string that [parseLocation] splits: phrases stripped, white
    space collapsed, trimmed, with the fall-back to the trimmed input. *)
Definition cleaned (locationStr : jsstring) : jsstring :=
  let str := trim locationStr in
  let str := stripPhrases str in
  let str :=
    trim (replace [Cls isWhiteSpace; Star isWhiteSpace] (js " ") str) in
  if negb (truthy str) then trim locationStr else str.

Definition parseLocation (locationStr : jsstring)
  : option ParsedLocation :=
  if negb (truthy locationStr) then None
  else
    let str := cleaned locationStr in
    let parts :=
      List.filter truthy
        (List.map trim (split [Cls isDelimiter; Star isDelimiter] str)) in
    match parts with
    | [] => None
    | _ => Some {| original := locationStr; parts := parts |}
    end.

(** The predicate shared by the four [find*] functions. *)
Definition nameOrCode (normalized : jsstring) (e : Entry) : bool :=
  bool_decide (normalize (name e) = normalized)
  || bool_decide (toLowerCase (code e) = normalized).

Definition findIn (entries : list Entry) (str : jsstring)
  : option Entry :=
  let normalized := normalize str in
  List.find (nameOrCode normalized) entries.

Definition findUSState (data : option Gazetteer) (str : jsstring)
  : option Entry :=
  match data with
  | None => None
  | Some d =>
      if negb (truthy str) then None
      else findIn (default [] (states d !! js "US")) str
  end.

Definition findCAProvince (data : option Gazetteer) (str : jsstring)
  : option Entry :=
  match data with
  | None => None
  | Some d =>
      if negb (truthy str) then None
      else findIn (default [] (states d !! js "CA")) str
  end.

Definition findAUState (data : option Gazetteer) (str : jsstring)
  : option Entry :=
  match data with
  | None => None
  | Some d =>
      if negb (truthy str) then None
      else findIn (default [] (states d !! js "AU")) str
  end.

Definition findCountry (data : option Gazetteer) (str : jsstring)
  : option Entry :=
  match data with
  | None => None
  | Some d =>
      if negb (truthy str) then None else findIn (countries d) str
  end.

Definition subdivisionResult (e : Entry) (country : string)
  : GeocodeResult :=
  {| res_lat := lat e; res_lng := lng e;
     res_name := name e ++ js ", " ++ js country;
     res_displayName := name e |}.

Definition countryResult (e : Entry) : GeocodeResult :=
  {| res_lat := lat e; res_lng := lng e;
     res_name := name e; res_displayName := name e |}.

(** The [for (const part of parsed.parts)] loop of [geocode]: the first
    part matching a tier breaks out of the loop. *)
Fixpoint tryParts (data : option Gazetteer) (ps : list jsstring)
  : option GeocodeResult :=
  match ps with
  | [] => None
  | part :: rest =>
      match findUSState data part with
      | Some usState => Some (subdivisionResult usState "United States")
      | None =>
          match findCAProvince data part with
          | Some caProvince => Some (subdivisionResult caProvince "Canada")
          | None =>
              match findAUState data part with
              | Some auState => Some (subdivisionResult auState "Australia")
              | None =>
                  match findCountry data part with
                  | Some country => Some (countryResult country)
                  | None => tryParts data rest
                  end
              end
          end
      end
  end.

Definition geocode (locationStr : jsstring) : M (option GeocodeResult) :=
  modify (emit (EvGeocode locationStr)) ;;
  if negb (truthy locationStr) then ret None
  else
    let cacheKey := normalize locationStr in
    w <- get ;;
    match cache w !! cacheKey with
    | Some hit => ret hit
    | None =>
        init ;;
        w <- get ;;
        match data w with
        | None => ret None
        | Some _ =>
            match parseLocation locationStr with
            | None => ret None
            | Some parsed =>
                modify (emit (EvResolve cacheKey)) ;;
                let result := tryParts (data w) (parts parsed) in
                modify (fun w =>
                  set_cache (<[cacheKey := result]> (cache w)) w) ;;
                ret result
            end
        end
    end.

(** [new Set(iterable)]: insertion-ordered, without repetitions. *)
Definition setAdd (s : list jsstring) (x : jsstring) : list jsstring :=
  if bool_decide (x ∈ s) then s else s ++ [x].
Definition newSet (l : list jsstring) : list jsstring :=
  fold_left setAdd l [].

(** The body of the [for (const location of unique)] loop. *)
Definition geocodeBatch_body
    (results : gmap jsstring (option GeocodeResult))
    (location : jsstring) : M (gmap jsstring (option GeocodeResult)) :=
  coords <- geocode location ;;
  ret (match coords with
       | Some c => <[location := Some c]> results
       | None => results
       end).

Definition geocodeBatch (locations : list jsstring)
  : M (gmap jsstring (option GeocodeResult)) :=
  init ;;
  let unique := newSet (List.filter truthy locations) in
  foldM geocodeBatch_body ∅ unique.

Definition clearCache : M unit :=
  modify (set_cache ∅).

End WithHost.

End BambooGeocoder.
Export BambooGeocoder.

(** ** The content script ([content.js]) *)

Module Content.

(** A record produced by [processEmployeeData]. *)
Record Employee := {
  id : Z;
  firstName : jsstring;
  lastName : jsstring;
  displayName : jsstring;
  jobTitle : jsstring;
  department : jsstring;
  division : jsstring;
  location : jsstring;
  photoUrl : jsstring
}.

Record LocationGroup := {
  grp_lat : float;
  grp_lng : float;
  grp_name : jsstring;
  employees : list Employee
}.

(** A [Map] with string keys whose iteration order matters: the entries in
    insertion order. *)
Abbreviation JsMap V := (list (jsstring * V)) (only parsing).

Definition mapHas {V} (key : jsstring) (m : JsMap V) : bool :=
  existsb (fun kv => bool_decide (kv.1 = key)) m.
Definition mapGet {V} (key : jsstring) (m : JsMap V) : option V :=
  snd <$> List.find (fun kv => bool_decide (kv.1 = key)) m.
Definition mapAlter {V} (f : V -> V) (key : jsstring) (m : JsMap V)
  : JsMap V :=
  List.map (fun kv => if bool_decide (kv.1 = key) then (kv.1, f kv.2)
                      else kv) m.
Definition mapSet {V} (key : jsstring) (v : V) (m : JsMap V) : JsMap V :=
  if mapHas key m then mapAlter (fun _ => v) key m else m ++ [(key, v)].

Definition pushEmployee (employee : Employee) (g : LocationGroup)
  : LocationGroup :=
  {| grp_lat := grp_lat g; grp_lng := grp_lng g; grp_name := grp_name g;
     employees := employees g ++ [employee] |}.

Section WithHost.
Context `{Host}.

Definition decimalDigits (n : Z) : jsstring :=
  js (NilZero.string_of_uint (N.to_uint (Z.to_N n))).

(** Steps 9 and 10 of [Number.prototype.toFixed]: the digits of [n] with
    a decimal point before the last [f] of them. *)
Definition placePoint (n : Z) (f : nat) : jsstring :=
  let m := decimalDigits n in
  match f with
  | O => m
  | _ =>
      let m := List.repeat 48%N (S f - length m) ++ m in
      let k := length m in
      take (k - f) m ++ js "." ++ drop (k - f) m
  end.

(** [Number.prototype.toFixed(fractionDigits)].  A finite double is
    [m * 2^e] exactly; [n] is the integer nearest to its product with
    [10^fractionDigits], the larger one on a tie. *)
Definition toFixed (x : float) (fractionDigits : nat) : jsstring :=
  match Prim2SF x with
  | S754_nan | S754_infinity _ => Number_toString x
  | S754_zero _ => placePoint 0 fractionDigits
  | S754_finite neg m e =>
      let sign := if neg then js "-" else [] in
      let large :=
        if (0 <=? e)%Z then (10 ^ 21 <=? Z.pos m * 2 ^ e)%Z
        else (10 ^ 21 * 2 ^ (- e) <=? Z.pos m)%Z in
      if large then sign ++ Number_toString (PrimFloat.abs x)
      else
        let p := (10 ^ Z.of_nat fractionDigits)%Z in
        let n :=
          if (0 <=? e)%Z then (Z.pos m * 2 ^ e * p)%Z
          else ((2 * Z.pos m * p + 2 ^ (- e)) / 2 ^ (1 - e))%Z in
        sign ++ placePoint n fractionDigits
  end.

(** The grouping key of a resolved coordinate. *)
Definition keyOf (coords : GeocodeResult) : jsstring :=
  toFixed (res_lat coords) 2 ++ js "," ++ toFixed (res_lng coords) 2.

(** The body of the [for (const employee of employeeList)] loop. *)
Definition addEmployee (geocoded : gmap jsstring (option GeocodeResult))
    (groups : JsMap LocationGroup) (employee : Employee)
  : JsMap LocationGroup :=
  if negb (truthy (location employee)) then groups
  else
    match geocoded !! location employee with
    | Some (Some coords) =>
        let key := keyOf coords in
        let groups :=
          if negb (mapHas key groups) then
            mapSet key
              {| grp_lat := res_lat coords; grp_lng := res_lng coords;
                 grp_name := if truthy (res_name coords)
                             then res_name coords
                             else location employee;
                 employees := [] |} groups
          else groups in
        mapAlter (pushEmployee employee) key groups
    | _ => groups
    end.

Definition groupEmployeesByLocation (employeeList : list Employee)
  : M (JsMap LocationGroup) :=
  let locations := List.filter truthy (List.map location employeeList) in
  geocoded <- geocodeBatch locations ;;
  ret (fold_left (addEmployee geocoded) employeeList []).

End WithHost.

End Content.
Export Content.

(** ** The map renderer *)

Module BambooMap.

(** Numbers are idealised as real numbers here and [Math.log] as the
    natural logarithm: the engine's [Math.log] is only specified up to an
    implementation-defined approximation. *)
Record Config := {
  minZoom : R;
  maxZoom : R;
  initialScale : R;
  transitionDuration : R;
  pinBaseRadius : R;
  pinMaxRadius : R
}.

Definition config : Config :=
  {| minZoom := 3 / 10; maxZoom := 8; initialScale := 1;
     transitionDuration := 300; pinBaseRadius := 6; pinMaxRadius := 20 |}.

Definition getPinRadius (count maxCount : Z) : R :=
  let normalized := (ln (IZR (count + 1)) / ln (IZR (maxCount + 1)))%R in
  (pinBaseRadius config
   + normalized * (pinMaxRadius config - pinBaseRadius config))%R.

End BambooMap.
Export BambooMap.

(** ** A concrete host and a sample data file

    [latin1Host] implements the built-ins on the part of their domain that
    the examples below exercise: strings of Basic Latin and Latin-1
    Supplement characters, where it agrees with the Unicode tables (no
    Latin-1 character has a multi-character case mapping, and every
    canonical decomposition is a base letter followed by one mark), and
    the non-finite numbers.  Other code units are passed through. *)

Module Latin1.

Definition lowerUnit (c : N) : N :=
  if in_range 65 90 c then (c + 32)%N
  else if in_range 192 222 c && negb (c =? 215)%N then (c + 32)%N
  else c.

(** The base letter and combining mark of the lower-case letters
    U+00E0 to U+00FF, where they decompose. *)
Definition lowerTable : list (option (N * N)) := [
  Some (97, 768); Some (97, 769); Some (97, 770); Some (97, 771);
  Some (97, 776); Some (97, 778); None; Some (99, 807);
  Some (101, 768); Some (101, 769); Some (101, 770); Some (101, 776);
  Some (105, 768); Some (105, 769); Some (105, 770); Some (105, 776);
  None; Some (110, 771); Some (111, 768); Some (111, 769);
  Some (111, 770); Some (111, 771); Some (111, 776); None;
  None; Some (117, 768); Some (117, 769); Some (117, 770);
  Some (117, 776); Some (121, 769); None; Some (121, 776)
]%N.

Definition decomposeLower (c : N) : option (N * N) :=
  if in_range 224 255 c then nth (N.to_nat (c - 224)) lowerTable None
  else None.

(** Upper-case letters U+00C0 to U+00DE decompose like their lower-case
    forms, with the upper-case base letter. *)
Definition decomposeUnit (c : N) : list N :=
  match decomposeLower c with
  | Some (b, m) => [b; m]
  | None =>
      if in_range 192 222 c then
        match decomposeLower (c + 32) with
        | Some (b, m) => [(b - 32)%N; m]
        | None => [c]
        end
      else [c]
  end.

(** [Number::toString] on the non-finite numbers.  [toFixed] asks for it on
    finite numbers of magnitude [10^21] and more only, which the examples
    do not contain; the answer there is left empty. *)
Definition numberToString (x : float) : jsstring :=
  match Prim2SF x with
  | S754_nan => js "NaN"
  | S754_infinity false => js "Infinity"
  | S754_infinity true => js "-Infinity"
  | _ => []
  end.

Definition latin1Host : Host :=
  {| toLowerCase := List.map lowerUnit;
     normalizeNFD := fun s => List.concat (List.map decomposeUnit s);
     Number_toString := numberToString |}.

End Latin1.
Export Latin1.

Module Sample.

Local Set Warnings "-inexact-float".

Definition entry (n c : string) (la lo : float) : Entry :=
  {| name := js n; code := js c; lat := la; lng := lo |}.

Definition california : Entry :=
  entry "California" "CA" 36.7783 (-119.4179).
Definition germany : Entry := entry "Germany" "DE" 51.1657 10.4515.

Definition usStates : list Entry := [
  california;
  entry "Georgia" "GA" 32.1656 (-82.9001);
  entry "New York" "NY" 43.2994 (-74.2179);
  entry "Washington" "WA" 47.7511 (-120.7401)
]%float.

(** The name of the second entry is "Québec", with U+00E9. *)
Definition caProvinces : list Entry := [
  entry "Ontario" "ON" 51.2538 (-85.3232);
  {| name := js "Qu" ++ [233%N] ++ js "bec"; code := js "QC";
     lat := 52.9399; lng := (-73.5491) |}
]%float.

Definition auStates : list Entry := [
  entry "New South Wales" "NSW" (-31.2532) 146.9211;
  entry "Victoria" "VIC" (-37.4713) 144.7852
]%float.

Definition sampleCountries : list Entry := [
  entry "Argentina" "AR" (-38.4161) (-63.6167);
  entry "Canada" "CA" 56.1304 (-106.3468);
  entry "Georgia" "GE" 42.3154 43.3569;
  germany;
  entry "United Kingdom" "GB" 55.3781 (-3.436);
  entry "United States" "US" 37.0902 (-95.7129)
]%float.

Definition gazetteer : Gazetteer :=
  {| countries := sampleCountries;
     states := <[js "US" := usStates]>
                 (<[js "CA" := caProvinces]>
                    (<[js "AU" := auStates]> ∅)) |}.

(** A world in which the data file has been loaded and nothing is cached. *)
Definition loaded : World :=
  {| data := Some gazetteer; cache := ∅; fetches := []; trace := [] |}.

Definition person (n : Z) (loc : jsstring) : Employee :=
  {| id := n; firstName := []; lastName := []; displayName := [];
     jobTitle := []; department := []; division := [];
     location := loc; photoUrl := [] |}.

(** The staff of the end-to-end scenario, with one unresolvable and one
    empty location. *)
Definition staff : list Employee := [
  person 1 (js "California - Work From Home");
  person 2 (js "CA");
  person 3 (js "Remote - Argentina");
  person 4 (js "Ontario");
  person 5 (js "Atlantis");
  person 6 []
].

(** "Québec City" in upper case, with U+00C9. *)
Definition quebecCity : list N := js "QU" ++ [201%N] ++ js "BEC  City ".

End Sample.

(** ** Vocabulary of the statements *)

Module Vocabulary.

(** The four matching passes of [geocode], in the order of the loop body. *)
Inductive Tier := TierUS | TierCA | TierAU | TierCountry.

Definition tierOrder : list Tier := [TierUS; TierCA; TierAU; TierCountry].

Definition isSubdivision (t : Tier) : bool :=
  match t with TierCountry => false | _ => true end.

Section WithHost.
Context `{Host}.

Definition findTier (d : Gazetteer) (t : Tier) (part : jsstring)
  : option Entry :=
  match t with
  | TierUS => findUSState (Some d) part
  | TierCA => findCAProvince (Some d) part
  | TierAU => findAUState (Some d) part
  | TierCountry => findCountry (Some d) part
  end.

Definition tierResult (t : Tier) (e : Entry) : GeocodeResult :=
  match t with
  | TierUS => subdivisionResult e "United States"
  | TierCA => subdivisionResult e "Canada"
  | TierAU => subdivisionResult e "Australia"
  | TierCountry => countryResult e
  end.

(** No tier matches the part. *)
Definition unmatched (d : Gazetteer) (part : jsstring) : Prop :=
  forall t, findTier d t part = None.

(** [t] is the first tier, in [tierOrder], that matches the part, and
    [e] is the entry it finds. *)
Definition firstTier (d : Gazetteer) (part : jsstring) (t : Tier)
    (e : Entry) : Prop :=
  exists before after,
    tierOrder = before ++ t :: after
    /\ Forall (fun t' => findTier d t' part = None) before
    /\ findTier d t part = Some e.

(** The operations of the module's public interface.  [runOps] makes the
    calls one after the other, each awaited before the next is made; the
    schedules in which calls overlap are those of [Async]. *)
Inductive Op :=
| OpInit
| OpGeocode (locationStr : jsstring)
| OpGeocodeBatch (locations : list jsstring)
| OpClearCache.

Definition runOp (o : Op) (w : World) : World :=
  match o with
  | OpInit => snd (init w)
  | OpGeocode s => snd (geocode s w)
  | OpGeocodeBatch l => snd (geocodeBatch l w)
  | OpClearCache => snd (clearCache w)
  end.

Definition runOps (ops : list Op) (w : World) : World :=
  fold_left (fun w o => runOp o w) ops w.

Definition isClear (o : Op) : bool :=
  match o with OpClearCache => true | _ => false end.

(** The worlds after successive calls of [geocode]. *)
Definition afterGeocodes (l : list jsstring) (w : World) : World :=
  fold_left (fun w s => snd (geocode s w)) l w.

(** The next attempt to load the data file fails. *)
Definition loadFails (w : World) : Prop :=
  data w = None /\ (fetches w = [] \/ exists fs, fetches w = None :: fs).

End WithHost.

(** The cache keys for which the tier-matching loop ran. *)
Definition resolveRuns (tr : list Event) : list jsstring :=
  omap (fun e => match e with EvResolve k => Some k | _ => None end) tr.

(** The arguments of the calls of [geocode]. *)
Definition geocodeCalls (tr : list Event) : list jsstring :=
  omap (fun e => match e with EvGeocode s => Some s | _ => None end) tr.

Section StateInvariants.
Context `{Host}.

(** The tier-matching loop ran at most once per key, and every such key
    is cached. *)
Definition ranOnce (w : World) : Prop :=
  NoDup (resolveRuns (trace w))
  /\ forall k, k ∈ resolveRuns (trace w) -> is_Some (cache w !! k).

(** Every cached value was computed by the tier-matching loop from the
    loaded data. *)
Definition cacheSound (w : World) : Prop :=
  forall k v,
    cache w !! k = Some v ->
    exists d raw parsed,
      data w = Some d /\ truthy raw = true /\ normalize raw = k
      /\ parseLocation raw = Some parsed
      /\ v = tryParts (Some d) (parts parsed).

End StateInvariants.

(** The built-ins leave alone what [normalize] produces: lower-casing does
    not change a string of lower-case letters, digits and white space, and
    NFD does not change a string of such characters that are themselves
    taken from an NFD string.  Both hold for the Unicode tables: none of
    these characters has a case mapping, and those that occur in an NFD
    string have no canonical decomposition and combining class 0, so that
    any sequence of them is in NFD.  (NFD does not fix every white space
    character: U+2000 and U+2001 decompose into U+2002 and U+2003, which
    is why the second property speaks of characters of an NFD string.) *)
Definition lowerFixesPlain `{Host} : Prop :=
  forall s, Forall (fun c => isLowerAlnumSpace c = true) s ->
            toLowerCase s = s.

Definition nfdFixesPlain `{Host} : Prop :=
  forall u s,
    (forall c, c ∈ s -> c ∈ normalizeNFD u /\ isLowerAlnumSpace c = true) ->
    normalizeNFD s = s.

(** The separator of [parseLocation]. *)
Definition delimiters : regex := [Cls isDelimiter; Star isDelimiter].

(** The parts computed from the fragments. *)
Definition partsOf (str : list N) : list (list N) :=
  List.filter truthy (List.map trim (split delimiters str)).

(** A run of white space. *)
Definition wsRun (l : list N) : Prop :=
  Forall (fun c => isWhiteSpace c = true) l.

(** What [\s*-?\s*] takes in front of a letter: white space, or white
    space, a hyphen and white space. *)
Inductive isGap : list N -> Prop :=
| gap_ws l : wsRun l -> isGap l
| gap_hyphen l1 l2 : wsRun l1 -> wsRun l2 -> isGap (l1 ++ 45%N :: l2).

(** [k] spells the lower-case [word] in some mix of upper and lower case. *)
Definition spelled (word : string) (k : list N) : Prop :=
  Forall2 (fun l c => ci l c = true) (js word) k.

(** [K] spells the words in order, with any white space between them. *)
Fixpoint spelledPhrase (words : list string) (K : list N) : Prop :=
  match words with
  | [] => K = []
  | [w] => spelled w K
  | w :: rest =>
      exists k g K', K = k ++ g ++ K' /\ spelled w k /\ wsRun g
                     /\ spelledPhrase rest K'
  end.

(** The rule for a phrase: the words, each followed by [\s*], after
    [\s*-?\s*]. *)
Definition phraseRule (words : list string) : regex :=
  [s_star; hy_opt; s_star]
    ++ concat (List.map (fun w => lit w ++ [s_star]) words).

Definition phrases : list (list string) :=
  [["work"; "from"; "home"]; ["wfh"]; ["home"; "office"]; ["office"]]%string.

Definition remotePrefixRule : regex :=
  [Bol; s_star] ++ lit "remote" ++ [s_star; hy_opt; s_star].

Definition remoteSuffixRule : regex :=
  [s_star; hy_opt; s_star] ++ lit "remote" ++ [s_star; Eol].

(** The first letter of a phrase. *)
Definition firstLetter (words : list string) : N :=
  hd 0%N (js (hd EmptyString words)).

(** Neither white space, nor a hyphen, nor the letter [l] in either case:
    no match of a phrase starting with [l] can begin at such a
    character. *)
Definition inert (l : N) (c : N) : bool :=
  negb (isWhiteSpace c) && negb (isHyphen c) && negb (ci l c).

(** The length of the longest prefix that [\s*-?\s*] takes. *)
Definition gapLength (s : list N) : nat :=
  let l1 := takeWhile isWhiteSpace s in
  match drop (length l1) s with
  | c :: t =>
      if isHyphen c then S (length l1 + length (takeWhile isWhiteSpace t))
      else length l1
  | [] => length l1
  end.

(** A word of lower-case letters. *)
Definition lowerWord (w : string) : Prop :=
  js w <> [] /\ Forall (fun l => in_range 97 122 l = true) (js w).

End Vocabulary.
Export Vocabulary.

(** ** Vocabulary of the statements about the content script *)

Module GroupingVocabulary.

(** The number of members over all groups. *)
Definition totalMembers (groups : JsMap LocationGroup) : nat :=
  list_sum (List.map (fun kg => length (employees kg.2)) groups).

Section WithHost.
Context `{Host}.

(** The coordinate under which an employee is grouped, if any: the
    binding of the employee's non-empty location in the batch result. *)
Definition coordsOf (geocoded : gmap jsstring (option GeocodeResult))
    (e : Employee) : option GeocodeResult :=
  if truthy (location e) then
    match geocoded !! location e with
    | Some (Some coords) => Some coords
    | _ => None
    end
  else None.

Definition groupKey (geocoded : gmap jsstring (option GeocodeResult))
    (e : Employee) : option jsstring :=
  keyOf <$> coordsOf geocoded e.

Definition hasKey (geocoded : gmap jsstring (option GeocodeResult))
    (k : jsstring) (e : Employee) : bool :=
  bool_decide (groupKey geocoded e = Some k).

Definition resolves (geocoded : gmap jsstring (option GeocodeResult))
    (e : Employee) : bool :=
  bool_decide (is_Some (coordsOf geocoded e)).

(** What the loop maintains after the employees [seen]. *)
Record grouped (geocoded : gmap jsstring (option GeocodeResult))
    (seen : list Employee) (groups : JsMap LocationGroup) : Prop := {
  grouped_keys : NoDup (List.map fst groups);
  grouped_members :
    forall k g, (k, g) ∈ groups ->
                employees g = List.filter (hasKey geocoded k) seen;
  grouped_cover :
    forall k, k ∈ List.map fst groups
              <-> exists e, e ∈ seen /\ groupKey geocoded e = Some k;
  grouped_total :
    totalMembers groups = length (List.filter (resolves geocoded) seen)
}.

End WithHost.

End GroupingVocabulary.
Export GroupingVocabulary.

(** ** The directory payload ([content.js], validation and paging) *)

Module Directory.

Local Unset Elimination Schemes.

(** A value produced by [response.json()]. *)
Inductive Json :=
| JNull
| JBool (b : bool)
| JNum (x : float)
| JStr (s : list N)
| JArr (items : list Json)
| JObj (props : list (list N * Json)).

Local Set Elimination Schemes.

(** Truthiness: [null], [false], zeros, [NaN] and the empty string are
    falsy. *)
Definition truthyJson (v : Json) : bool :=
  match v with
  | JNull => false
  | JBool b => b
  | JNum x =>
      match Prim2SF x with
      | S754_zero _ | S754_nan => false
      | _ => true
      end
  | JStr s => truthy s
  | JArr _ | JObj _ => true
  end.

(** [typeof v === 'object'] *)
Definition isObjectType (v : Json) : bool :=
  match v with JNull | JArr _ | JObj _ => true | _ => false end.

(** Reading a named property of a value other than [null]; [None] is
    [undefined].  The keys read by the sources name no property of an
    array, a string, a number or a boolean.  A parsed object holds each
    key once; of a list that repeats a key the first binding is read. *)
Definition getProp (key : string) (v : Json) : option Json :=
  match v with
  | JObj props =>
      snd <$> List.find (fun kv => bool_decide (kv.1 = js key)) props
  | _ => None
  end.

(** [/\0/g] *)
Definition nulPattern : regex := [Cls (N.eqb 0)].

Definition sanitizeString (value : option Json) : list N :=
  match value with
  | Some (JStr s) => trim (replace nulPattern [] s)
  | _ => []
  end.

(** The record built by [validateEmployee]. *)
Record ValidEmployee := {
  v_id : Json;
  v_displayFirstName : list N;
  v_firstName : list N;
  v_lastName : list N;
  v_displayName : list N;
  v_jobTitle : list N;
  v_department : list N;
  v_division : list N;
  v_location : list N;
  v_photoUrl : list N
}.

Definition validateEmployee (emp : Json) : option ValidEmployee :=
  if negb (truthyJson emp) || negb (isObjectType emp) then None
  else
    match getProp "id" emp with
    | None => None
    | Some i =>
        Some {| v_id := i;
                v_displayFirstName :=
                  sanitizeString (getProp "displayFirstName" emp);
                v_firstName := sanitizeString (getProp "firstName" emp);
                v_lastName := sanitizeString (getProp "lastName" emp);
                v_displayName := sanitizeString (getProp "displayName" emp);
                v_jobTitle := sanitizeString (getProp "jobTitle" emp);
                v_department := sanitizeString (getProp "department" emp);
                v_division := sanitizeString (getProp "division" emp);
                v_location := sanitizeString (getProp "location" emp);
                v_photoUrl := sanitizeString (getProp "photoUrl" emp) |}
    end.

(** The record built by [processEmployeeData]. *)
Record ProcessedEmployee := {
  p_id : Json;
  p_firstName : list N;
  p_lastName : list N;
  p_displayName : list N;
  p_jobTitle : list N;
  p_department : list N;
  p_division : list N;
  p_location : list N;
  p_photoUrl : list N
}.

(** [a || b] on strings. *)
Definition orElse (a b : list N) : list N := if truthy a then a else b.

Definition processEmployeeData (validatedEmployees : list ValidEmployee)
  : list ProcessedEmployee :=
  List.filter (fun emp => truthy (p_location emp))
    (List.map
       (fun employee =>
          {| p_id := v_id employee;
             p_firstName :=
               orElse (v_displayFirstName employee)
                 (orElse (v_firstName employee) []);
             p_lastName := orElse (v_lastName employee) [];
             p_displayName := orElse (v_displayName employee) [];
             p_jobTitle := orElse (v_jobTitle employee) [];
             p_department := orElse (v_department employee) [];
             p_division := orElse (v_division employee) [];
             p_location := v_location employee;
             p_photoUrl := orElse (v_photoUrl employee) [] |})
       validatedEmployees).

(** What one request of [fetchEmployees] meets. *)
Inductive Response :=
| NetworkError            (* [fetch] rejects *)
| HttpError               (* [response.ok] is false *)
| BadJson                 (* [response.json()] rejects *)
| Body (data : Json).

Definition limit : nat := 100.

(** [data.employees || []], as the array that [.map] is then called on;
    [None] when one of the two throws a [TypeError]: [data] is [null], or
    the property is truthy and not an array. *)
Definition employeesOf (data : Json) : option (list Json) :=
  match data with
  | JNull => None
  | _ =>
      match getProp "employees" data with
      | None => Some []
      | Some v =>
          if truthyJson v then
            match v with
            | JArr items => Some items
            | _ => None
            end
          else Some []
      end
  end.

(** The [while (hasMore)] loop inside the [try] block: [server] answers the
    request for each page number, [allEmployees] is the accumulator.
    [fuel] bounds the number of requests. *)
Fixpoint fetchLoop (server : nat -> Response) (fuel : nat) (page : nat)
    (allEmployees : list ValidEmployee) : option (list ValidEmployee) :=
  match fuel with
  | O => None
  | S fuel' =>
      match server page with
      | Body data =>
          match employeesOf data with
          | Some rawEmployees =>
              let validEmployees := omap validateEmployee rawEmployees in
              let allEmployees := allEmployees ++ validEmployees in
              if (length rawEmployees <? limit)%nat then Some allEmployees
              else fetchLoop server fuel' (S page) allEmployees
          | None => Some allEmployees
          end
      | _ => Some allEmployees
      end
  end.

Definition fetchEmployees (server : nat -> Response) (fuel : nat)
  : option (list ValidEmployee) :=
  fetchLoop server fuel 1 [].

End Directory.

(** ** The filters ([content.js]) *)

Module Filters.

(** [currentFilters] *)
Record Filters := {
  f_name : list N;
  f_jobTitle : list N;
  f_department : list N;
  f_division : list N
}.

(** The filter names that the sources pass around as strings. *)
Inductive FilterName := FName | FJobTitle | FDepartment | FDivision.

Definition noFilters : Filters :=
  {| f_name := []; f_jobTitle := []; f_department := []; f_division := [] |}.

(** [currentFilters[filterName]] *)
Definition filterValue (cur : Filters) (f : FilterName) : list N :=
  match f with
  | FName => f_name cur
  | FJobTitle => f_jobTitle cur
  | FDepartment => f_department cur
  | FDivision => f_division cur
  end.

(** [currentFilters[filterName] = ''] *)
Definition resetFilter (cur : Filters) (f : FilterName) : Filters :=
  match f with
  | FName =>
      {| f_name := []; f_jobTitle := f_jobTitle cur;
         f_department := f_department cur; f_division := f_division cur |}
  | FJobTitle =>
      {| f_name := f_name cur; f_jobTitle := [];
         f_department := f_department cur; f_division := f_division cur |}
  | FDepartment =>
      {| f_name := f_name cur; f_jobTitle := f_jobTitle cur;
         f_department := []; f_division := f_division cur |}
  | FDivision =>
      {| f_name := f_name cur; f_jobTitle := f_jobTitle cur;
         f_department := f_department cur; f_division := [] |}
  end.

(** [emp[field]]; an employee record has no [name] property. *)
Definition fieldOf (f : FilterName) (emp : Employee) : list N :=
  match f with
  | FName => []
  | FJobTitle => jobTitle emp
  | FDepartment => department emp
  | FDivision => division emp
  end.

Definition isExcluded (excludeFilter : option FilterName) (f : FilterName)
  : bool :=
  match excludeFilter, f with
  | Some FName, FName | Some FJobTitle, FJobTitle
  | Some FDepartment, FDepartment | Some FDivision, FDivision => true
  | _, _ => false
  end.

Fixpoint startsWith (s search : list N) : bool :=
  match search, s with
  | [], _ => true
  | c :: search', d :: s' => (c =? d)%N && startsWith s' search'
  | _ :: _, [] => false
  end.

(** [String.prototype.includes] *)
Fixpoint includes (s search : list N) : bool :=
  startsWith s search
  || match s with
     | _ :: s' => includes s' search
     | [] => false
     end.

(** Code-unit order of two strings, as the default comparison of
    [Array.prototype.sort] takes it. *)
Fixpoint unitsLt (a b : list N) : bool :=
  match a, b with
  | _, [] => false
  | [], _ :: _ => true
  | x :: a', y :: b' => (x <? y)%N || ((x =? y)%N && unitsLt a' b')
  end.

Fixpoint insertSorted (x : list N) (l : list (list N)) : list (list N) :=
  match l with
  | [] => [x]
  | y :: l' => if unitsLt y x then y :: insertSorted x l' else x :: y :: l'
  end.

(** [Array.prototype.sort()] on strings: the order is by code units; the
    sorted arrangement of pairwise different strings is unique, so that the
    algorithm of the engine does not show. *)
Definition sortStrings (l : list (list N)) : list (list N) :=
  fold_right insertSorted [] l.

Definition getUniqueValues (field : FilterName)
    (employeeList : list Employee) : list (list N) :=
  sortStrings
    (fold_left
       (fun values emp =>
          if truthy (fieldOf field emp) then setAdd values (fieldOf field emp)
          else values)
       employeeList []).

Section WithHost.
Context `{Host}.

(** The predicate of [filterEmployeesExcluding]. *)
Definition passesFilters (cur : Filters) (excludeFilter : option FilterName)
    (emp : Employee) : bool :=
  let nameMatch :=
    isExcluded excludeFilter FName || negb (truthy (f_name cur))
    || includes (toLowerCase (firstName emp ++ js " " ++ lastName emp))
         (toLowerCase (f_name cur)) in
  let jobMatch :=
    isExcluded excludeFilter FJobTitle || negb (truthy (f_jobTitle cur))
    || bool_decide (jobTitle emp = f_jobTitle cur) in
  let deptMatch :=
    isExcluded excludeFilter FDepartment || negb (truthy (f_department cur))
    || bool_decide (department emp = f_department cur) in
  let divMatch :=
    isExcluded excludeFilter FDivision || negb (truthy (f_division cur))
    || bool_decide (division emp = f_division cur) in
  nameMatch && jobMatch && deptMatch && divMatch.

Definition filterEmployeesExcluding (allEmployeesData : list Employee)
    (cur : Filters) (excludeFilter : option FilterName) : list Employee :=
  List.filter (passesFilters cur excludeFilter) allEmployeesData.

Definition filterEmployees (allEmployeesData : list Employee)
    (cur : Filters) : list Employee :=
  filterEmployeesExcluding allEmployeesData cur None.

(** The effect of [updateDropdown] on [currentFilters]; [present] tells
    whether the [select] element exists. *)
Definition updateDropdown (present : bool) (filterName : FilterName)
    (availableValues : list (list N)) (cur : Filters) : Filters :=
  if negb present then cur
  else
    let currentValue := filterValue cur filterName in
    if truthy currentValue
       && negb (bool_decide (currentValue ∈ availableValues))
    then resetFilter cur filterName
    else cur.

(** The effect of [updateFilterDropdowns] on [currentFilters]: the three
    lists are computed first, then the dropdowns are updated in turn. *)
Definition updateFilterDropdowns (present : FilterName -> bool)
    (allEmployeesData : list Employee) (cur : Filters) : Filters :=
  let availableJobTitles :=
    getUniqueValues FJobTitle
      (filterEmployeesExcluding allEmployeesData cur (Some FJobTitle)) in
  let availableDepartments :=
    getUniqueValues FDepartment
      (filterEmployeesExcluding allEmployeesData cur (Some FDepartment)) in
  let availableDivisions :=
    getUniqueValues FDivision
      (filterEmployeesExcluding allEmployeesData cur (Some FDivision)) in
  let cur := updateDropdown (present FJobTitle) FJobTitle
               availableJobTitles cur in
  let cur := updateDropdown (present FDepartment) FDepartment
               availableDepartments cur in
  updateDropdown (present FDivision) FDivision availableDivisions cur.

End WithHost.

Definition getActiveFilterCount (cur : Filters) : nat :=
  let count := 0%nat in
  let count := if truthy (f_name cur) then S count else count in
  let count := if truthy (f_jobTitle cur) then S count else count in
  let count := if truthy (f_department cur) then S count else count in
  if truthy (f_division cur) then S count else count.

End Filters.

(** ** The popup *)

Module BambooPopup.

Definition colors : list string := [
  "#4CAF50"; "#2196F3"; "#9C27B0"; "#FF5722"; "#607D8B";
  "#E91E63"; "#00BCD4"; "#FF9800"; "#795548"; "#3F51B5"
]%string.

(** The index computed by [getAvatarColor]: the sum of the code units of
    the two names, modulo the number of colours.  The sum of the code units
    of a string stays far below [2^53], so that it is exact. *)
Definition colorIndex (firstName lastName : list N) : N :=
  (fold_left (fun acc char => acc + char) (firstName ++ lastName) 0
   mod N.of_nat (length colors))%N.

(** [colors[colorIndex]]; [None] is [undefined]. *)
Definition getAvatarColor (firstName lastName : list N) : option string :=
  nth_error colors (N.to_nat (colorIndex firstName lastName)).

(** [String.prototype.endsWith] *)
Definition endsWith (s suffix : list N) : bool :=
  bool_decide (drop (length s - length suffix) s = suffix)
  && (length suffix <=? length s)%nat.

Definition trustedDomains : list string :=
  [".bamboohr.com"; ".cloudfront.net"; ".amazonaws.com"]%string.

Section WithHost.
Context `{Host}.

(** The [protocol] and the [hostname] of [new URL(url)]; [None] when the
    constructor throws. *)
Variable parseURL : list N -> option (list N * list N).

Definition isValidPhotoUrl (url : list N) : bool :=
  if negb (truthy url) then false
  else
    match parseURL url with
    | None => false
    | Some (protocol, host) =>
        if negb (bool_decide (protocol = js "https:")) then false
        else
          let hostname := toLowerCase host in
          existsb
            (fun domain =>
               bool_decide (hostname = drop 1 (js domain))
               || endsWith hostname (js domain))
            trustedDomains
    end.

End WithHost.

(** [positionPopup]: the [left] and [top] written to the style of the
    popup.  Numbers are idealised as real numbers. *)
Definition padding : R := 16.

Definition positionPopup (clientX clientY popupWidth popupHeight
    viewportWidth viewportHeight : R) : R * R :=
  let left := (clientX + padding)%R in
  let top := (clientY + padding)%R in
  let left :=
    if Rlt_dec (viewportWidth - padding) (left + popupWidth)
    then (clientX - popupWidth - padding)%R else left in
  let top :=
    if Rlt_dec (viewportHeight - padding) (top + popupHeight)
    then (viewportHeight - popupHeight - padding)%R else top in
  (Rmax padding left, Rmax padding top).

End BambooPopup.

(** ** Rendering the pins *)

Module Pins.

(** [Math.max(...locations.map(l => l.employees.length))] for a list that
    is not empty. *)
Definition maxCountOf (locations : list LocationGroup) : Z :=
  match locations with
  | [] => 0
  | l :: rest =>
      fold_left (fun m l' => Z.max m (Z.of_nat (length (employees l'))))
        rest (Z.of_nat (length (employees l)))
  end.

(** The radii that [renderPins] gives to the circles, one per location. *)
Definition pinRadii (locations : list LocationGroup) : list R :=
  match locations with
  | [] => []
  | _ =>
      let maxCount := maxCountOf locations in
      List.map
        (fun d => getPinRadius (Z.of_nat (length (employees d))) maxCount)
        locations
  end.

End Pins.

(** ** Vocabulary of the statements about the rest of the sources *)

Module MoreVocabulary.
Import Directory Filters BambooPopup Pins.

(** Free of U+0000 and of white space at both ends. *)
Definition clean (s : list N) : Prop := (0%N ∉ s) /\ trim s = s.

(** The string fields of a validated record. *)
Definition stringFields (v : ValidEmployee) : list (list N) :=
  [v_displayFirstName v; v_firstName v; v_lastName v; v_displayName v;
   v_jobTitle v; v_department v; v_division v; v_location v; v_photoUrl v].

(** The properties that [validateEmployee] reads as strings, in the
    order of [stringFields]. *)
Definition fieldNames : list string :=
  ["displayFirstName"; "firstName"; "lastName"; "displayName"; "jobTitle";
   "department"; "division"; "location"; "photoUrl"]%string.

(** A payload entry that reaches the map: an object with an [id] whose
    [location] is a string with a character other than U+0000 and white
    space. *)
Definition placeable (emp : Json) : bool :=
  match emp with
  | JObj _ =>
      match getProp "id" emp, getProp "location" emp with
      | Some _, Some (JStr s) =>
          existsb (fun c => negb (c =? 0)%N && negb (isWhiteSpace c)) s
      | _, _ => false
      end
  | _ => false
  end.

(** The array that the request for a page yields, if the request and the
    reading of the array succeed. *)
Definition pageItems (server : nat -> Response) (page : nat)
  : option (list Json) :=
  match server page with
  | Body data => employeesOf data
  | _ => None
  end.

(** The valid records of one page; a page that cannot be read has none. *)
Definition pageValid (server : nat -> Response) (page : nat)
  : list ValidEmployee :=
  omap validateEmployee (default [] (pageItems server page)).

(** A group that carries the coordinate and the name of its first
    member. *)
Definition anchored (geocoded : gmap (list N) (option GeocodeResult))
    (g : LocationGroup) : Prop :=
  exists e rest coords,
    employees g = e :: rest
    /\ coordsOf geocoded e = Some coords
    /\ grp_lat g = res_lat coords
    /\ grp_lng g = res_lng coords
    /\ grp_name g = (if truthy (res_name coords) then res_name coords
                     else location e).

(** The number of successful loads of the data file in a log. *)
Definition loads (tr : list Event) : nat :=
  length (List.filter
            (fun e => match e with EvFetch true => true | _ => false end) tr).

(** The pattern of white space runs. *)
Definition wsPlus : regex := [Cls isWhiteSpace; Star isWhiteSpace].

(** The string does not begin with white space. *)
Definition startsPlain (l : list N) : bool :=
  match l with c :: _ => negb (isWhiteSpace c) | [] => true end.

(** The table that a tier searches. *)
Definition tierTable (d : Gazetteer) (t : Tier) : list Entry :=
  match t with
  | TierUS => default [] (states d !! js "US")
  | TierCA => default [] (states d !! js "CA")
  | TierAU => default [] (states d !! js "AU")
  | TierCountry => countries d
  end.

(** White space is collapsed: it occurs as single spaces only. *)
Fixpoint collapsed (l : list N) : bool :=
  match l with
  | c :: t =>
      (if isWhiteSpace c
       then (c =? 32)%N
            && match t with d :: _ => negb (isWhiteSpace d) | [] => true end
       else true)
      && collapsed t
  | [] => true
  end.

End MoreVocabulary.

(** ** More sample data *)

Module MoreSample.
Import Directory Filters BambooPopup Pins MoreVocabulary.

(** A directory of 100 entries, one of them an array, then a failure. *)
Definition fullThenDown (page : nat) : Response :=
  match page with
  | 1%nat =>
      Body (JObj [(js "employees",
                   JArr (JArr []
                         :: repeat (JObj [(js "id", JNum 1%float)]) 99))])
  | _ => NetworkError
  end.

Definition colleague (n : Z) (first last title dept loc : string)
  : Employee :=
  {| id := n; firstName := js first; lastName := js last; displayName := [];
     jobTitle := js title; department := js dept; division := [];
     location := js loc; photoUrl := [] |}.

Definition team : list Employee := [
  colleague 1 "Ada" "Lovelace" "Engineer" "Research" "Ontario";
  colleague 2 "Alan" "Turing" "Engineer" "Research" "CA";
  colleague 3 "Grace" "Hopper" "Admiral" "Navy" "New York"
].

(** A name, a job title and a department are selected. *)
Definition engineers : Filters :=
  {| f_name := js "a"; f_jobTitle := js "Engineer";
     f_department := js "Research"; f_division := [] |}.

(** A job title and a department that no employee combines. *)
Definition nobody : Filters :=
  {| f_name := []; f_jobTitle := js "Admiral";
     f_department := js "Research"; f_division := [] |}.

End MoreSample.

(** ** Calls that overlap

    The functions of the geocoder are [async]: a call runs up to its next
    [await], and other calls run before it goes on.  [init] tests [data],
    and writes it only after the two awaits of the load; [geocode] tests
    the cache, awaits [init], and writes the cache afterwards;
    [geocodeBatch] awaits [init] and then each [geocode] in turn.  Here a
    call is cut at its awaits into segments that run without
    interruption, and a schedule decides which pending call goes on next.
    Every interleaving that the event loop can produce is a schedule; the
    monadic [init], [geocode] and [geocodeBatch] above are the schedules
    in which each call is awaited before the next one is made. *)

Module Async.

(** What a call suspended at [await init()] waits for: the load that its
    [init] has started, or only the turn of the event loop that every
    [await] takes. *)
Inductive Wait := Loading | Loaded.

(** The call of [geocode] that a batch awaits. *)
Inductive GState :=
| GWait (wt : Wait)
| GDone (coords : option GeocodeResult).

(** A suspended call. *)
Inductive Task :=
| TInit
| TGeocode (locationStr : list N) (wt : Wait)
| TBatchInit (locations : list (list N)) (wt : Wait)
| TBatchLoop (results : gmap (list N) (option GeocodeResult))
    (location : list N) (g : GState) (rest : list (list N)).

(** What a call returns. *)
Inductive Value :=
| VInit (d : option Gazetteer)
| VGeocode (result : option GeocodeResult)
| VBatch (results : gmap (list N) (option GeocodeResult))
| VUnit.

(** A step of a schedule: a new call, numbered in the order of the calls,
    or the next segment of a suspended call. *)
Inductive Action :=
| Call (o : Op)
| Resume (i : nat).

Record Config := {
  world : World;
  pending : gmap nat Task;
  settled : gmap nat Value;
  next : nat
}.

(** A freshly loaded module, no call made. *)
Definition start (fs : list (option Gazetteer)) : Config :=
  {| world := boot fs; pending := ∅; settled := ∅; next := 0 |}.

(** No call in flight. *)
Definition idle (w : World) (n : nat) : Config :=
  {| world := w; pending := ∅; settled := ∅; next := n |}.

(** [init] up to [await fetch(url)]. *)
Definition initBegin (w : World) : Wait :=
  match data w with Some _ => Loaded | None => Loading end.

(** [init] from the end of the load: [data = await response.json()], or
    the [catch]. *)
Definition loadEnd (w : World) : option Gazetteer * World :=
  match fetches w with
  | Some d :: fs =>
      (Some d, emit (EvFetch true) (set_data (Some d) (set_fetches fs w)))
  | None :: fs => (None, emit (EvFetch false) (set_fetches fs w))
  | [] => (None, emit (EvFetch false) w)
  end.

Section WithHost.
Context `{Host}.

(** [geocode] up to [await init()]. *)
Definition geocodeBegin (locationStr : list N) (w : World)
  : (option GeocodeResult + Wait) * World :=
  let w := emit (EvGeocode locationStr) w in
  if negb (truthy locationStr) then (inl None, w)
  else
    match cache w !! normalize locationStr with
    | Some hit => (inl hit, w)
    | None => (inr (initBegin w), w)
    end.

(** [geocode] after [await init()]. *)
Definition geocodeEnd (locationStr : list N) (w : World)
  : option GeocodeResult * World :=
  match data w with
  | None => (None, w)
  | Some _ =>
      match parseLocation locationStr with
      | None => (None, w)
      | Some parsed =>
          let cacheKey := normalize locationStr in
          let w := emit (EvResolve cacheKey) w in
          let result := tryParts (data w) (parts parsed) in
          (result, set_cache (<[cacheKey := result]> (cache w)) w)
      end
  end.

(** [if (coords) results.set(location, coords)] *)
Definition record (results : gmap (list N) (option GeocodeResult))
    (location : list N) (coords : option GeocodeResult)
  : gmap (list N) (option GeocodeResult) :=
  match coords with
  | Some c => <[location := Some c]> results
  | None => results
  end.

(** The head of the [for] loop of [geocodeBatch], up to
    [await geocode(location)]. *)
Definition batchNext (results : gmap (list N) (option GeocodeResult))
    (rest : list (list N)) (w : World) : (Task + Value) * World :=
  match rest with
  | [] => (inr (VBatch results), w)
  | location :: rest' =>
      let (g, w') := geocodeBegin location w in
      (inl (TBatchLoop results location
              (match g with inl r => GDone r | inr wt => GWait wt end)
              rest'),
       w')
  end.

(** A new call, up to its first [await]. *)
Definition call (o : Op) (w : World) : (Task + Value) * World :=
  match o with
  | OpInit =>
      match data w with
      | Some d => (inr (VInit (Some d)), w)
      | None => (inl TInit, w)
      end
  | OpGeocode locationStr =>
      let (g, w') := geocodeBegin locationStr w in
      (match g with
       | inl r => inr (VGeocode r)
       | inr wt => inl (TGeocode locationStr wt)
       end, w')
  | OpGeocodeBatch locations => (inl (TBatchInit locations (initBegin w)), w)
  | OpClearCache => (inr VUnit, snd (clearCache w))
  end.

(** The next segment of a suspended call, up to its next [await] or its
    return. *)
Definition resume (t : Task) (w : World) : (Task + Value) * World :=
  match t with
  | TInit => let (d, w') := loadEnd w in (inr (VInit d), w')
  | TGeocode locationStr Loading =>
      (inl (TGeocode locationStr Loaded), snd (loadEnd w))
  | TGeocode locationStr Loaded =>
      let (r, w') := geocodeEnd locationStr w in (inr (VGeocode r), w')
  | TBatchInit locations Loading =>
      (inl (TBatchInit locations Loaded), snd (loadEnd w))
  | TBatchInit locations Loaded =>
      batchNext ∅ (newSet (List.filter truthy locations)) w
  | TBatchLoop results location (GWait Loading) rest =>
      (inl (TBatchLoop results location (GWait Loaded) rest),
       snd (loadEnd w))
  | TBatchLoop results location (GWait Loaded) rest =>
      let (r, w') := geocodeEnd location w in
      (inl (TBatchLoop results location (GDone r) rest), w')
  | TBatchLoop results location (GDone coords) rest =>
      batchNext (record results location coords) rest w
  end.

Definition act (a : Action) (c : Config) : Config :=
  match a with
  | Call o =>
      match call o (world c) with
      | (inl t, w) =>
          {| world := w; pending := <[next c := t]> (pending c);
             settled := settled c; next := S (next c) |}
      | (inr v, w) =>
          {| world := w; pending := pending c;
             settled := <[next c := v]> (settled c); next := S (next c) |}
      end
  | Resume i =>
      match pending c !! i with
      | None => c
      | Some t =>
          match resume t (world c) with
          | (inl t', w) =>
              {| world := w; pending := <[i := t']> (pending c);
                 settled := settled c; next := next c |}
          | (inr v, w) =>
              {| world := w; pending := delete i (pending c);
                 settled := <[i := v]> (settled c); next := next c |}
          end
      end
  end.

(** Running a schedule. *)
Definition exec (sched : list Action) (c : Config) : Config :=
  fold_left (fun c a => act a c) sched c.

(** The segments of one suspended call, run without anything in
    between. *)
Fixpoint run (fuel : nat) (t : Task) (w : World) : (Task + Value) * World :=
  match fuel with
  | O => (inl t, w)
  | S fuel' =>
      match resume t w with
      | (inl t', w') => run fuel' t' w'
      | (inr v, w') => (inr v, w')
      end
  end.

(** The number of segments after which a call has returned at the
    latest. *)
Definition turns (o : Op) : nat :=
  match o with
  | OpGeocodeBatch locations =>
      2 + 3 * length (newSet (List.filter truthy locations))
  | _ => 2
  end.

(** The call numbered [i], awaited: nothing else runs before it
    returns. *)
Definition awaited (i : nat) (o : Op) : list Action :=
  Call o :: repeat (Resume i) (turns o).

(** Calls made one after the other, each awaited. *)
Fixpoint awaitEach (i : nat) (ops : list Op) : list Action :=
  match ops with
  | [] => []
  | o :: ops' => awaited i o ++ awaitEach (S i) ops'
  end.

(** What the awaited call returns. *)
Definition valueOf (o : Op) (w : World) : Value :=
  match o with
  | OpInit => VInit (fst (init w))
  | OpGeocode locationStr => VGeocode (fst (geocode locationStr w))
  | OpGeocodeBatch locations => VBatch (fst (geocodeBatch locations w))
  | OpClearCache => VUnit
  end.

(** The location whose resolution a suspended call will run next. *)
Definition waits (t : Task) : option (list N) :=
  match t with
  | TGeocode locationStr _ => Some locationStr
  | TBatchLoop _ location (GWait _) _ => Some location
  | _ => None
  end.

(** The call is in flight for the cache key [k]: it has missed the cache
    and not yet stored its result. *)
Definition waitsFor (k : list N) (t : Task) : bool :=
  match waits t with
  | Some locationStr => bool_decide (normalize locationStr = k)
  | None => false
  end.

End WithHost.

(** The call has started a load that has not ended. *)
Definition loadingTask (t : Task) : bool :=
  match t with
  | TInit | TGeocode _ Loading | TBatchInit _ Loading
  | TBatchLoop _ _ (GWait Loading) _ => true
  | _ => false
  end.

(** No suspended call has the property, and at most one has. *)
Definition noTask (p : Task -> bool) (c : Config) : Prop :=
  forall i t, pending c !! i = Some t -> p t = false.

Definition atMostOne (p : Task -> bool) (c : Config) : Prop :=
  forall i j t u,
    pending c !! i = Some t -> pending c !! j = Some u ->
    p t = true -> p u = true -> i = j.

Section WithHost.
Context `{Host}.

(** The property holds before every step of the schedule. *)
Fixpoint always (Q : Config -> Prop) (sched : list Action) (c : Config)
  : Prop :=
  match sched with
  | [] => True
  | a :: sched' => Q c /\ always Q sched' (act a c)
  end.

End WithHost.

Definition isClearAction (a : Action) : bool :=
  match a with Call OpClearCache => true | _ => false end.

(** The schedule does not call [clearCache]. *)
Definition noClear (sched : list Action) : bool :=
  forallb (fun a => negb (isClearAction a)) sched.

(** The number of runs of the tier-matching loop for a key. *)
Definition runsFor (k : list N) (tr : list Event) : nat :=
  length (List.filter (fun x => bool_decide (x = k)) (resolveRuns tr)).

(** What a segment does to the module state and to the call it belongs
    to: [old] is the call before the segment ([None] for a new call),
    [new] the call after it ([None] when it has returned). *)
Section WithHost.
Context `{Host}.

Inductive Shape (w : World) : option Task -> option Task -> World -> Prop :=
| shape_load t new :
    loadingTask t = true ->
    match new with
    | Some t' => loadingTask t' = false /\ waits t' = waits t
    | None => waits t = None
    end ->
    Shape w (Some t) new (snd (loadEnd w))
| shape_end t locationStr new :
    loadingTask t = false -> waits t = Some locationStr ->
    match new with
    | Some t' => loadingTask t' = false /\ waits t' = None
    | None => True
    end ->
    Shape w (Some t) new (snd (geocodeEnd locationStr w))
| shape_begin old locationStr new :
    match old with
    | Some t => loadingTask t = false /\ waits t = None
    | None => True
    end ->
    match new with
    | Some t' =>
        (loadingTask t' = false /\ waits t' = None)
        \/ (waits t' = Some locationStr
            /\ truthy locationStr = true
            /\ cache w !! normalize locationStr = None
            /\ (loadingTask t' = true -> data w = None))
    | None => True
    end ->
    Shape w old new (emit (EvGeocode locationStr) w)
| shape_same old new :
    match old with
    | Some t => loadingTask t = false /\ waits t = None
    | None => True
    end ->
    match new with
    | Some t' => waits t' = None /\ (loadingTask t' = true -> data w = None)
    | None => True
    end ->
    Shape w old new w.

End WithHost.

End Async.

(** ** Vocabulary of the statements about overlapping calls *)

Module AsyncVocabulary.
Import Async MoreVocabulary.

Section WithHost.
Context `{Host}.

(** The key is not cached and its resolution has never run, or it is
    cached, its resolution has run once and no call is in flight for
    it. *)
Definition onceFor (k : list N) (c : Config) : Prop :=
  (cache (world c) !! k = None /\ runsFor k (trace (world c)) = 0%nat)
  \/ (is_Some (cache (world c) !! k)
      /\ runsFor k (trace (world c)) = 1%nat
      /\ noTask (waitsFor k) c).

End WithHost.

(** The data are absent and were never loaded, or present, loaded once,
    and no load is in flight. *)
Definition loadedOnce (c : Config) : Prop :=
  (data (world c) = None /\ loads (trace (world c)) = 0%nat)
  \/ (is_Some (data (world c))
      /\ loads (trace (world c)) = 1%nat
      /\ noTask loadingTask c).

End AsyncVocabulary.

(* ===================================================================== *)
(** * Part II: theorems                                                   *)
(* ===================================================================== *)

(** ** Lists *)

Section ListBridge.
Context {A B : Type}.

Lemma elem_of_map (f : A -> B) (l : list A) (y : B) :
  y ∈ List.map f l <-> exists x, y = f x /\ x ∈ l.
Proof.
  rewrite list_elem_of_In, in_map_iff. split.
  - intros (x & <- & Hx). exists x. by rewrite list_elem_of_In.
  - intros (x & -> & Hx). exists x. by rewrite <- list_elem_of_In.
Qed.

Lemma elem_of_bfilter (p : A -> bool) (l : list A) (x : A) :
  x ∈ List.filter p l <-> x ∈ l /\ p x = true.
Proof. by rewrite !list_elem_of_In, filter_In. Qed.

Lemma bfilter_snoc (p : A -> bool) (l : list A) (x : A) :
  List.filter p (l ++ [x]) = List.filter p l ++ (if p x then [x] else []).
Proof. rewrite List.filter_app. reflexivity. Qed.

Lemma bfilter_none (p : A -> bool) (l : list A) :
  (forall x, x ∈ l -> p x = false) -> List.filter p l = [].
Proof.
  induction l as [| x l IH]; intros Hall; [reflexivity |].
  cbn. rewrite (Hall x) by left. apply IH. intros y Hy. apply Hall. by right.
Qed.

End ListBridge.

(** ** Strings *)

Section StringFacts.
Implicit Types (s t : list N) (p : N -> bool).

Lemma dropWhile_elem p s c : c ∈ dropWhile p s -> c ∈ s.
Proof.
  induction s as [| x s IH]; cbn; [done |].
  destruct (p x); [| done]. intros Hc. right. by apply IH.
Qed.

Lemma dropWhile_head p s c t : dropWhile p s = c :: t -> p c = false.
Proof.
  induction s as [| x s IH]; cbn; [done |].
  destruct (p x) eqn:Hx; [exact IH |]. by intros [= <- _].
Qed.

Lemma dropWhile_all p s : dropWhile p s = [] <-> Forall (fun c => p c = true) s.
Proof.
  induction s as [| x s IH]; cbn.
  - split; [constructor | done].
  - destruct (p x) eqn:Hx.
    + rewrite IH. split; [by constructor | by inversion 1].
    + split; [done |]. inversion 1; congruence.
Qed.

Lemma dropWhile_stop p s c : p c = false -> dropWhile p (c :: s) = c :: s.
Proof. cbn. by intros ->. Qed.

(** The prefix removed by [dropWhile] lies in the class. *)
Lemma dropWhile_split p s :
  exists l, s = l ++ dropWhile p s /\ Forall (fun c => p c = true) l.
Proof.
  induction s as [| x s (l & Hs & Hl)]; cbn.
  - exists []. split; [done | constructor].
  - destruct (p x) eqn:Hx.
    + exists (x :: l). split; [cbn; by f_equal | by constructor].
    + exists []. split; [done | constructor].
Qed.

Lemma dropWhile_snoc p s c :
  dropWhile p (s ++ [c])
  = match dropWhile p s with
    | [] => if p c then [] else [c]
    | t => t ++ [c]
    end.
Proof.
  induction s as [| x s IH]; cbn; [done |].
  destruct (p x); [exact IH | done].
Qed.

Lemma trimEnd_nil : trimEnd [] = [].
Proof. reflexivity. Qed.

Lemma trimEnd_cons c s :
  trimEnd (c :: s)
  = match trimEnd s with
    | [] => if isWhiteSpace c then [] else [c]
    | t => c :: t
    end.
Proof.
  unfold trimEnd. cbn [rev]. rewrite dropWhile_snoc.
  destruct (dropWhile isWhiteSpace (rev s)) as [| y t]; cbn.
  - by destruct (isWhiteSpace c).
  - rewrite rev_app_distr. cbn. by destruct (rev t ++ [y]) eqn:E;
      [destruct (rev t); discriminate |].
Qed.

Lemma trimEnd_keep c s :
  isWhiteSpace c = false -> trimEnd (c :: s) = c :: trimEnd s.
Proof.
  intros Hc. rewrite trimEnd_cons, Hc. by destruct (trimEnd s).
Qed.

Lemma trimEnd_elem s c : c ∈ trimEnd s -> c ∈ s.
Proof.
  revert c. induction s as [| x s IH]; intros c; [done |].
  rewrite trimEnd_cons. destruct (trimEnd s) as [| y t].
  - destruct (isWhiteSpace x); [inversion 1 |].
    intros ->%list_elem_of_singleton. left.
  - intros [-> | Hc]%elem_of_cons; [left | right; by apply IH].
Qed.

Lemma trimEnd_idem s : trimEnd (trimEnd s) = trimEnd s.
Proof.
  induction s as [| x s IH]; [done |].
  rewrite trimEnd_cons. destruct (trimEnd s) as [| y t] eqn:E.
  - destruct (isWhiteSpace x) eqn:Hx; [done |].
    rewrite trimEnd_cons, trimEnd_nil, Hx. done.
  - rewrite trimEnd_cons, IH. done.
Qed.

(** The suffix removed by [trimEnd] is white space. *)
Lemma trimEnd_split s :
  exists r, s = trimEnd s ++ r /\ Forall (fun c => isWhiteSpace c = true) r.
Proof.
  induction s as [| x s (r & Hs & Hr)].
  - exists []. split; [done | constructor].
  - rewrite trimEnd_cons. destruct (trimEnd s) as [| y t].
    + cbn in Hs. subst r. destruct (isWhiteSpace x) eqn:Hx.
      * exists (x :: s). split; [done | by constructor].
      * exists s. split; [done | exact Hr].
    + exists r. split; [cbn; by f_equal | exact Hr].
Qed.

Lemma trimEnd_last s c t :
  trimEnd s = t ++ [c] -> isWhiteSpace c = false.
Proof.
  revert t. induction s as [| x s IH]; intros t.
  - rewrite trimEnd_nil. by destruct t.
  - rewrite trimEnd_cons. destruct (trimEnd s) as [| y u] eqn:E.
    + destruct (isWhiteSpace x) eqn:Hx; [by destruct t |].
      destruct t as [| z [| ? ?]]; [by intros [= <-] | done | done].
    + destruct t as [| z t]; [done |]. intros [= <- Ht]. by apply (IH t).
Qed.

Lemma trim_nil : trim [] = [].
Proof. reflexivity. Qed.

Lemma trim_elem s c : c ∈ trim s -> c ∈ s.
Proof.
  unfold trim, trimStart. intros Hc.
  by apply trimEnd_elem, dropWhile_elem in Hc.
Qed.

Lemma trim_Forall (P : N -> Prop) s : Forall P s -> Forall P (trim s).
Proof.
  rewrite !Forall_forall. intros Hs c Hc. by apply Hs, trim_elem.
Qed.

Lemma trim_head s c t : trim s = c :: t -> isWhiteSpace c = false.
Proof.
  unfold trim, trimStart.
  destruct (dropWhile isWhiteSpace s) as [| x u] eqn:E; [done |].
  pose proof (dropWhile_head _ _ _ _ E) as Hx.
  rewrite trimEnd_keep by exact Hx. by intros [= <- _].
Qed.

Lemma trim_last s c t : trim s = t ++ [c] -> isWhiteSpace c = false.
Proof. apply trimEnd_last. Qed.

Lemma trim_idem s : trim (trim s) = trim s.
Proof.
  destruct (trim s) as [| c t] eqn:E; [done |].
  pose proof (trim_head _ _ _ E) as Hc.
  unfold trim at 1. unfold trimStart. rewrite dropWhile_stop by exact Hc.
  rewrite <- E. unfold trim. apply trimEnd_idem.
Qed.

(** [trim] removes a prefix and a suffix of white space and nothing else. *)
Lemma trim_split s :
  exists l r,
    s = l ++ trim s ++ r
    /\ Forall (fun c => isWhiteSpace c = true) l
    /\ Forall (fun c => isWhiteSpace c = true) r.
Proof.
  destruct (dropWhile_split isWhiteSpace s) as (l & Hs & Hl).
  destruct (trimEnd_split (dropWhile isWhiteSpace s)) as (r & Hd & Hr).
  exists l, r. split; [| done]. unfold trim, trimStart.
  rewrite <- Hd. exact Hs.
Qed.

Lemma trim_empty s :
  trim s = [] <-> Forall (fun c => isWhiteSpace c = true) s.
Proof.
  split.
  - intros He. destruct (trim_split s) as (l & r & Hs & Hl & Hr).
    rewrite He in Hs. rewrite Hs. cbn. by apply Forall_app.
  - intros Hs. unfold trim, trimStart.
    by rewrite (proj2 (dropWhile_all _ _) Hs).
Qed.

Lemma trim_fixed s :
  (forall c t, s = c :: t -> isWhiteSpace c = false) ->
  (forall c t, s = t ++ [c] -> isWhiteSpace c = false) ->
  trim s = s.
Proof.
  intros Hh Hl. unfold trim, trimStart.
  destruct s as [| c t]; [done |].
  rewrite dropWhile_stop by (by eapply Hh).
  destruct (trimEnd_split (c :: t)) as (r & Hs & Hr).
  destruct r as [| x r _] using rev_ind; [by rewrite app_nil_r in Hs |].
  exfalso. rewrite app_assoc in Hs.
  apply Forall_app in Hr as [_ Hx]. inversion Hx; subst.
  specialize (Hl _ _ Hs). congruence.
Qed.

Lemma truthy_true s : truthy s = true <-> s <> [].
Proof. by destruct s. Qed.

Lemma truthy_false s : truthy s = false <-> s = [].
Proof. by destruct s. Qed.

End StringFacts.

(** ** The matcher *)

Section MatcherFacts.
Implicit Types (r : regex) (s t : list N) (p : N -> bool) (b : bool).

Lemma matchAt_star p r b s :
  matchAt (Star p :: r) b s
  = match s with
    | c :: s' =>
        if p c then
          match matchAt (Star p :: r) false s' with
          | Some n => Some (S n)
          | None => matchAt r b s
          end
        else matchAt r b s
    | [] => matchAt r b []
    end.
Proof. destruct s; reflexivity. Qed.

Lemma matchAt_cls p r b s :
  matchAt (Cls p :: r) b s
  = match s with
    | c :: s' => if p c then S <$> matchAt r false s' else None
    | [] => None
    end.
Proof. reflexivity. Qed.

Lemma matchAt_opt p r b s :
  matchAt (Opt p :: r) b s
  = match s with
    | c :: s' =>
        if p c then
          match matchAt r false s' with
          | Some n => Some (S n)
          | None => matchAt r b s
          end
        else matchAt r b s
    | [] => matchAt r b []
    end.
Proof. destruct s; reflexivity. Qed.

Lemma matchAt_bol r b s :
  matchAt (Bol :: r) b s = if b then matchAt r b s else None.
Proof. reflexivity. Qed.

Lemma matchAt_eol r b s :
  matchAt (Eol :: r) b s = match s with [] => matchAt r b s | _ => None end.
Proof. reflexivity. Qed.

(** Every answer of the matcher is a match of the pattern. *)
Lemma matchAt_sound r b s n : matchAt r b s = Some n -> matches r b s n.
Proof.
  revert b s n. induction r as [| a r IH]; intros b s n.
  - intros [= <-]. constructor.
  - destruct a as [p | p | p | |].
    + rewrite matchAt_cls. destruct s as [| c s]; [done |].
      destruct (p c) eqn:Hc; [| done].
      destruct (matchAt r false s) as [m |] eqn:Hm; [| done].
      intros [= <-]. constructor; [exact Hc | by apply IH].
    + revert b n. induction s as [| c s IHs]; intros b n;
        rewrite matchAt_star.
      * intros Hm. apply matches_star_stop, IH, Hm.
      * destruct (p c) eqn:Hc.
        -- destruct (matchAt (Star p :: r) false s) as [m |] eqn:Hm.
           ++ intros [= <-]. apply matches_star_step; [exact Hc |].
              by apply IHs.
           ++ intros Hr. apply matches_star_stop, IH, Hr.
        -- intros Hr. apply matches_star_stop, IH, Hr.
    + rewrite matchAt_opt. destruct s as [| c s].
      * intros Hm. apply matches_opt_skip, IH, Hm.
      * destruct (p c) eqn:Hc.
        -- destruct (matchAt r false s) as [m |] eqn:Hm.
           ++ intros [= <-]. apply matches_opt_take; [exact Hc |].
              by apply IH.
           ++ intros Hr. apply matches_opt_skip, IH, Hr.
        -- intros Hr. apply matches_opt_skip, IH, Hr.
    + rewrite matchAt_bol. destruct b; [| done].
      intros Hm. apply matches_bol, IH, Hm.
    + rewrite matchAt_eol. destruct s; [| done].
      intros Hm. apply matches_eol, IH, Hm.
Qed.

(** Where the pattern can match, the matcher finds a match. *)
Lemma matchAt_complete r b s n : matches r b s n -> is_Some (matchAt r b s).
Proof.
  induction 1 as [b s | p r b c s n Hc _ [m Hm] | p r b s n _ [m Hm]
                  | p r b c s n Hc _ [m Hm] | p r b s n _ [m Hm]
                  | p r b c s n Hc _ [m Hm] | r s n _ [m Hm]
                  | r b n _ [m Hm]].
  - by eexists.
  - rewrite matchAt_cls, Hc, Hm. by eexists.
  - rewrite matchAt_star. destruct s as [| c s]; [by eexists |].
    destruct (p c); [| by eexists].
    destruct (matchAt (Star p :: r) false s); by eexists.
  - rewrite matchAt_star, Hc, Hm. by eexists.
  - rewrite matchAt_opt. destruct s as [| c s]; [by eexists |].
    destruct (p c); [| by eexists].
    destruct (matchAt r false s); by eexists.
  - rewrite matchAt_opt, Hc, Hm. by eexists.
  - rewrite matchAt_bol. by eexists.
  - rewrite matchAt_eol. by eexists.
Qed.

Lemma matchAt_None r b s :
  matchAt r b s = None <-> forall n, ~ matches r b s n.
Proof.
  split.
  - intros Hn n Hm. apply matchAt_complete in Hm as [m Hm]. congruence.
  - intros Hno. destruct (matchAt r b s) as [n |] eqn:Hm; [| done].
    exfalso. by apply (Hno n), matchAt_sound.
Qed.

Lemma takeWhile_Forall p s : Forall (fun c => p c = true) (takeWhile p s).
Proof.
  induction s as [| c s IH]; cbn; [constructor |].
  destruct (p c) eqn:Hc; by constructor.
Qed.

Lemma takeWhile_length p s : length (takeWhile p s) <= length s.
Proof.
  induction s as [| c s IH]; cbn; [lia |]. destruct (p c); cbn; lia.
Qed.

Lemma takeWhile_none p s :
  Forall (fun c => p c = false) s -> takeWhile p s = [] .
Proof. destruct 1 as [| c s Hc _]; cbn; [done | by rewrite Hc]. Qed.

(** A trailing [x*] takes the longest run. *)
Lemma matchAt_star_end p b s :
  matchAt [Star p] b s = Some (length (takeWhile p s)).
Proof.
  revert b. induction s as [| c s IH]; intros b; rewrite matchAt_star;
    [done |].
  cbn [takeWhile]. destruct (p c); [| done]. by rewrite IH.
Qed.

(** [x+] at the end of a pattern. *)
Lemma matchAt_plus_end p b s :
  matchAt [Cls p; Star p] b s
  = match s with
    | c :: s' => if p c then Some (S (length (takeWhile p s'))) else None
    | [] => None
    end.
Proof.
  rewrite matchAt_cls. destruct s as [| c s]; [done |].
  destruct (p c); [| done]. by rewrite matchAt_star_end.
Qed.

(** Greedy success: when the rest of the pattern matches right after a run
    of the class, the star takes the whole run. *)
Lemma matchAt_star_run p r b l t n :
  Forall (fun c => p c = true) l ->
  matchAt r (match l with [] => b | _ => false end) t = Some n ->
  (forall c t', t = c :: t' -> p c = false) ->
  matchAt (Star p :: r) b (l ++ t) = Some (length l + n).
Proof.
  intros Hl. revert b. induction Hl as [| c l Hc _ IH]; intros b Hr Ht.
  - cbn [app length]. rewrite matchAt_star. destruct t as [| c t]; [done |].
    by rewrite (Ht c t).
  - cbn [app length]. rewrite matchAt_star, Hc.
    rewrite (IH false); [done | | done].
    by destruct l.
Qed.

(** Removing a character class. *)
Lemma replace_from_cls p b s :
  replace_from [Cls p] [] b 0 s = List.filter (fun c => negb (p c)) s.
Proof.
  revert b. induction s as [| c s IH]; intros b; [done |].
  cbn [replace_from List.filter]. rewrite matchAt_cls.
  destruct (p c); cbn; by rewrite IH.
Qed.

Lemma replace_cls p s :
  replace [Cls p] [] s = List.filter (fun c => negb (p c)) s.
Proof. apply replace_from_cls. Qed.

(** A pattern that matches nowhere leaves the string alone. *)
Lemma replace_from_quiet r rep b s :
  matchAt r b s = None ->
  (forall l c t, s = l ++ c :: t -> matchAt r false t = None) ->
  replace_from r rep b 0 s = s.
Proof.
  revert b. induction s as [| c s IH]; intros b Hhere Hlater.
  - cbn. by rewrite Hhere.
  - cbn [replace_from]. rewrite Hhere. f_equal. apply IH.
    + by apply (Hlater [] c s).
    + intros l x t ->. by apply (Hlater (c :: l) x t).
Qed.

End MatcherFacts.

(** The engine on small inputs, with the results of the same calls in
    ECMAScript: replacing [/a*/g] by a hyphen in "aaa" gives two hyphens,
    replacing [/x*/g] by a hyphen in "abc" gives "-a-b-c-", splitting "abc"
    on [/x*/] gives its three letters, splitting "-a,-b-" on the
    delimiters gives an empty fragment, "a", "b" and an empty fragment,
    and splitting the empty string gives one empty fragment. *)
Example engine_examples :
  replace [Star (N.eqb 97)] (js "-") (js "aaa") = js "--"
  /\ replace [Star (N.eqb 120)] (js "-") (js "abc") = js "-a-b-c-"
  /\ replace [Cls isWhiteSpace; Star isWhiteSpace] (js " ") (js "a  b   c")
     = js "a b c"
  /\ split [Star (N.eqb 120)] (js "abc") = [js "a"; js "b"; js "c"]
  /\ split [Cls isDelimiter; Star isDelimiter] (js "-a,-b-")
     = [[]; js "a"; js "b"; []]
  /\ split [Cls isDelimiter; Star isDelimiter] [] = [[]].
Proof. vm_compute. repeat split; reflexivity. Qed.

(** ** Splitting on delimiters *)

Section SplitFacts.
Implicit Types (s t cur : list N) (b : bool).

Lemma take_takeWhile (p : N -> bool) s :
  take (length (takeWhile p s)) s = takeWhile p s.
Proof.
  induction s as [| c s IH]; cbn; [done |].
  destruct (p c); cbn; [by rewrite IH | done].
Qed.

Lemma split_from_concat b k cur s :
  Forall (fun c => isDelimiter c = true) (take k s) ->
  concat (split_from delimiters b k cur s)
  = cur ++ List.filter (fun c => negb (isDelimiter c)) s.
Proof.
  revert b k cur. induction s as [| c s IH]; intros b k cur Hk.
  - cbn. by rewrite !app_nil_r.
  - cbn [split_from]. destruct k as [| k].
    + unfold delimiters at 1. rewrite matchAt_plus_end.
      cbn [List.filter]. destruct (isDelimiter c) eqn:Hc; cbn [negb].
      * cbn [concat]. rewrite IH; [done |].
        rewrite take_takeWhile. apply takeWhile_Forall.
      * rewrite IH by (cbn; constructor). by rewrite <- app_assoc.
    + cbn in Hk. inversion Hk as [| ? ? Hc Hk']; subst.
      rewrite IH by exact Hk'. cbn [List.filter]. by rewrite Hc.
Qed.

(** The fragments are what is left of the string once the delimiters are
    taken out. *)
Lemma split_concat s :
  concat (split delimiters s)
  = List.filter (fun c => negb (isDelimiter c)) s.
Proof.
  destruct s as [| c s]; [done |].
  unfold split. rewrite split_from_concat by (cbn; constructor). done.
Qed.

Lemma split_from_plain b cur s :
  Forall (fun c => isDelimiter c = false) s ->
  split_from delimiters b 0 cur s = [cur ++ s].
Proof.
  intros Hs. revert b cur. induction Hs as [| c s Hc _ IH]; intros b cur.
  - cbn. by rewrite app_nil_r.
  - cbn [split_from]. unfold delimiters at 1.
    rewrite matchAt_plus_end, Hc, IH, <- app_assoc. done.
Qed.

(** Without a delimiter the string is the only fragment. *)
Lemma split_plain s :
  Forall (fun c => isDelimiter c = false) s -> split delimiters s = [s].
Proof.
  intros Hs. destruct s as [| c s]; [done |].
  unfold split. by rewrite split_from_plain.
Qed.

Lemma parts_of_fragments_nil (l : list (list N)) :
  List.filter truthy (List.map trim l) = []
  <-> Forall (fun c => isWhiteSpace c = true) (concat l).
Proof.
  induction l as [| x l IH]; cbn.
  - split; [constructor | done].
  - rewrite Forall_app, <- IH, <- trim_empty.
    destruct (trim x) eqn:E; cbn; split; try done; [by intros [? ?] | ].
    by intros [? ?].
Qed.

Lemma partsOf_nil str :
  partsOf str = []
  <-> Forall (fun c => isDelimiter c || isWhiteSpace c = true) str.
Proof.
  unfold partsOf. rewrite parts_of_fragments_nil, split_concat.
  rewrite !Forall_forall. split.
  - intros Hf c Hc. destruct (isDelimiter c) eqn:Hd; [done |].
    apply Hf, elem_of_bfilter. by rewrite Hd.
  - intros Hs c [Hc Hd]%elem_of_bfilter. specialize (Hs c Hc).
    destruct (isDelimiter c); [done | exact Hs].
Qed.

Lemma partsOf_truthy str : Forall (fun part => part <> []) (partsOf str).
Proof.
  apply Forall_forall. intros part [_ Hp]%elem_of_bfilter.
  by apply truthy_true.
Qed.

End SplitFacts.

(** ** Normalisation *)

Section Normalize.
Context `{Host}.

Lemma bfilter_all {A} (p : A -> bool) (l : list A) :
  Forall (fun x => p x = true) l -> List.filter p l = l.
Proof.
  induction 1 as [| x l Hx _ IH]; cbn; [done |]. by rewrite Hx, IH.
Qed.

Lemma plain_not_combining c :
  isLowerAlnumSpace c = true -> isCombining c = false.
Proof.
  unfold isLowerAlnumSpace, isWhiteSpace, isCombining, in_range.
  intros Hc. apply andb_false_iff.
  rewrite N.leb_gt, N.leb_gt.
  repeat (apply orb_prop in Hc as [Hc | Hc]);
    repeat match goal with
           | H : (_ && _)%bool = true |- _ => apply andb_prop in H as [? ?]
           | H : (_ <=? _)%N = true |- _ => apply N.leb_le in H
           | H : (_ =? _)%N = true |- _ => apply N.eqb_eq in H
           end; lia.
Qed.

(** The pipeline of [normalize], with the two replacements read as
    filters. *)
Lemma normalize_pipeline (str : list N) :
  str <> [] ->
  normalize str
  = trim (List.filter isLowerAlnumSpace
            (List.filter (fun c => negb (isCombining c))
               (normalizeNFD (toLowerCase str)))).
Proof.
  intros Hs. unfold normalize.
  rewrite (proj2 (truthy_true str) Hs). cbn [negb].
  rewrite !replace_cls. f_equal. apply filter_ext. intros c.
  by rewrite negb_involutive.
Qed.

Lemma normalize_nil : normalize [] = [].
Proof. reflexivity. Qed.

Lemma normalize_elem (str : list N) c :
  c ∈ normalize str ->
  isLowerAlnumSpace c = true /\ c ∈ normalizeNFD (toLowerCase str).
Proof.
  destruct str as [| x str]; [inversion 1 |].
  rewrite normalize_pipeline by done.
  intros Hc%trim_elem. apply elem_of_bfilter in Hc as [Hc Hk].
  apply elem_of_bfilter in Hc as [Hc _]. done.
Qed.

Lemma normalize_plain (str : list N) :
  Forall (fun c => isLowerAlnumSpace c = true) (normalize str).
Proof.
  apply Forall_forall. intros c Hc. by apply normalize_elem in Hc as [Hk _].
Qed.

Lemma normalize_trimmed (str : list N) : trim (normalize str) = normalize str.
Proof.
  destruct str as [| x str]; [done |].
  rewrite normalize_pipeline by done. apply trim_idem.
Qed.

(** C4 (amended): [normalize] is total; it returns the empty string for the
    empty string; on any other input it lower-cases, applies NFD, removes
    the combining marks U+0300 to U+036F and every character other than
    [a-z], [0-9] and white space, and trims.  The result consists of
    lower-case letters, digits and white space only and neither starts nor
    ends with white space; nothing is removed between its first and last
    character, so that inner white space is kept as it is, neither
    collapsed nor restricted to the space character. *)
Theorem normalize_spec (str : list N) :
  normalize [] = []
  /\ (str <> [] ->
      normalize str
      = trim (List.filter isLowerAlnumSpace
                (List.filter (fun c => negb (isCombining c))
                   (normalizeNFD (toLowerCase str)))))
  /\ Forall (fun c => isLowerAlnumSpace c = true) (normalize str)
  /\ (forall c t, normalize str = c :: t -> isWhiteSpace c = false)
  /\ (forall c t, normalize str = t ++ [c] -> isWhiteSpace c = false)
  /\ (str <> [] ->
      exists l r,
        List.filter isLowerAlnumSpace
          (List.filter (fun c => negb (isCombining c))
             (normalizeNFD (toLowerCase str)))
        = l ++ normalize str ++ r
        /\ Forall (fun c => isWhiteSpace c = true) l
        /\ Forall (fun c => isWhiteSpace c = true) r).
Proof.
  split; [reflexivity |]. split; [apply normalize_pipeline |].
  split; [apply normalize_plain |].
  split; [| split].
  - intros c t Hn. rewrite <- normalize_trimmed in Hn.
    by apply trim_head in Hn.
  - intros c t Hn. rewrite <- normalize_trimmed in Hn.
    by apply trim_last in Hn.
  - intros Hs. rewrite normalize_pipeline by exact Hs. apply trim_split.
Qed.

(** C10: [normalize] is idempotent, for every host whose lower-casing and
    NFD leave the output of [normalize] alone. *)
Theorem normalize_idempotent (str : list N) :
  lowerFixesPlain -> nfdFixesPlain ->
  normalize (normalize str) = normalize str.
Proof.
  intros Hlow Hnfd.
  destruct (normalize str) as [| c t] eqn:E; [reflexivity |].
  rewrite <- E. rewrite normalize_pipeline by (rewrite E; done).
  pose proof (normalize_plain str) as Hplain.
  rewrite (Hlow _ Hplain).
  rewrite (Hnfd (toLowerCase str) (normalize str)).
  - rewrite (bfilter_all (fun c => negb (isCombining c))).
    + rewrite bfilter_all by exact Hplain. apply normalize_trimmed.
    + eapply Forall_impl; [exact Hplain |]. cbn. intros x Hx.
      by rewrite plain_not_combining.
  - intros x Hx. apply normalize_elem in Hx. tauto.
Qed.

End Normalize.

(** The Latin-1 host satisfies the two assumptions. *)
Section Latin1Facts.

Ltac plain_cases H :=
  unfold isLowerAlnumSpace, isWhiteSpace, in_range in H;
  repeat (apply orb_prop in H as [H | H]);
  repeat match goal with
         | H : (_ && _)%bool = true |- _ => apply andb_prop in H as [? ?]
         | H : (_ <=? _)%N = true |- _ => apply N.leb_le in H
         | H : (_ =? _)%N = true |- _ => apply N.eqb_eq in H
         end.

Lemma in_range_false lo hi c :
  ~ (lo <= c <= hi)%N -> in_range lo hi c = false.
Proof.
  intros Hout. unfold in_range. apply andb_false_iff.
  rewrite !N.leb_gt. lia.
Qed.

Lemma plain_outside_letters c :
  isLowerAlnumSpace c = true ->
  ~ (65 <= c <= 90)%N /\ ~ (192 <= c <= 255)%N.
Proof. intros Hc. plain_cases Hc; lia. Qed.

Lemma lowerUnit_plain c : isLowerAlnumSpace c = true -> lowerUnit c = c.
Proof.
  intros [H1 H2]%plain_outside_letters. unfold lowerUnit.
  rewrite !in_range_false by lia. done.
Qed.

Lemma decomposeUnit_plain c :
  isLowerAlnumSpace c = true -> decomposeUnit c = [c].
Proof.
  intros [H1 H2]%plain_outside_letters. unfold decomposeUnit, decomposeLower.
  rewrite !in_range_false by lia. done.
Qed.

Lemma latin1_lowerFixesPlain : @lowerFixesPlain latin1Host.
Proof.
  intros s Hs. cbn. induction Hs as [| c s Hc _ IH]; cbn; [done |].
  by rewrite lowerUnit_plain, IH.
Qed.

Lemma latin1_nfdFixesPlain : @nfdFixesPlain latin1Host.
Proof.
  intros u s Hs. cbn.
  induction s as [| c s IH]; cbn; [done |].
  rewrite decomposeUnit_plain by (apply Hs; left). cbn. f_equal.
  apply IH. intros x Hx. apply Hs. by right.
Qed.

End Latin1Facts.

Section NormalizeExamples.
#[local] Existing Instance latin1Host.

Lemma normalize_idempotent_witness :
  normalize (normalize Sample.quebecCity) = normalize Sample.quebecCity.
Proof.
  apply (normalize_idempotent Sample.quebecCity
           latin1_lowerFixesPlain latin1_nfdFixesPlain).
Defined.

Example normalize_quebec : normalize Sample.quebecCity = js "quebec  city".
Proof. vm_compute. reflexivity. Qed.

Lemma normalize_spec_witness :
  exists l r,
    List.filter isLowerAlnumSpace
      (List.filter (fun c => negb (isCombining c))
         (normalizeNFD (toLowerCase Sample.quebecCity)))
    = l ++ normalize Sample.quebecCity ++ r
    /\ Forall (fun c => isWhiteSpace c = true) l
    /\ Forall (fun c => isWhiteSpace c = true) r.
Proof.
  destruct (normalize_spec Sample.quebecCity) as (_ & _ & _ & _ & _ & Hseg).
  apply Hseg. discriminate.
Defined.

(** Two spaces stay two spaces, and a tab stays a tab: inner white space
    is neither collapsed nor reduced to the space character. *)
Lemma normalize_keeps_inner_whitespace :
  normalize (js "a  b") = js "a  b"
  /\ normalize (js "a  b") <> js "a b"
  /\ normalize [97; 9; 98]%N = [97; 9; 98]%N.
Proof. vm_compute. repeat split; [discriminate]. Qed.

End NormalizeExamples.

(** ** Parsing *)

Section Parse.
Context `{Host}.

Lemma cleaned_unfold (locationStr : list N) :
  cleaned locationStr
  = match
      trim (replace [Cls isWhiteSpace; Star isWhiteSpace] (js " ")
              (stripPhrases (trim locationStr)))
    with
    | [] => trim locationStr
    | str => str
    end.
Proof.
  unfold cleaned.
  by destruct (trim (replace _ _ (stripPhrases (trim locationStr)))).
Qed.

Lemma cleaned_trimmed (locationStr : list N) :
  trim (cleaned locationStr) = cleaned locationStr.
Proof.
  rewrite cleaned_unfold.
  destruct (trim (replace _ _ (stripPhrases (trim locationStr)))) eqn:E.
  - apply trim_idem.
  - rewrite <- E. apply trim_idem.
Qed.

Lemma cleaned_nil (locationStr : list N) :
  cleaned locationStr = [] -> trim locationStr = [].
Proof.
  rewrite cleaned_unfold.
  by destruct (trim (replace _ _ (stripPhrases (trim locationStr)))).
Qed.

Lemma parseLocation_unfold (locationStr : list N) :
  parseLocation locationStr
  = match locationStr, partsOf (cleaned locationStr) with
    | [], _ | _, [] => None
    | _, ps => Some {| original := locationStr; parts := ps |}
    end.
Proof.
  unfold parseLocation. destruct locationStr as [| c s]; [done |].
  cbn [truthy negb].
  change (List.filter truthy
            (List.map trim
               (split [Cls isDelimiter; Star isDelimiter]
                  (cleaned (c :: s)))))
    with (partsOf (cleaned (c :: s))).
  by destruct (partsOf (cleaned (c :: s))).
Qed.

(** C5 (amended): [parseLocation] returns nothing exactly when the input is
    empty or the cleaned string holds only commas, hyphens and white space;
    whenever it returns, it returns the input and at least one part, and no
    part is empty.  The cleaned string is the whole of the only part when
    it contains no delimiter, and it is the trimmed input whenever
    stripping the phrases leaves nothing. *)
Theorem parseLocation_spec (locationStr : list N) :
  (parseLocation locationStr = None
   <-> locationStr = []
       \/ Forall (fun c => isDelimiter c || isWhiteSpace c = true)
            (cleaned locationStr))
  /\ (forall parsed,
        parseLocation locationStr = Some parsed ->
        original parsed = locationStr
        /\ parts parsed = partsOf (cleaned locationStr)
        /\ parts parsed <> []
        /\ Forall (fun part => part <> []) (parts parsed))
  /\ (trim locationStr <> [] ->
      Forall (fun c => isDelimiter c = false) (cleaned locationStr) ->
      parseLocation locationStr
      = Some {| original := locationStr;
                parts := [cleaned locationStr] |})
  /\ (trim (replace [Cls isWhiteSpace; Star isWhiteSpace] (js " ")
              (stripPhrases (trim locationStr))) = [] ->
      cleaned locationStr = trim locationStr).
Proof.
  rewrite parseLocation_unfold. split; [| split; [| split]].
  - destruct locationStr as [| c s]; [tauto |].
    rewrite <- partsOf_nil.
    destruct (partsOf (cleaned (c :: s))); split; try done.
    + by right.
    + by intros [? | ?].
  - intros parsed Hp. destruct locationStr as [| c s]; [done |].
    pose proof (partsOf_truthy (cleaned (c :: s))) as Ht.
    destruct (partsOf (cleaned (c :: s))) as [| part ps]; [done |].
    injection Hp as <-. cbn. done.
  - intros Hne Hplain.
    assert (Hc : cleaned locationStr <> [])
      by (intros Hc; by apply cleaned_nil in Hc).
    assert (Hp : partsOf (cleaned locationStr) = [cleaned locationStr]).
    { unfold partsOf. rewrite split_plain by exact Hplain.
      cbn [List.map List.filter]. rewrite cleaned_trimmed.
      by rewrite (proj2 (truthy_true _) Hc). }
    destruct locationStr as [| c s]; [done |]. by rewrite Hp.
  - intros He. rewrite cleaned_unfold, He. done.
Qed.

End Parse.

Section ParseExamples.
#[local] Existing Instance latin1Host.

Lemma parseLocation_spec_witness :
  parseLocation (js " New York ")
  = Some {| original := js " New York "; parts := [js "New York"] |}.
Proof.
  destruct (parseLocation_spec (js " New York ")) as (_ & _ & Hone & _).
  apply Hone; [vm_compute; discriminate |].
  vm_compute. repeat constructor.
Defined.

(** A lone hyphen, and a qualifier followed by a hyphen, are not empty
    but yield nothing. *)
Lemma parseLocation_none_nonempty :
  js "-" <> [] /\ parseLocation (js "-") = None
  /\ js "office-" <> [] /\ parseLocation (js "office-") = None.
Proof. vm_compute. repeat split; discriminate. Qed.

Example parseLocation_examples :
  List.map (fun s => parts <$> parseLocation (js s))
    ["California - Work From Home"; "Remote - United Kingdom";
     "Remote"; "New York, NY - USA"; "UK"]%string
  = [Some [js "California"]; Some [js "United Kingdom"];
     Some [js "Remote"]; Some [js "New York"; js "NY"; js "USA"];
     Some [js "UK"]].
Proof. vm_compute. reflexivity. Qed.

End ParseExamples.

(** ** The phrase-removal rules *)

Section Rules.
Implicit Types (r : regex) (s t k : list N) (b : bool).

Lemma removePatterns_rules :
  removePatterns
  = List.map phraseRule phrases ++ [remotePrefixRule; remoteSuffixRule].
Proof. reflexivity. Qed.

Lemma letter_class l c :
  in_range 97 122 l = true -> ci l c = true ->
  isWhiteSpace c = false /\ isHyphen c = false.
Proof.
  unfold in_range, ci, isWhiteSpace, isHyphen, in_range.
  intros [Hlo%N.leb_le Hhi%N.leb_le]%andb_prop Hc.
  assert (c = l \/ c = (l - 32)%N) as Hcl.
  { apply orb_prop in Hc as [Hc | Hc]; apply N.eqb_eq in Hc; auto. }
  split.
  - repeat (apply orb_false_intro); try apply andb_false_iff;
      rewrite ?N.leb_gt, ?N.eqb_neq; lia.
  - apply N.eqb_neq. lia.
Qed.

Lemma wsRun_takeWhile l t :
  wsRun l -> (forall c t', t = c :: t' -> isWhiteSpace c = false) ->
  takeWhile isWhiteSpace (l ++ t) = l.
Proof.
  intros Hl Ht. induction Hl as [| c l Hc _ IH]; cbn.
  - destruct t as [| c t']; [done |]. cbn. by rewrite (Ht c t').
  - by rewrite Hc, IH.
Qed.

(** A run of white space in front of the rest of a pattern. *)
Lemma matchAt_ws_run r b l t n :
  wsRun l ->
  (forall c t', t = c :: t' -> isWhiteSpace c = false) ->
  (forall b', matchAt r b' t = Some n) ->
  matchAt (s_star :: r) b (l ++ t) = Some (length l + n).
Proof. intros Hl Ht Hr. by apply matchAt_star_run. Qed.

(** A spelled word in front of the rest of a pattern. *)
Lemma matchAt_spelled (w : list N) r b k t n :
  Forall2 (fun l c => ci l c = true) w k ->
  (forall b', matchAt r b' t = Some n) ->
  matchAt (List.map (fun l => Cls (ci l)) w ++ r) b (k ++ t)
  = Some (length k + n).
Proof.
  intros Hk Hr. revert b.
  induction Hk as [| l c w k Hc _ IH]; intros b; cbn [List.map app length].
  - apply Hr.
  - rewrite matchAt_cls, Hc, IH. done.
Qed.

Lemma spelled_head (w : string) k :
  lowerWord w -> spelled w k ->
  exists c k', k = c :: k' /\ isWhiteSpace c = false /\ isHyphen c = false.
Proof.
  intros [Hne Hlow] Hk. unfold spelled in Hk.
  destruct Hk as [| l c w' k' Hc _]; [done |].
  inversion Hlow as [| ? ? Hl _]; subst.
  destruct (letter_class l c Hl Hc). eauto.
Qed.

(** [\s*-?\s*] in front of the rest of a pattern that starts with a
    letter. *)
Lemma matchAt_gap r b gap t n :
  isGap gap ->
  (exists c t', t = c :: t' /\ isWhiteSpace c = false
                /\ isHyphen c = false) ->
  (forall b', matchAt r b' t = Some n) ->
  matchAt ([s_star; hy_opt; s_star] ++ r) b (gap ++ t)
  = Some (length gap + n).
Proof.
  intros Hgap (c & t' & -> & Hws & Hhy) Hr.
  assert (Hrest : forall b', matchAt (hy_opt :: s_star :: r) b' (c :: t')
                             = Some n).
  { intros b'. unfold hy_opt. rewrite matchAt_opt, Hhy.
    unfold s_star. rewrite matchAt_star, Hws. apply Hr. }
  destruct Hgap as [l Hl | l1 l2 Hl1 Hl2]; cbn [app].
  - apply matchAt_ws_run; [exact Hl | by intros ? ? [= <- _] | exact Hrest].
  - rewrite <- app_assoc. cbn [app]. rewrite length_app. cbn [length].
    replace (length l1 + S (length l2) + n)%nat
      with (length l1 + S (length l2 + n))%nat by lia.
    apply matchAt_ws_run; [exact Hl1 | by intros ? ? [= <- _] |].
    intros b'. unfold hy_opt. rewrite matchAt_opt.
    assert (Hh : isHyphen 45 = true) by reflexivity. rewrite Hh.
    rewrite (matchAt_ws_run r false l2 (c :: t') n);
      [done | exact Hl2 | by intros ? ? [= <- _] | exact Hr].
Qed.

(** The words of a phrase, each followed by [\s*]. *)
Lemma matchAt_words (words : list string) b K rest :
  words <> [] -> Forall lowerWord words -> spelledPhrase words K ->
  matchAt (concat (List.map (fun w => lit w ++ [s_star]) words)) b
    (K ++ rest)
  = Some (length K + length (takeWhile isWhiteSpace rest)).
Proof.
  intros Hne Hlow. revert b K.
  induction words as [| w [| w' words] IH]; intros b K HK; [done | |].
  - cbn [List.map concat]. rewrite app_nil_r. cbn [spelledPhrase] in HK.
    unfold lit. apply matchAt_spelled; [exact HK |].
    intros b'. apply matchAt_star_end.
  - destruct HK as (k & g & K' & -> & Hk & Hg & HK').
    inversion Hlow as [| ? ? _ Hlow']; subst.
    assert (Hhead : exists c t', K' = c :: t' /\ isWhiteSpace c = false).
    { destruct words as [| w'' words].
      - cbn in HK'. inversion Hlow' as [| ? ? Hw' _]; subst.
        destruct (spelled_head _ _ Hw' HK') as (c & t' & -> & ? & _). eauto.
      - destruct HK' as (k' & g' & K'' & -> & Hk' & _).
        inversion Hlow' as [| ? ? Hw' _]; subst.
        destruct (spelled_head _ _ Hw' Hk') as (c & t' & -> & ? & _).
        cbn. eauto. }
    change (concat (List.map (fun w => lit w ++ [s_star]) (w :: w' :: words)))
      with ((lit w ++ [s_star])
              ++ concat (List.map (fun w => lit w ++ [s_star])
                           (w' :: words))).
    rewrite <- !app_assoc. cbn [app].
    unfold lit at 1.
    rewrite (matchAt_spelled _ _ _ _ _
               (length g + (length K'
                            + length (takeWhile isWhiteSpace rest))))
      by (first [exact Hk |
                 intros b'; unfold s_star;
                 destruct Hhead as (c & t' & -> & Hc);
                 apply matchAt_ws_run;
                 [exact Hg | by intros ? ? [= <- _] |];
                 intros b''; by apply IH]).
    rewrite !length_app. f_equal. lia.
Qed.

End Rules.

Section RuleMatches.
Implicit Types (r : regex) (s t k : list N) (b : bool).

Lemma phrases_lower (words : list string) :
  words ∈ phrases -> words <> [] /\ Forall lowerWord words.
Proof.
  unfold phrases. intros Hin.
  repeat (apply elem_of_cons in Hin as [-> | Hin]);
    [.. | by apply elem_of_nil in Hin];
    (split; [done |]);
    repeat constructor; try discriminate; vm_compute; repeat constructor.
Qed.

Lemma spelledPhrase_head (words : list string) K :
  words <> [] -> Forall lowerWord words -> spelledPhrase words K ->
  exists c t, K = c :: t /\ isWhiteSpace c = false /\ isHyphen c = false.
Proof.
  intros Hne Hlow HK. destruct words as [| w [| w' words]]; [done | |];
    inversion Hlow as [| ? ? Hw _]; subst.
  - by apply (spelled_head w).
  - destruct HK as (k & g & K' & -> & Hk & _).
    destruct (spelled_head _ _ Hw Hk) as (c & t & -> & ? & ?).
    cbn. eauto.
Qed.

(** A phrase rule matches wherever the letters of its phrase stand, in any
    mix of cases, whatever comes before and after them; the match takes
    the gap in front and the white space behind. *)
Lemma phraseRule_matches (words : list string) b gap K rest :
  words ∈ phrases -> isGap gap -> spelledPhrase words K ->
  matchAt (phraseRule words) b (gap ++ K ++ rest)
  = Some (length gap + length K + length (takeWhile isWhiteSpace rest)).
Proof.
  intros [Hne Hlow]%phrases_lower Hgap HK. unfold phraseRule.
  rewrite <- Nat.add_assoc. apply matchAt_gap; [exact Hgap | |].
  - destruct (spelledPhrase_head _ _ Hne Hlow HK) as (c & t & -> & ? & ?).
    cbn. eauto.
  - intros b'. by apply matchAt_words.
Qed.

Lemma phraseRule_head (words : list string) :
  words ∈ phrases ->
  exists r, phraseRule words
            = s_star :: hy_opt :: s_star :: Cls (ci (firstLetter words)) :: r.
Proof.
  unfold phrases. intros Hin.
  repeat (apply elem_of_cons in Hin as [-> | Hin]);
    [.. | by apply elem_of_nil in Hin]; eexists; reflexivity.
Qed.

(** No match of a phrase rule begins at an inert character, or at the end
    of the string. *)
Lemma phraseRule_inert (words : list string) b c t :
  words ∈ phrases -> inert (firstLetter words) c = true ->
  matchAt (phraseRule words) b (c :: t) = None.
Proof.
  intros [r ->]%phraseRule_head Hc. unfold inert in Hc.
  apply andb_prop in Hc as [[Hws Hhy]%andb_prop Hl].
  apply negb_true_iff in Hws, Hhy, Hl.
  unfold s_star, hy_opt.
  rewrite matchAt_star, Hws, matchAt_opt, Hhy, matchAt_star, Hws.
  rewrite matchAt_cls, Hl. done.
Qed.

Lemma phraseRule_end (words : list string) b :
  words ∈ phrases -> matchAt (phraseRule words) b [] = None.
Proof. intros [r ->]%phraseRule_head. reflexivity. Qed.

(** Replacement, piece by piece. *)
Lemma replace_from_skip r rep l t :
  replace_from r rep false (length l) (l ++ t) = replace_from r rep false 0 t.
Proof.
  induction l as [| c l IH]; [done |]. cbn [length app replace_from].
  exact IH.
Qed.

Lemma replace_from_match r rep b m t :
  m <> [] -> matchAt r b (m ++ t) = Some (length m) ->
  replace_from r rep b 0 (m ++ t) = rep ++ replace_from r rep false 0 t.
Proof.
  intros Hm Hmatch. destruct m as [| c m]; [done |].
  cbn [app] in *. cbn [replace_from]. rewrite Hmatch. cbn [length].
  by rewrite replace_from_skip.
Qed.

Lemma replace_from_prefix r rep b u t :
  (forall c x b', c ∈ u -> matchAt r b' (c :: x) = None) ->
  replace_from r rep b 0 (u ++ t)
  = u ++ replace_from r rep (match u with [] => b | _ => false end) 0 t.
Proof.
  intros Hu. revert b. induction u as [| c u IH]; intros b; [done |].
  cbn [app replace_from]. rewrite (Hu c) by left. f_equal.
  rewrite IH by (intros; apply Hu; by right). by destruct u.
Qed.

Lemma replace_from_inert r rep b v :
  (forall c x b', c ∈ v -> matchAt r b' (c :: x) = None) ->
  (forall b', matchAt r b' [] = None) ->
  replace_from r rep b 0 v = v.
Proof.
  intros Hv Hend.
  rewrite <- (app_nil_r v) at 1. rewrite replace_from_prefix by exact Hv.
  cbn [replace_from]. rewrite Hend. by rewrite app_nil_r.
Qed.

(** Inside a string whose other characters are inert, a phrase rule
    replaces the phrase, with the gap in front and the white space behind,
    by the replacement: no word boundary is asked for on either side. *)
Lemma phraseRule_replace (words : list string) (u gap K tail v : list N) :
  words ∈ phrases ->
  Forall (fun c => inert (firstLetter words) c = true) u ->
  Forall (fun c => inert (firstLetter words) c = true) v ->
  isGap gap -> spelledPhrase words K -> wsRun tail ->
  replace (phraseRule words) (js " ") (u ++ gap ++ K ++ tail ++ v)
  = u ++ js " " ++ v.
Proof.
  intros Hw Hu Hv Hgap HK Htail. unfold replace.
  rewrite replace_from_prefix.
  2:{ intros c x b' Hc. apply phraseRule_inert; [exact Hw |].
      by apply (proj1 (Forall_forall _ _) Hu). }
  f_equal.
  assert (Hm : forall b,
             matchAt (phraseRule words) b ((gap ++ K ++ tail) ++ v)
             = Some (length (gap ++ K ++ tail))).
  { intros b. rewrite <- !app_assoc.
    rewrite (phraseRule_matches words b gap K (tail ++ v)) by assumption.
    rewrite wsRun_takeWhile; [by rewrite !length_app, Nat.add_assoc | done |].
    intros c t' ->. inversion Hv as [| ? ? Hc _]; subst.
    unfold inert in Hc. apply andb_prop in Hc as [[Hc _]%andb_prop _].
    by apply negb_true_iff. }
  replace (gap ++ K ++ tail ++ v) with ((gap ++ K ++ tail) ++ v)
    by (by rewrite <- !app_assoc).
  rewrite replace_from_match; [| | apply Hm].
  - f_equal. apply replace_from_inert.
    + intros c x b' Hc. apply phraseRule_inert; [exact Hw |].
      by apply (proj1 (Forall_forall _ _) Hv).
    + intros b'. by apply phraseRule_end.
  - destruct (phrases_lower _ Hw) as [Hne Hlow].
    destruct (spelledPhrase_head _ _ Hne Hlow HK) as (c & t & -> & _).
    by destruct gap.
Qed.

(** The leading "remote": only at the start of the string. *)
Lemma remotePrefixRule_later s : matchAt remotePrefixRule false s = None.
Proof. reflexivity. Qed.

Lemma matchAt_gap_end b s :
  matchAt [s_star; hy_opt; s_star] b s = Some (gapLength s).
Proof.
  unfold gapLength.
  assert (Hsplit : exists l t,
             s = l ++ t /\ wsRun l /\ takeWhile isWhiteSpace s = l
             /\ (forall c t', t = c :: t' -> isWhiteSpace c = false)).
  { induction s as [| c s (l & t & Hs & Hl & Htw & Ht)].
    - exists [], []. repeat split; [constructor | done].
    - cbn [takeWhile]. destruct (isWhiteSpace c) eqn:Hc.
      + exists (c :: l), t. subst s. repeat split; try done.
        * by constructor.
        * by rewrite Htw.
      + exists [], (c :: s). repeat split; [constructor |].
        by intros ? ? [= <- _]. }
  destruct Hsplit as (l & t & -> & Hl & -> & Ht).
  rewrite drop_app_length.
  assert (Hrest : forall b',
             matchAt [hy_opt; s_star] b' t
             = Some (match t with
                     | c :: t' =>
                         if isHyphen c
                         then S (length (takeWhile isWhiteSpace t'))
                         else 0
                     | [] => 0
                     end)).
  { intros b'. unfold hy_opt, s_star. rewrite matchAt_opt.
    destruct t as [| c t']; [done |].
    destruct (isHyphen c) eqn:Hh.
    - rewrite matchAt_star_end. done.
    - rewrite matchAt_star_end. cbn. by rewrite (Ht c t'). }
  unfold s_star at 1. rewrite (matchAt_star_run _ _ _ _ _ _ Hl (Hrest _) Ht).
  destruct t as [| c t']; [by rewrite Nat.add_0_r |].
  destruct (isHyphen c); f_equal; lia.
Qed.

Lemma remotePrefixRule_matches (lead k rest : list N) :
  wsRun lead -> spelled "remote" k ->
  matchAt remotePrefixRule true (lead ++ k ++ rest)
  = Some (length lead + length k + gapLength rest).
Proof.
  intros Hlead Hk. unfold remotePrefixRule. cbn [app]. rewrite matchAt_bol.
  assert (Hlow : lowerWord "remote")
    by (split; [done | vm_compute; repeat constructor]).
  destruct (spelled_head _ _ Hlow Hk) as (c & k' & -> & Hc & _).
  rewrite <- Nat.add_assoc.
  apply (matchAt_ws_run _ true lead);
    [exact Hlead | by intros ? ? [= <- _] |].
  intros b'. unfold lit. apply matchAt_spelled; [exact Hk |].
  intros b''. apply matchAt_gap_end.
Qed.

(** A match of a pattern that ends with [$] reaches the end of the
    string. *)
Lemma matches_eol_length r b s n :
  matches r b s n -> (exists r', r = r' ++ [Eol]) -> n = length s.
Proof.
  induction 1 as [b s | p r b c s n Hc _ IH | p r b s n _ IH
                  | p r b c s n Hc _ IH | p r b s n _ IH
                  | p r b c s n Hc _ IH | r s n _ IH
                  | r b n Hm IH]; intros [r' Hr'].
  - by destruct r'.
  - cbn. f_equal. apply IH. destruct r' as [| a r']; [done |].
    injection Hr' as _ ->. eauto.
  - apply IH. destruct r' as [| a r']; [done |].
    injection Hr' as _ ->. eauto.
  - cbn. f_equal. apply IH. eauto.
  - apply IH. destruct r' as [| a r']; [done |].
    injection Hr' as _ ->. eauto.
  - cbn. f_equal. apply IH. destruct r' as [| a r']; [done |].
    injection Hr' as _ ->. eauto.
  - apply IH. destruct r' as [| a r']; [done |].
    injection Hr' as _ ->. eauto.
  - destruct r' as [| a r'].
    + injection Hr' as ->. inversion Hm; subst. done.
    + injection Hr' as _ ->. apply IH. eauto.
Qed.

(** The trailing "remote": only up to the end of the string. *)
Lemma remoteSuffixRule_reaches_end b s n :
  matchAt remoteSuffixRule b s = Some n -> n = length s.
Proof.
  intros Hm%matchAt_sound. apply (matches_eol_length _ _ _ _ Hm).
  by exists ([s_star; hy_opt; s_star] ++ lit "remote" ++ [s_star]).
Qed.

Lemma matchAt_ws_eol b tail :
  wsRun tail -> matchAt [s_star; Eol] b tail = Some (length tail).
Proof.
  intros Ht. unfold s_star. rewrite <- (app_nil_r tail) at 1.
  rewrite (matchAt_star_run _ [Eol] b tail [] 0 Ht);
    [by rewrite Nat.add_0_r | | done].
  by destruct tail.
Qed.

Lemma remoteSuffixRule_matches b (gap k tail : list N) :
  isGap gap -> spelled "remote" k -> wsRun tail ->
  matchAt remoteSuffixRule b (gap ++ k ++ tail)
  = Some (length gap + length k + length tail).
Proof.
  intros Hgap Hk Htail. unfold remoteSuffixRule.
  assert (Hlow : lowerWord "remote")
    by (split; [done | vm_compute; repeat constructor]).
  rewrite <- Nat.add_assoc. apply matchAt_gap; [exact Hgap | |].
  - destruct (spelled_head _ _ Hlow Hk) as (c & k' & -> & ? & ?).
    cbn. eauto.
  - intros b'. unfold lit. apply matchAt_spelled; [exact Hk |].
    intros b''. by apply matchAt_ws_eol.
Qed.

End RuleMatches.

Section RuleProperties.

Lemma stripPhrases_fold (s : list N) :
  stripPhrases s
  = fold_left (fun str pattern => replace pattern (js " ") str)
      (List.map phraseRule phrases ++ [remotePrefixRule; remoteSuffixRule]) s.
Proof. reflexivity. Qed.

(** C6 (amended): the rules are, in this order, the phrases "work from
    home", "wfh", "home office" and "office", then "remote" at the very
    start and "remote" at the very end of the string; [stripPhrases]
    applies them one after the other and replaces every match by one space.
    A phrase is matched in any mix of cases wherever its letters stand,
    together with the white space and the optional hyphen in front of it
    and the white space behind it, and nothing is asked of the characters
    around it: inside a longer word the phrase is replaced as well.  The
    leading "remote" matches at index 0 only, the trailing one only when
    nothing but white space follows up to the end. *)
Theorem removePatterns_spec :
  removePatterns
  = List.map phraseRule phrases ++ [remotePrefixRule; remoteSuffixRule]
  /\ (forall s,
        stripPhrases s
        = fold_left (fun str pattern => replace pattern (js " ") str)
            (List.map phraseRule phrases
               ++ [remotePrefixRule; remoteSuffixRule]) s)
  /\ (forall words b gap K rest,
        words ∈ phrases -> isGap gap -> spelledPhrase words K ->
        matchAt (phraseRule words) b (gap ++ K ++ rest)
        = Some (length gap + length K
                + length (takeWhile isWhiteSpace rest)))
  /\ (forall words u gap K tail v,
        words ∈ phrases ->
        Forall (fun c => inert (firstLetter words) c = true) u ->
        Forall (fun c => inert (firstLetter words) c = true) v ->
        isGap gap -> spelledPhrase words K -> wsRun tail ->
        replace (phraseRule words) (js " ") (u ++ gap ++ K ++ tail ++ v)
        = u ++ js " " ++ v)
  /\ (forall lead k rest,
        wsRun lead -> spelled "remote" k ->
        matchAt remotePrefixRule true (lead ++ k ++ rest)
        = Some (length lead + length k + gapLength rest))
  /\ (forall s, matchAt remotePrefixRule false s = None)
  /\ (forall b gap k tail,
        isGap gap -> spelled "remote" k -> wsRun tail ->
        matchAt remoteSuffixRule b (gap ++ k ++ tail)
        = Some (length gap + length k + length tail))
  /\ (forall b s n,
        matchAt remoteSuffixRule b s = Some n -> n = length s).
Proof.
  split; [exact removePatterns_rules |].
  split; [exact stripPhrases_fold |].
  split; [intros; by apply phraseRule_matches |].
  split; [intros; by apply phraseRule_replace |].
  split; [intros; by apply remotePrefixRule_matches |].
  split; [exact remotePrefixRule_later |].
  split; [intros; by apply remoteSuffixRule_matches |].
  exact remoteSuffixRule_reaches_end.
Qed.

Lemma removePatterns_spec_witness :
  replace (phraseRule ["office"%string]) (js " ") (js "Sales - OFFICE s")
  = js "Sales s".
Proof.
  destruct removePatterns_spec as (_ & _ & _ & Hrep & _).
  apply (Hrep ["office"%string] (js "Sales") (js " - ") (js "OFFICE")
           (js " ") (js "s")).
  - unfold phrases. do 3 right. left.
  - vm_compute. repeat constructor.
  - vm_compute. repeat constructor.
  - apply (gap_hyphen (js " ") (js " ")); vm_compute; repeat constructor.
  - vm_compute. repeat constructor.
  - vm_compute. repeat constructor.
Defined.

(** "Officer" is not left intact: the rule for "office" takes its first six
    letters. *)
Lemma officer_not_intact :
  stripPhrases (js "Officer") = js " r"
  /\ parseLocation (js "Officer")
     = Some {| original := js "Officer"; parts := [js "r"] |}
  /\ [js "r"] <> [js "Officer"].
Proof. vm_compute. repeat split; discriminate. Qed.

End RuleProperties.

(** ** The pin scale *)

Section PinScale.
Local Open Scope R_scope.

Lemma ln_succ_pos (n : Z) : (1 <= n)%Z -> 0 < ln (IZR (n + 1)).
Proof.
  intros Hn. rewrite <- ln_1. apply ln_increasing; [lra |].
  apply IZR_lt. lia.
Qed.

Lemma ln_succ_mono (a b : Z) :
  (0 <= a <= b)%Z -> ln (IZR (a + 1)) <= ln (IZR (b + 1)).
Proof.
  intros [Ha Hab].
  destruct (Z.eq_dec a b) as [-> | Hne]; [lra |].
  left. apply ln_increasing.
  - apply IZR_lt. lia.
  - apply IZR_lt. lia.
Qed.

Lemma getPinRadius_unfold (count maxCount : Z) :
  getPinRadius count maxCount
  = 6 + ln (IZR (count + 1)) / ln (IZR (maxCount + 1)) * (20 - 6).
Proof. reflexivity. Qed.

Lemma getPinRadius_mono (maxCount c1 c2 : Z) :
  (1 <= maxCount)%Z -> (0 <= c1 <= c2)%Z ->
  getPinRadius c1 maxCount <= getPinRadius c2 maxCount.
Proof.
  intros Hm Hc. rewrite !getPinRadius_unfold.
  pose proof (ln_succ_pos maxCount Hm) as Hpos.
  pose proof (ln_succ_mono c1 c2 Hc) as Hle.
  apply Rplus_le_compat_l, Rmult_le_compat_r; [lra |].
  apply Rmult_le_compat_r; [| exact Hle].
  left. now apply Rinv_0_lt_compat.
Qed.

Lemma getPinRadius_top (maxCount : Z) :
  (1 <= maxCount)%Z -> getPinRadius maxCount maxCount = 20.
Proof.
  intros Hm. rewrite getPinRadius_unfold.
  pose proof (ln_succ_pos maxCount Hm) as Hpos.
  field. lra.
Qed.

Lemma getPinRadius_above_base (maxCount count : Z) :
  (1 <= maxCount)%Z -> (1 <= count)%Z -> 6 < getPinRadius count maxCount.
Proof.
  intros Hm Hc. rewrite getPinRadius_unfold.
  pose proof (ln_succ_pos maxCount Hm) as Hpos.
  pose proof (ln_succ_pos count Hc) as Hpos'.
  assert (0 < ln (IZR (count + 1)) / ln (IZR (maxCount + 1)))
    by (apply Rdiv_lt_0_compat; assumption).
  nra.
Qed.

(** C9: [getPinRadius] is the logarithmic interpolation between radius 6
    and radius 20; for a fixed [maxCount >= 1] it is non-decreasing in the
    count, it stays within [6, 20] for counts between 1 and [maxCount],
    and the largest group is drawn strictly larger than a group of one
    whenever [maxCount > 1]. *)
Theorem getPinRadius_scale :
  (forall count maxCount : Z,
      getPinRadius count maxCount
      = pinBaseRadius config
        + ln (IZR (count + 1)) / ln (IZR (maxCount + 1))
          * (pinMaxRadius config - pinBaseRadius config))
  /\ pinBaseRadius config = 6 /\ pinMaxRadius config = 20
  /\ (forall maxCount c1 c2 : Z,
        (1 <= maxCount)%Z -> (0 <= c1 <= c2)%Z ->
        getPinRadius c1 maxCount <= getPinRadius c2 maxCount)
  /\ (forall maxCount count : Z,
        (1 <= count <= maxCount)%Z ->
        pinBaseRadius config <= getPinRadius count maxCount
        <= pinMaxRadius config)
  /\ (forall maxCount : Z,
        (1 < maxCount)%Z ->
        getPinRadius 1 maxCount < getPinRadius maxCount maxCount).
Proof.
  split; [reflexivity |]. split; [reflexivity |]. split; [reflexivity |].
  split; [exact getPinRadius_mono |]. split.
  - intros maxCount count [Hc Hcm]. simpl. split.
    + left. apply getPinRadius_above_base; lia.
    + rewrite <- (getPinRadius_top maxCount) by lia.
      apply getPinRadius_mono; lia.
  - intros maxCount Hm. rewrite !getPinRadius_unfold.
    assert (Hpos : 0 < ln (IZR (maxCount + 1))) by (apply ln_succ_pos; lia).
    assert (Hlt : ln (IZR (1 + 1)) < ln (IZR (maxCount + 1))).
    { apply ln_increasing; [apply IZR_lt; lia | apply IZR_lt; lia]. }
    apply Rplus_lt_compat_l, Rmult_lt_compat_r; [lra |].
    apply Rmult_lt_compat_r; [now apply Rinv_0_lt_compat | exact Hlt].
Qed.

Lemma getPinRadius_scale_witness :
  getPinRadius 2 5 <= getPinRadius 3 5
  /\ 6 <= getPinRadius 3 5 <= 20
  /\ getPinRadius 1 5 < getPinRadius 5 5.
Proof.
  destruct getPinRadius_scale as (_ & _ & _ & Hmono & Hbound & Hstrict).
  split; [apply Hmono; lia |].
  split; [apply (Hbound 5%Z 3%Z); lia | apply Hstrict; lia].
Defined.

End PinScale.

(** ** Tier matching *)

Section Tiers.
Context `{Host}.

Lemma tryParts_nil (d : option Gazetteer) : tryParts d [] = None.
Proof. reflexivity. Qed.

(** One iteration of the loop, phrased with the vocabulary. *)
Lemma tryParts_cons (d : Gazetteer) (part : jsstring) (rest : list jsstring) :
  (unmatched d part /\ tryParts (Some d) (part :: rest) = tryParts (Some d) rest)
  \/ (exists t e, firstTier d part t e
                  /\ tryParts (Some d) (part :: rest) = Some (tierResult t e)).
Proof.
  cbn [tryParts].
  destruct (findUSState (Some d) part) as [e1 |] eqn:H1.
  { right. exists TierUS, e1. split; [| reflexivity].
    exists [], [TierCA; TierAU; TierCountry]. auto. }
  destruct (findCAProvince (Some d) part) as [e2 |] eqn:H2.
  { right. exists TierCA, e2. split; [| reflexivity].
    exists [TierUS], [TierAU; TierCountry].
    split; [reflexivity |]. split; [| exact H2].
    repeat constructor. exact H1. }
  destruct (findAUState (Some d) part) as [e3 |] eqn:H3.
  { right. exists TierAU, e3. split; [| reflexivity].
    exists [TierUS; TierCA], [TierCountry].
    split; [reflexivity |]. split; [| exact H3].
    repeat constructor; assumption. }
  destruct (findCountry (Some d) part) as [e4 |] eqn:H4.
  { right. exists TierCountry, e4. split; [| reflexivity].
    exists [TierUS; TierCA; TierAU], [].
    split; [reflexivity |]. split; [| exact H4].
    repeat constructor; assumption. }
  left. split; [| reflexivity]. intros []; assumption.
Qed.

Lemma firstTier_matched (d : Gazetteer) part t e :
  firstTier d part t e -> ~ unmatched d part.
Proof. intros (b & a & _ & _ & Hf) Hu. rewrite (Hu t) in Hf. discriminate. Qed.

Lemma tierOrder_split (b a : list Tier) (t : Tier) :
  tierOrder = b ++ t :: a ->
  (b = [] /\ t = TierUS) \/ (b = [TierUS] /\ t = TierCA)
  \/ (b = [TierUS; TierCA] /\ t = TierAU)
  \/ (b = [TierUS; TierCA; TierAU] /\ t = TierCountry).
Proof.
  unfold tierOrder. intros Ho.
  destruct b as [| t1 [| t2 [| t3 [| t4 b]]]]; simpl in Ho.
  - injection Ho as <- _. auto.
  - injection Ho as <- <- _. auto.
  - injection Ho as <- <- <- _. auto.
  - injection Ho as <- <- <- <- _. auto 6.
  - exfalso. injection Ho as _ _ _ _ Ho. destruct b; discriminate Ho.
Qed.

(** The first tier of a part is unique. *)
Lemma firstTier_fun (d : Gazetteer) part t e t' e' :
  firstTier d part t e -> firstTier d part t' e' -> t' = t /\ e' = e.
Proof.
  intros (b & a & Ho & Hb & Hf) (b' & a' & Ho' & Hb' & Hf').
  assert (t' = t) as ->.
  { apply tierOrder_split in Ho, Ho'.
    destruct Ho as [[-> ->] | [[-> ->] | [[-> ->] | [-> ->]]]];
      destruct Ho' as [[-> ->] | [[-> ->] | [[-> ->] | [-> ->]]]];
      try reflexivity; exfalso;
      repeat match goal with
             | H : Forall _ (_ :: _) |- _ => inversion H; clear H; subst
             end; congruence. }
  split; [reflexivity | congruence].
Qed.

(** The loop returns the result of the first part that matches a tier, at
    the first tier that matches it. *)
Lemma tryParts_Some (d : Gazetteer) (ps : list jsstring) (r : GeocodeResult) :
  tryParts (Some d) ps = Some r
  <-> exists pre part post t e,
        ps = pre ++ part :: post
        /\ Forall (unmatched d) pre
        /\ firstTier d part t e
        /\ r = tierResult t e.
Proof.
  induction ps as [| part rest IH].
  - split; [discriminate |].
    intros (pre & ? & ? & ? & ? & Hps & _). destruct pre; discriminate.
  - destruct (tryParts_cons d part rest) as [[Hu Heq] | (t & e & Hft & Heq)];
      rewrite Heq; clear Heq.
    + rewrite IH. split.
      * intros (pre & p & post & t & e & -> & Hpre & Hft & ->).
        exists (part :: pre), p, post, t, e. repeat split; auto.
      * intros (pre & p & post & t & e & Hps & Hpre & Hft & ->).
        destruct pre as [| q pre]; simpl in Hps; injection Hps as <- ->.
        { exfalso. exact (firstTier_matched _ _ _ _ Hft Hu). }
        inversion Hpre; subst.
        exists pre, p, post, t, e. repeat split; auto.
    + split.
      * intros [= <-]. exists [], part, rest, t, e. repeat split; auto.
      * intros (pre & p & post & t' & e' & Hps & Hpre & Hft' & ->).
        destruct pre as [| q pre]; simpl in Hps; injection Hps as <- ->.
        { destruct (firstTier_fun _ _ _ _ _ _ Hft Hft') as [-> ->].
          reflexivity. }
        inversion Hpre as [| ? ? Hq _]; subst.
        exfalso. exact (firstTier_matched _ _ _ _ Hft Hq).
Qed.

Lemma tryParts_None (d : Gazetteer) (ps : list jsstring) :
  tryParts (Some d) ps = None <-> Forall (unmatched d) ps.
Proof.
  induction ps as [| part rest IH].
  - split; [constructor | reflexivity].
  - destruct (tryParts_cons d part rest) as [[Hu Heq] | (t & e & Hft & Heq)];
      rewrite Heq; clear Heq.
    + rewrite IH. split; [by constructor | by inversion 1].
    + split; [discriminate |]. inversion 1 as [| ? ? Hq _]; subst.
      exfalso. exact (firstTier_matched _ _ _ _ Hft Hq).
Qed.

Lemma tierResult_coords (t : Tier) (e : Entry) :
  res_lat (tierResult t e) = lat e /\ res_lng (tierResult t e) = lng e.
Proof. destruct t; split; reflexivity. Qed.

End Tiers.

(** ** The memoising [geocode] *)

Section Geocode.
Context `{Host}.

Lemma init_loaded (w : World) (d : Gazetteer) :
  data w = Some d -> init w = (Some d, w).
Proof. unfold init. intros ->. reflexivity. Qed.

Lemma init_cache (w : World) : cache (snd (init w)) = cache w.
Proof.
  unfold init. destruct (data w); [reflexivity |].
  destruct (fetches w) as [| [d |] fs]; reflexivity.
Qed.

Lemma init_resolveRuns (w : World) :
  resolveRuns (trace (snd (init w))) = resolveRuns (trace w).
Proof.
  unfold init. destruct (data w); [reflexivity |].
  destruct (fetches w) as [| [d |] fs]; cbn;
    unfold resolveRuns; rewrite omap_app; cbn; apply app_nil_r.
Qed.

Lemma init_geocodeCalls (w : World) :
  geocodeCalls (trace (snd (init w))) = geocodeCalls (trace w).
Proof.
  unfold init. destruct (data w); [reflexivity |].
  destruct (fetches w) as [| [d |] fs]; cbn;
    unfold geocodeCalls; rewrite omap_app; cbn; apply app_nil_r.
Qed.

(** Once loaded, the data stay loaded. *)
Lemma init_data_stable (w : World) (d : Gazetteer) :
  data w = Some d -> data (snd (init w)) = Some d.
Proof. intros Hd. rewrite (init_loaded w d Hd). exact Hd. Qed.

Lemma init_fails (w : World) :
  loadFails w -> fst (init w) = None /\ data (snd (init w)) = None.
Proof.
  intros [Hd Hf]. unfold init. rewrite Hd.
  destruct Hf as [-> | [fs ->]]; cbn; auto.
Qed.

(** The three ways through [geocode]. *)
Lemma geocode_empty (w : World) :
  geocode [] w = (None, emit (EvGeocode []) w).
Proof. reflexivity. Qed.

Lemma geocode_hit (raw : jsstring) (w : World) (v : option GeocodeResult) :
  truthy raw = true -> cache w !! normalize raw = Some v ->
  geocode raw w = (v, emit (EvGeocode raw) w).
Proof.
  intros Ht Hc. unfold geocode, bind, modify, get, ret. rewrite Ht. cbn.
  rewrite Hc. reflexivity.
Qed.

Lemma geocode_miss (raw : jsstring) (w : World) :
  truthy raw = true -> cache w !! normalize raw = None ->
  geocode raw w =
    let w1 := snd (init (emit (EvGeocode raw) w)) in
    match data w1, parseLocation raw with
    | Some d, Some parsed =>
        let result := tryParts (Some d) (parts parsed) in
        (result,
         set_cache (<[normalize raw := result]> (cache w1))
           (emit (EvResolve (normalize raw)) w1))
    | _, _ => (None, w1)
    end.
Proof.
  intros Ht Hc. unfold geocode, bind, modify, get, ret. rewrite Ht. cbn.
  rewrite Hc.
  destruct (init (emit (EvGeocode raw) w)) as [o w1]. cbn.
  destruct (data w1) as [d |] eqn:Hd; [| reflexivity].
  destruct (parseLocation raw); reflexivity.
Qed.

Lemma geocode_cases (raw : jsstring) (w : World) :
  (raw = [] /\ geocode raw w = (None, emit (EvGeocode raw) w))
  \/ (exists v, truthy raw = true /\ cache w !! normalize raw = Some v
                /\ geocode raw w = (v, emit (EvGeocode raw) w))
  \/ (truthy raw = true /\ cache w !! normalize raw = None
      /\ geocode raw w = (None, snd (init (emit (EvGeocode raw) w)))
      /\ (data (snd (init (emit (EvGeocode raw) w))) = None
          \/ parseLocation raw = None))
  \/ (exists d parsed,
        truthy raw = true /\ cache w !! normalize raw = None
        /\ data (snd (init (emit (EvGeocode raw) w))) = Some d
        /\ parseLocation raw = Some parsed
        /\ geocode raw w =
             (tryParts (Some d) (parts parsed),
              set_cache
                (<[normalize raw := tryParts (Some d) (parts parsed)]>
                   (cache w))
                (emit (EvResolve (normalize raw))
                   (snd (init (emit (EvGeocode raw) w)))))).
Proof.
  destruct raw as [| c raw]; [left; split; reflexivity |].
  right. destruct (cache w !! normalize (c :: raw)) as [v |] eqn:Hc.
  { left. exists v. split; [reflexivity |]. split; [reflexivity |].
    apply geocode_hit; auto. }
  right. rewrite geocode_miss by auto. cbn zeta.
  destruct (data (snd (init (emit (EvGeocode (c :: raw)) w)))) as [d |] eqn:Hd.
  - destruct (parseLocation (c :: raw)) as [parsed |] eqn:Hp.
    + right. exists d, parsed. rewrite init_cache. cbn. auto 10.
    + left. auto.
  - left. auto.
Qed.

End Geocode.

(** ** Invariants of the module state *)

Section Invariants.
Context `{Host}.

Lemma resolveRuns_snoc (tr : list Event) (e : Event) :
  resolveRuns (tr ++ [e])
  = resolveRuns tr ++ match e with EvResolve k => [k] | _ => [] end.
Proof. unfold resolveRuns. rewrite omap_app. destruct e; reflexivity. Qed.

Lemma geocodeCalls_snoc (tr : list Event) (e : Event) :
  geocodeCalls (tr ++ [e])
  = geocodeCalls tr ++ match e with EvGeocode s => [s] | _ => [] end.
Proof. unfold geocodeCalls. rewrite omap_app. destruct e; reflexivity. Qed.

Lemma foldM_body_world (l : list jsstring)
    (acc : gmap jsstring (option GeocodeResult)) (w : World) :
  snd (foldM geocodeBatch_body acc l w) = afterGeocodes l w.
Proof.
  revert acc w. induction l as [| s l IH]; intros acc w; [reflexivity |].
  cbn [foldM afterGeocodes fold_left]. unfold bind at 1.
  unfold geocodeBatch_body at 1. unfold bind at 1, ret at 1.
  destruct (geocode s w) as [c w'] eqn:Hg. cbn. apply IH.
Qed.

Lemma geocodeBatch_world (l : list jsstring) (w : World) :
  snd (geocodeBatch l w)
  = afterGeocodes (newSet (List.filter truthy l)) (snd (init w)).
Proof.
  unfold geocodeBatch, bind. destruct (init w) as [o w1]. cbn.
  apply foldM_body_world.
Qed.

Lemma afterGeocodes_pres (P : World -> Prop) :
  (forall s w, P w -> P (snd (geocode s w))) ->
  forall l w, P w -> P (afterGeocodes l w).
Proof.
  intros Hg l. induction l as [| s l IH]; intros w Hw; [exact Hw |].
  cbn. apply IH, Hg, Hw.
Qed.

Lemma runOps_pres (P : World -> Prop) (clears : bool) :
  (forall w, P w -> P (snd (init w))) ->
  (forall s w, P w -> P (snd (geocode s w))) ->
  (clears = true -> forall w, P w -> P (snd (clearCache w))) ->
  forall ops w,
    (clears = false -> forallb (fun o => negb (isClear o)) ops = true) ->
    P w -> P (runOps ops w).
Proof.
  intros Hi Hg Hc ops. induction ops as [| o ops IH]; intros w Hn Hw.
  - exact Hw.
  - cbn. apply IH.
    + intros Hcl. specialize (Hn Hcl). cbn in Hn.
      apply andb_prop in Hn. tauto.
    + destruct o; cbn.
      * apply Hi, Hw.
      * apply Hg, Hw.
      * rewrite geocodeBatch_world. apply afterGeocodes_pres; auto.
      * destruct clears; [apply Hc; auto |].
        specialize (Hn eq_refl). discriminate.
Qed.

Lemma ranOnce_init (w : World) : ranOnce w -> ranOnce (snd (init w)).
Proof.
  intros [Hn Hc]. split.
  - rewrite init_resolveRuns. exact Hn.
  - intros k. rewrite init_resolveRuns, init_cache. apply Hc.
Qed.

Lemma ranOnce_emit_geocode (w : World) (s : jsstring) :
  ranOnce w -> ranOnce (emit (EvGeocode s) w).
Proof.
  intros [Hn Hc]. unfold ranOnce. cbn.
  rewrite resolveRuns_snoc, app_nil_r. auto.
Qed.

Lemma ranOnce_geocode (s : jsstring) (w : World) :
  ranOnce w -> ranOnce (snd (geocode s w)).
Proof.
  intros Hw.
  destruct (geocode_cases s w)
    as [[_ ->] | [(v & _ & _ & ->) | [(_ & _ & -> & _)
        | (d & parsed & _ & Hmiss & _ & _ & ->)]]]; cbn [snd].
  - by apply ranOnce_emit_geocode.
  - by apply ranOnce_emit_geocode.
  - by apply ranOnce_init, ranOnce_emit_geocode.
  - pose proof (ranOnce_init _ (ranOnce_emit_geocode w s Hw)) as [Hn Hc].
    set (w1 := snd (init (emit (EvGeocode s) w))) in *.
    unfold ranOnce. cbn. rewrite resolveRuns_snoc. split.
    + apply NoDup_app. split; [exact Hn |]. split; [| apply NoDup_singleton].
      intros k Hk ->%list_elem_of_singleton.
      apply Hc in Hk. unfold w1 in Hk. rewrite init_cache in Hk. cbn in Hk.
      rewrite Hmiss in Hk. by destruct Hk.
    + intros k [Hk | ->%list_elem_of_singleton]%elem_of_app.
      * apply Hc in Hk. unfold w1 in Hk. rewrite init_cache in Hk.
        cbn in Hk. destruct (decide (normalize s = k)) as [-> | Hne].
        -- rewrite lookup_insert_eq. eauto.
        -- rewrite lookup_insert_ne by done. exact Hk.
      * rewrite lookup_insert_eq. eauto.
Qed.

Lemma ranOnce_boot (fs : list (option Gazetteer)) : ranOnce (boot fs).
Proof. split; [constructor | intros k Hk; inversion Hk]. Qed.

Lemma data_init_mono (w : World) (d : Gazetteer) :
  data w = Some d -> data (snd (init w)) = Some d.
Proof. apply init_data_stable. Qed.

Lemma cacheSound_init (w : World) : cacheSound w -> cacheSound (snd (init w)).
Proof.
  intros Hs k v. rewrite init_cache. intros Hk.
  destruct (Hs k v Hk) as (d & raw & parsed & Hd & Hrest).
  exists d, raw, parsed. split; [by apply data_init_mono | exact Hrest].
Qed.

Lemma cacheSound_emit (w : World) (e : Event) :
  cacheSound w -> cacheSound (emit e w).
Proof. intros Hs k v Hk. exact (Hs k v Hk). Qed.

Lemma cacheSound_geocode (s : jsstring) (w : World) :
  cacheSound w -> cacheSound (snd (geocode s w)).
Proof.
  intros Hw.
  destruct (geocode_cases s w)
    as [[_ ->] | [(v & _ & _ & ->) | [(_ & _ & -> & _)
        | (d & parsed & Ht & Hmiss & Hd & Hp & ->)]]]; cbn [snd].
  - by apply cacheSound_emit.
  - by apply cacheSound_emit.
  - by apply cacheSound_init, cacheSound_emit.
  - pose proof (cacheSound_init _ (cacheSound_emit w (EvGeocode s) Hw)) as Hs.
    set (w1 := snd (init (emit (EvGeocode s) w))) in *.
    intros k v. cbn. destruct (decide (normalize s = k)) as [<- | Hne].
    + rewrite lookup_insert_eq. intros [= <-].
      exists d, s, parsed. auto.
    + rewrite lookup_insert_ne by done. intros Hk.
      apply Hs. unfold w1. rewrite init_cache. exact Hk.
Qed.

Lemma cacheSound_clear (w : World) : cacheSound (snd (clearCache w)).
Proof. intros k v. cbn. rewrite lookup_empty. discriminate. Qed.

Lemma cacheSound_boot (fs : list (option Gazetteer)) : cacheSound (boot fs).
Proof. intros k v. cbn. rewrite lookup_empty. discriminate. Qed.

Lemma ranOnce_reachable (fs : list (option Gazetteer)) (ops : list Op) :
  forallb (fun o => negb (isClear o)) ops = true ->
  ranOnce (runOps ops (boot fs)).
Proof.
  intros Hn. apply (runOps_pres ranOnce false).
  - apply ranOnce_init.
  - intros s w. apply ranOnce_geocode.
  - discriminate.
  - intros _. exact Hn.
  - apply ranOnce_boot.
Qed.

Lemma cacheSound_reachable (fs : list (option Gazetteer)) (ops : list Op) :
  cacheSound (runOps ops (boot fs)).
Proof.
  apply (runOps_pres cacheSound true).
  - apply cacheSound_init.
  - intros s w. apply cacheSound_geocode.
  - intros _ w _. apply cacheSound_clear.
  - discriminate.
  - apply cacheSound_boot.
Qed.

(** A cached value stays cached across calls of [geocode]. *)
Lemma geocode_keeps (s : jsstring) (w : World) k v :
  cache w !! k = Some v -> cache (snd (geocode s w)) !! k = Some v.
Proof.
  intros Hk.
  destruct (geocode_cases s w)
    as [[_ ->] | [(v' & _ & _ & ->) | [(_ & _ & -> & _)
        | (d & parsed & Ht & Hmiss & Hd & Hp & ->)]]]; cbn [snd].
  - exact Hk.
  - exact Hk.
  - rewrite init_cache. exact Hk.
  - cbn. rewrite lookup_insert_ne; [exact Hk |]. congruence.
Qed.

Lemma afterGeocodes_keeps (l : list jsstring) (w : World) k v :
  cache w !! k = Some v -> cache (afterGeocodes l w) !! k = Some v.
Proof.
  apply (afterGeocodes_pres (fun w => cache w !! k = Some v)).
  intros s w'. apply geocode_keeps.
Qed.

Lemma runOps_keeps (ops : list Op) (w : World) k v :
  forallb (fun o => negb (isClear o)) ops = true ->
  cache w !! k = Some v -> cache (runOps ops w) !! k = Some v.
Proof.
  intros Hn. apply (runOps_pres (fun w => cache w !! k = Some v) false).
  - intros w'. by rewrite init_cache.
  - intros s w'. apply geocode_keeps.
  - discriminate.
  - intros _. exact Hn.
Qed.

End Invariants.

(** ** Properties of [geocode] *)

Section GeocodeProperties.
Context `{Host}.

(** C1 (amended): on a cache miss with the data loaded, [geocode] walks
    the parsed parts in order and, for each part, the tiers in the order
    US states, Canadian provinces, Australian states, countries; the first
    part that matches a tier ends the search at its first matching tier,
    and the result carries the coordinates of the entry found there.  A
    part matching a subdivision therefore wins over a country whenever no
    earlier part matches any tier. *)
Theorem geocode_first_match (w : World) (raw : jsstring) (d : Gazetteer)
    (parsed : ParsedLocation) :
  truthy raw = true -> data w = Some d ->
  cache w !! normalize raw = None ->
  parseLocation raw = Some parsed ->
  ((fst (geocode raw w) = None /\ Forall (unmatched d) (parts parsed))
   \/ (exists pre part post t e,
         parts parsed = pre ++ part :: post
         /\ Forall (unmatched d) pre
         /\ firstTier d part t e
         /\ fst (geocode raw w) = Some (tierResult t e)
         /\ res_lat (tierResult t e) = lat e
         /\ res_lng (tierResult t e) = lng e))
  /\ (forall pre part post t0 e0,
        parts parsed = pre ++ part :: post ->
        Forall (unmatched d) pre ->
        isSubdivision t0 = true -> findTier d t0 part = Some e0 ->
        exists t e,
          isSubdivision t = true /\ firstTier d part t e
          /\ fst (geocode raw w) = Some (tierResult t e)).
Proof.
  intros Ht Hd Hmiss Hp.
  assert (Hg : fst (geocode raw w) = tryParts (Some d) (parts parsed)).
  { rewrite geocode_miss by assumption. cbn zeta.
    rewrite (init_data_stable _ d) by exact Hd. rewrite Hp. reflexivity. }
  rewrite Hg. split.
  - destruct (tryParts (Some d) (parts parsed)) as [r |] eqn:Hr.
    + right. apply tryParts_Some in Hr
        as (pre & part & post & t & e & Hps & Hpre & Hft & ->).
      exists pre, part, post, t, e.
      destruct (tierResult_coords t e). auto 10.
    + left. split; [reflexivity | by apply tryParts_None].
  - intros pre part post t0 e0 Hps Hpre Hsub Hf0.
    destruct (tryParts_cons d part post) as [[Hu _] | (t & e & Hft & _)].
    { rewrite (Hu t0) in Hf0. discriminate. }
    exists t, e. split; [| split; [exact Hft |]].
    + destruct Hft as (b & a & Ho & Hb & Hf).
      destruct t; try reflexivity. exfalso.
      apply tierOrder_split in Ho
        as [[_ [=]] | [[_ [=]] | [[_ [=]] | [-> _]]]].
      inversion Hb as [| ? ? H1 Hb1]; subst.
      inversion Hb1 as [| ? ? H2 Hb2]; subst.
      inversion Hb2 as [| ? ? H3 _]; subst.
      destruct t0; try discriminate; congruence.
    + apply tryParts_Some. exists pre, part, post, t, e. auto.
Qed.

(** C8: while the data file fails to load, [geocode] returns [None] for
    every input and leaves the cache as it was, so that nothing is
    memoised on that path; in every reachable state each cached value was
    computed by the tier-matching loop against the loaded data. *)
Theorem geocode_data_unavailable :
  (forall (fs : list (option Gazetteer)) (ops : list Op) (raw : jsstring),
      let w := runOps ops (boot fs) in
      loadFails w ->
      fst (geocode raw w) = None
      /\ cache (snd (geocode raw w)) = cache w
      /\ data (snd (geocode raw w)) = None)
  /\ (forall (fs : list (option Gazetteer)) (ops : list Op) k v,
        let w := runOps ops (boot fs) in
        cache w !! k = Some v ->
        exists d raw parsed,
          data w = Some d /\ truthy raw = true /\ normalize raw = k
          /\ parseLocation raw = Some parsed
          /\ v = tryParts (Some d) (parts parsed)).
Proof.
  split.
  - intros fs ops raw w Hf.
    pose proof (cacheSound_reachable fs ops) as Hs. fold w in Hs.
    assert (Hempty : forall k, cache w !! k = None).
    { intros k. destruct (cache w !! k) as [v |] eqn:Hk; [| reflexivity].
      destruct (Hs k v Hk) as (d & _ & _ & Hd & _).
      destruct Hf as [Hnone _]. congruence. }
    assert (Hf' : loadFails (emit (EvGeocode raw) w)) by exact Hf.
    destruct (init_fails _ Hf') as [_ Hd1].
    destruct (geocode_cases raw w)
      as [[_ ->] | [(v & _ & Hc & _) | [(_ & _ & -> & _)
          | (d & parsed & _ & _ & Hd & _)]]]; cbn [fst snd].
    + destruct Hf as [Hd _]. auto.
    + rewrite Hempty in Hc. discriminate.
    + rewrite init_cache. auto.
    + congruence.
  - intros fs ops k v w. apply cacheSound_reachable.
Qed.

End GeocodeProperties.

Section GeocodeExamples.
#[local] Existing Instance latin1Host.
Local Set Warnings "-inexact-float".

Lemma float_neq (x y : float) : Prim2SF x <> Prim2SF y -> x <> y.
Proof. intros Hne ->. by apply Hne. Qed.

Lemma geocode_first_match_witness :
  exists t e,
    isSubdivision t = true
    /\ firstTier Sample.gazetteer (js "California") t e
    /\ fst (geocode (js "California, United States") Sample.loaded)
       = Some (tierResult t e).
Proof.
  assert (Hp : parseLocation (js "California, United States")
               = Some {| original := js "California, United States";
                         parts := [js "California"; js "United States"] |})
    by (vm_compute; reflexivity).
  destruct (geocode_first_match Sample.loaded
              (js "California, United States") Sample.gazetteer _
              eq_refl eq_refl eq_refl Hp) as [_ Hsub].
  apply (Hsub [] (js "California") [js "United States"] TierUS
           Sample.california);
    [reflexivity | constructor | reflexivity | vm_compute; reflexivity].
Defined.

(** The parts of "Germany, California" contain the name of a US state and
    the name of a country, and [geocode] answers with the country: the
    country part comes first. *)
Lemma geocode_country_before_subdivision :
  exists parsed r,
    parseLocation (js "Germany, California") = Some parsed
    /\ js "California" ∈ parts parsed
    /\ findUSState (Some Sample.gazetteer) (js "California")
       = Some Sample.california
    /\ js "Germany" ∈ parts parsed
    /\ findCountry (Some Sample.gazetteer) (js "Germany")
       = Some Sample.germany
    /\ fst (geocode (js "Germany, California") Sample.loaded) = Some r
    /\ res_lat r = lat Sample.germany /\ res_lng r = lng Sample.germany
    /\ res_lat r <> lat Sample.california.
Proof.
  exists {| original := js "Germany, California";
            parts := [js "Germany"; js "California"] |},
         (countryResult Sample.germany).
  split; [vm_compute; reflexivity |].
  split; [cbn [parts]; right; left |].
  split; [vm_compute; reflexivity |].
  split; [cbn [parts]; left |].
  split; [vm_compute; reflexivity |].
  split; [vm_compute; reflexivity |].
  split; [reflexivity |]. split; [reflexivity |].
  apply float_neq. vm_compute. discriminate.
Qed.

(** The first call finds the data file unavailable and answers [None]
    without caching; the second call, whose input normalises to the same
    key, loads the data and resolves. *)
Lemma geocode_unloaded_then_loaded :
  let w0 := boot [None; Some Sample.gazetteer] in
  normalize (js "DE") = normalize (js " de ")
  /\ fst (geocode (js "DE") w0) = None
  /\ fst (geocode (js " de ") (snd (geocode (js "DE") w0)))
     = Some (countryResult Sample.germany).
Proof. vm_compute. repeat split; reflexivity. Qed.

(** Two inputs with one normalised form and different parts: whichever
    is resolved first decides the answer for both. *)
Example geocode_cache_shadows_parts :
  normalize (js "Washington USA") = normalize (js "Washington, USA")
  /\ fst (geocode (js "Washington, USA") Sample.loaded)
     = Some (subdivisionResult (Sample.entry "Washington" "WA"
                                  47.7511 (-120.7401)) "United States")
  /\ fst (geocode (js "Washington USA") Sample.loaded) = None
  /\ fst (geocode (js "Washington, USA")
            (snd (geocode (js "Washington USA") Sample.loaded))) = None.
Proof. vm_compute. repeat split; reflexivity. Qed.

Lemma geocode_data_unavailable_witness :
  fst (geocode (js "Germany") (boot [None])) = None
  /\ cache (snd (geocode (js "Germany") (boot [None]))) = ∅.
Proof.
  destruct geocode_data_unavailable as [Hnone _].
  destruct (Hnone [None] [] (js "Germany")) as (Hr & Hc & _).
  - split; [reflexivity | right; by eexists].
  - split; [exact Hr | exact Hc].
Defined.

End GeocodeExamples.

(** ** Batch resolution *)

Section Batch.
Context `{Host}.

Lemma setAdd_elem (s : list jsstring) (x y : jsstring) :
  y ∈ setAdd s x <-> y ∈ s \/ y = x.
Proof.
  unfold setAdd. case_bool_decide as Hx.
  - split; [auto |]. intros [Hy | ->]; assumption.
  - rewrite elem_of_app, list_elem_of_singleton. reflexivity.
Qed.

Lemma setAdd_NoDup (s : list jsstring) (x : jsstring) :
  NoDup s -> NoDup (setAdd s x).
Proof.
  intros Hs. unfold setAdd. case_bool_decide as Hx; [exact Hs |].
  apply NoDup_app. split; [exact Hs |]. split; [| apply NoDup_singleton].
  intros y Hy ->%list_elem_of_singleton. contradiction.
Qed.

Lemma fold_setAdd (l acc : list jsstring) :
  NoDup acc ->
  NoDup (fold_left setAdd l acc)
  /\ forall y, y ∈ fold_left setAdd l acc <-> y ∈ acc \/ y ∈ l.
Proof.
  revert acc. induction l as [| x l IH]; intros acc Hacc; cbn.
  - split; [exact Hacc |]. intros y. rewrite elem_of_nil. tauto.
  - destruct (IH (setAdd acc x) (setAdd_NoDup acc x Hacc)) as [Hn He].
    split; [exact Hn |]. intros y.
    rewrite He, setAdd_elem, elem_of_cons. tauto.
Qed.

Lemma newSet_NoDup (l : list jsstring) : NoDup (newSet l).
Proof. apply fold_setAdd. constructor. Qed.

Lemma newSet_elem (l : list jsstring) (y : jsstring) :
  y ∈ newSet l <-> y ∈ l.
Proof.
  unfold newSet. destruct (fold_setAdd l [] (NoDup_nil_2)) as [_ He].
  rewrite He, elem_of_nil. tauto.
Qed.

Lemma filter_truthy_elem (l : list jsstring) (y : jsstring) :
  y ∈ List.filter truthy l <-> y ∈ l /\ y <> [].
Proof.
  rewrite !list_elem_of_In, filter_In.
  destruct y; cbn; split; intros [? ?]; split; auto; discriminate.
Qed.

Lemma geocode_calls (s : jsstring) (w : World) :
  geocodeCalls (trace (snd (geocode s w))) = geocodeCalls (trace w) ++ [s].
Proof.
  assert (He : geocodeCalls (trace (emit (EvGeocode s) w))
               = geocodeCalls (trace w) ++ [s])
    by (cbn; apply geocodeCalls_snoc).
  destruct (geocode_cases s w)
    as [[_ ->] | [(v & _ & _ & ->) | [(_ & _ & -> & _)
        | (d & parsed & _ & _ & _ & _ & ->)]]]; cbn [snd].
  - exact He.
  - exact He.
  - rewrite init_geocodeCalls. exact He.
  - cbn. rewrite geocodeCalls_snoc, app_nil_r, init_geocodeCalls. exact He.
Qed.

Lemma afterGeocodes_calls (l : list jsstring) (w : World) :
  geocodeCalls (trace (afterGeocodes l w)) = geocodeCalls (trace w) ++ l.
Proof.
  revert w. induction l as [| s l IH]; intros w.
  - cbn. by rewrite app_nil_r.
  - change (afterGeocodes (s :: l) w)
      with (afterGeocodes l (snd (geocode s w))).
    rewrite IH, geocode_calls, <- app_assoc. reflexivity.
Qed.

Lemma afterGeocodes_app (l1 l2 : list jsstring) (w : World) :
  afterGeocodes (l1 ++ l2) w = afterGeocodes l2 (afterGeocodes l1 w).
Proof. apply fold_left_app. Qed.

Lemma foldM_body_cons (s : jsstring) (l : list jsstring)
    (acc : gmap jsstring (option GeocodeResult)) (w : World) :
  foldM geocodeBatch_body acc (s :: l) w
  = foldM geocodeBatch_body
      (match fst (geocode s w) with
       | Some c => <[s := Some c]> acc
       | None => acc
       end) l (snd (geocode s w)).
Proof.
  cbn [foldM]. unfold bind at 1. unfold geocodeBatch_body at 1.
  unfold bind at 1, ret at 1. destruct (geocode s w) as [c w']. reflexivity.
Qed.

(** A location outside the list keeps its binding. *)
Lemma foldM_body_other (l : list jsstring)
    (acc : gmap jsstring (option GeocodeResult)) (w : World) (s : jsstring) :
  s ∉ l -> fst (foldM geocodeBatch_body acc l w) !! s = acc !! s.
Proof.
  revert acc w. induction l as [| x l IH]; intros acc w Hs; [reflexivity |].
  rewrite foldM_body_cons.
  apply not_elem_of_cons in Hs as [Hne Hs]. rewrite IH by exact Hs.
  destruct (fst (geocode x w)); [| reflexivity].
  by apply lookup_insert_ne.
Qed.

(** A location of the list is bound according to its own call. *)
Lemma foldM_body_at (pre post : list jsstring)
    (acc : gmap jsstring (option GeocodeResult)) (w : World) (s : jsstring) :
  s ∉ pre -> s ∉ post ->
  fst (foldM geocodeBatch_body acc (pre ++ s :: post) w) !! s
  = match fst (geocode s (afterGeocodes pre w)) with
    | Some c => Some (Some c)
    | None => acc !! s
    end.
Proof.
  revert acc w. induction pre as [| x pre IH]; intros acc w Hpre Hpost.
  - cbn [app afterGeocodes fold_left]. rewrite foldM_body_cons.
    rewrite foldM_body_other by exact Hpost.
    destruct (fst (geocode s w)); [apply lookup_insert_eq | reflexivity].
  - apply not_elem_of_cons in Hpre as [Hne Hpre].
    cbn [app]. rewrite foldM_body_cons, IH by assumption.
    cbn [afterGeocodes fold_left].
    destruct (fst (geocode s _)); [reflexivity |].
    destruct (fst (geocode x w)); [| reflexivity].
    by apply lookup_insert_ne.
Qed.

Lemma NoDup_split (l pre post : list jsstring) (s : jsstring) :
  NoDup l -> l = pre ++ s :: post -> (s ∉ pre) /\ (s ∉ post).
Proof.
  intros Hn ->. apply NoDup_app in Hn as (_ & Hdisj & Hn2).
  apply NoDup_cons in Hn2 as [Hpost _]. split; [| exact Hpost].
  intros Hin. apply (Hdisj s Hin). left.
Qed.

Lemma NoDup_split_unique (l pre post pre' post' : list jsstring)
    (s : jsstring) :
  NoDup l -> l = pre ++ s :: post -> l = pre' ++ s :: post' -> pre = pre'.
Proof.
  intros Hn Hl Hl'.
  destruct (NoDup_split _ _ _ _ Hn Hl) as [Hpre _].
  destruct (NoDup_split _ _ _ _ Hn Hl') as [Hpre' _].
  rewrite Hl in Hl'. clear Hn Hl l.
  revert pre' Hpre' Hl'.
  induction pre as [| x pre IH]; intros pre' Hpre' Hl'.
  - destruct pre' as [| y pre']; [reflexivity |].
    cbn in Hl'. injection Hl' as <- _. exfalso. apply Hpre'. left.
  - destruct pre' as [| y pre']; cbn in Hl'.
    + injection Hl' as -> _. exfalso. apply Hpre. left.
    + injection Hl' as <- Hl'. f_equal. apply IH.
      * intros Hin. apply Hpre. by right.
      * intros Hin. apply Hpre'. by right.
      * exact Hl'.
Qed.

Lemma geocodeBatch_results (locations : list jsstring) (w : World) :
  fst (geocodeBatch locations w)
  = fst (foldM geocodeBatch_body ∅ (newSet (List.filter truthy locations))
           (snd (init w))).
Proof.
  unfold geocodeBatch, bind. destruct (init w) as [o w1]. reflexivity.
Qed.

(** C7: [geocodeBatch] removes the empty strings and the repetitions from
    its input, calls [geocode] once for each remaining value, in order of
    first occurrence, and returns a map that binds an input string exactly
    when its call answered with a coordinate; no key is bound to a
    [None]. *)
Theorem geocodeBatch_resolved (locations : list jsstring) (w : World) :
  let unique := newSet (List.filter truthy locations) in
  let results := fst (geocodeBatch locations w) in
  NoDup unique
  /\ (forall s, s ∈ unique <-> s ∈ locations /\ s <> [])
  /\ geocodeCalls (trace (snd (geocodeBatch locations w)))
     = geocodeCalls (trace w) ++ unique
  /\ (forall s, results !! s <> Some None)
  /\ (forall s c,
        results !! s = Some (Some c)
        <-> exists pre post,
              unique = pre ++ s :: post
              /\ fst (geocode s (afterGeocodes pre (snd (init w))))
                 = Some c)
  /\ (forall s,
        is_Some (results !! s)
        <-> exists pre post,
              unique = pre ++ s :: post
              /\ is_Some (fst (geocode s
                                 (afterGeocodes pre (snd (init w)))))).
Proof.
  intros unique results.
  assert (Hnd : NoDup unique) by apply newSet_NoDup.
  assert (Hres : forall s v,
             results !! s = Some v
             <-> exists pre post c,
                   unique = pre ++ s :: post
                   /\ fst (geocode s (afterGeocodes pre (snd (init w))))
                      = Some c
                   /\ v = Some c).
  { intros s v. unfold results. rewrite geocodeBatch_results. fold unique.
    destruct (decide (s ∈ unique)) as [Hin | Hout].
    - apply list_elem_of_split in Hin as (pre & post & Hsplit).
      destruct (NoDup_split _ _ _ _ Hnd Hsplit) as [Hpre Hpost].
      rewrite Hsplit at 1. rewrite foldM_body_at by assumption.
      rewrite lookup_empty. split.
      + destruct (fst (geocode s _)) as [c |] eqn:Hc; [| discriminate].
        intros [= <-]. exists pre, post, c. auto.
      + intros (pre' & post' & c & Hsplit' & Hc & ->).
        rewrite (NoDup_split_unique _ _ _ _ _ _ Hnd Hsplit Hsplit').
        rewrite Hc. reflexivity.
    - rewrite foldM_body_other, lookup_empty by exact Hout. split.
      + discriminate.
      + intros (pre & post & c & Hsplit & _). exfalso. apply Hout.
        rewrite Hsplit. apply elem_of_app. right. left. }
  split; [exact Hnd |]. split.
  { intros s. unfold unique. rewrite newSet_elem. apply filter_truthy_elem. }
  split.
  { rewrite geocodeBatch_world. fold unique.
    rewrite afterGeocodes_calls, init_geocodeCalls. reflexivity. }
  split.
  { intros s Hs. apply Hres in Hs as (_ & _ & c & _ & _ & [=]). }
  split.
  - intros s c. rewrite Hres. split.
    + intros (pre & post & c' & Hs & Hc & [= ->]). eauto.
    + intros (pre & post & Hs & Hc). exists pre, post, c. auto.
  - intros s. split.
    + intros [v Hv]. apply Hres in Hv as (pre & post & c & Hs & Hc & _).
      exists pre, post. rewrite Hc. eauto.
    + intros (pre & post & Hs & [c Hc]). exists (Some c).
      apply Hres. exists pre, post, c. auto.
Qed.

End Batch.

(** ** Grouping *)

Section JsMapFacts.
Context {V : Type}.
Implicit Types (m : JsMap V) (k : jsstring).

Lemma mapHas_elem k m : mapHas k m = true <-> k ∈ List.map fst m.
Proof.
  unfold mapHas. rewrite existsb_exists, elem_of_map. split.
  - intros (kv & Hin & Hk). apply bool_decide_eq_true in Hk.
    exists kv. by rewrite list_elem_of_In.
  - intros (kv & Hk & Hin). exists kv. rewrite <- list_elem_of_In.
    split; [exact Hin |]. by apply bool_decide_eq_true.
Qed.

Lemma mapAlter_cons (f : V -> V) k (kv : jsstring * V) m :
  mapAlter f k (kv :: m)
  = (if bool_decide (kv.1 = k) then (kv.1, f kv.2) else kv)
      :: mapAlter f k m.
Proof. reflexivity. Qed.

Lemma mapAlter_keys (f : V -> V) k m :
  List.map fst (mapAlter f k m) = List.map fst m.
Proof.
  unfold mapAlter. rewrite List.map_map. apply List.map_ext.
  intros [k' v]. cbn. case_bool_decide; reflexivity.
Qed.

Lemma mapAlter_elem (f : V -> V) k m k' v' :
  (k', v') ∈ mapAlter f k m
  <-> exists v, (k', v) ∈ m /\ v' = if decide (k' = k) then f v else v.
Proof.
  unfold mapAlter. rewrite elem_of_map. split.
  - intros ([k0 v0] & Heq & Hin). cbn in Heq.
    case_bool_decide as Hk; injection Heq as -> ->; exists v0;
      (split; [exact Hin |]); case_decide; congruence.
  - intros (v & Hin & ->). exists (k', v). split; [| exact Hin]. cbn.
    case_bool_decide; case_decide; congruence.
Qed.

Lemma mapAlter_absent (f : V -> V) k m :
  k ∉ List.map fst m -> mapAlter f k m = m.
Proof.
  induction m as [| [k' v] m IH]; intros Hnot; [reflexivity |].
  rewrite mapAlter_cons. cbn [fst snd]. cbn [List.map fst] in Hnot.
  apply not_elem_of_cons in Hnot as [Hne Hnot].
  case_bool_decide as Hk; [congruence |]. f_equal. by apply IH.
Qed.

Lemma mapSet_fresh k (v : V) m :
  mapHas k m = false -> mapSet k v m = m ++ [(k, v)].
Proof. unfold mapSet. intros ->. reflexivity. Qed.

End JsMapFacts.

Section Grouping.
Context `{Host}.
Variable geocoded : gmap jsstring (option GeocodeResult).

Lemma addEmployee_unfold (groups : JsMap LocationGroup) (e : Employee) :
  addEmployee geocoded groups e
  = match coordsOf geocoded e with
    | None => groups
    | Some coords =>
        mapAlter (pushEmployee e) (keyOf coords)
          (if mapHas (keyOf coords) groups then groups
           else groups ++
                [(keyOf coords,
                  {| grp_lat := res_lat coords; grp_lng := res_lng coords;
                     grp_name := if truthy (res_name coords)
                                 then res_name coords else location e;
                     employees := [] |})])
    end.
Proof.
  unfold addEmployee, coordsOf.
  destruct (truthy (location e)); cbn [negb]; [| reflexivity].
  destruct (geocoded !! location e) as [[coords |] |]; try reflexivity.
  destruct (mapHas (keyOf coords) groups) eqn:Hhas; cbn [negb].
  - reflexivity.
  - rewrite mapSet_fresh by exact Hhas. reflexivity.
Qed.

Lemma grouped_nil : grouped geocoded [] [].
Proof.
  split; cbn.
  - constructor.
  - intros k g Hin. inversion Hin.
  - intros k. split; [intros Hin; inversion Hin |].
    intros (e & Hin & _). inversion Hin.
  - reflexivity.
Qed.

Lemma hasKey_true k e :
  hasKey geocoded k e = true <-> groupKey geocoded e = Some k.
Proof. unfold hasKey. apply bool_decide_eq_true. Qed.

Lemma hasKey_false k e :
  hasKey geocoded k e = false <-> groupKey geocoded e <> Some k.
Proof. unfold hasKey. apply bool_decide_eq_false. Qed.

Lemma resolves_true e :
  resolves geocoded e = true <-> is_Some (groupKey geocoded e).
Proof.
  unfold resolves, groupKey. rewrite bool_decide_eq_true, fmap_is_Some.
  reflexivity.
Qed.

Lemma totalMembers_cons (kg : jsstring * LocationGroup)
    (groups : JsMap LocationGroup) :
  totalMembers (kg :: groups)
  = (length (employees kg.2) + totalMembers groups)%nat.
Proof. reflexivity. Qed.

Lemma totalMembers_app (g1 g2 : JsMap LocationGroup) :
  totalMembers (g1 ++ g2) = (totalMembers g1 + totalMembers g2)%nat.
Proof.
  unfold totalMembers. rewrite List.map_app, list_sum_app. reflexivity.
Qed.

Lemma totalMembers_push (e : Employee) (k : jsstring)
    (groups : JsMap LocationGroup) :
  NoDup (List.map fst groups) -> k ∈ List.map fst groups ->
  totalMembers (mapAlter (pushEmployee e) k groups)
  = S (totalMembers groups).
Proof.
  induction groups as [| [k' g] groups IH]; intros Hn Hin;
    [inversion Hin |].
  cbn [List.map fst] in Hn, Hin.
  apply NoDup_cons in Hn as [Hnotin Hn'].
  rewrite mapAlter_cons, !totalMembers_cons. cbn [fst snd].
  case_bool_decide as Hk.
  - subst k'. rewrite mapAlter_absent by exact Hnotin.
    cbn [snd pushEmployee employees]. rewrite length_app. cbn. lia.
  - apply elem_of_cons in Hin as [Heq | Hin]; [congruence |].
    rewrite IH by assumption. cbn [snd]. lia.
Qed.

Lemma grouped_step (seen : list Employee) (groups : JsMap LocationGroup)
    (e : Employee) :
  grouped geocoded seen groups ->
  grouped geocoded (seen ++ [e]) (addEmployee geocoded groups e).
Proof.
  intros [Hkeys Hmem Hcov Htot]. rewrite addEmployee_unfold.
  destruct (coordsOf geocoded e) as [coords |] eqn:Hc.
  - set (k0 := keyOf coords).
    assert (Hk0 : groupKey geocoded e = Some k0)
      by (unfold groupKey; rewrite Hc; reflexivity).
    assert (Hres : resolves geocoded e = true)
      by (apply resolves_true; rewrite Hk0; eauto).
    set (fresh := {| grp_lat := res_lat coords; grp_lng := res_lng coords;
                     grp_name := if truthy (res_name coords)
                                 then res_name coords else location e;
                     employees := [] |}).
    set (groups1 := if mapHas k0 groups then groups
                    else groups ++ [(k0, fresh)]).
    assert (H1 : NoDup (List.map fst groups1)
                 /\ k0 ∈ List.map fst groups1
                 /\ (forall k, k ∈ List.map fst groups1
                               <-> k ∈ List.map fst groups \/ k = k0)
                 /\ (forall k g, (k, g) ∈ groups1 ->
                       employees g = List.filter (hasKey geocoded k) seen)
                 /\ totalMembers groups1 = totalMembers groups).
    { unfold groups1. destruct (mapHas k0 groups) eqn:Hhas.
      - apply mapHas_elem in Hhas. repeat split; auto.
        intros [? | ->]; auto.
      - assert (Hnot : k0 ∉ List.map fst groups).
        { intros Hin. apply mapHas_elem in Hin. congruence. }
        rewrite List.map_app. cbn [List.map fst]. repeat split.
        + apply NoDup_app.
          split; [exact Hkeys |]. split; [| apply NoDup_singleton].
          by intros k Hk ->%list_elem_of_singleton.
        + apply elem_of_app. right. left.
        + intros [? | ->%list_elem_of_singleton]%elem_of_app; auto.
        + intros [? | ->]; apply elem_of_app; [auto | right; left].
        + intros k g [Hin | Hin%list_elem_of_singleton]%elem_of_app;
            [by apply Hmem |].
          injection Hin as -> ->. cbn. symmetry. apply bfilter_none.
          intros x Hx. apply hasKey_false. intros Hkx. apply Hnot.
          apply Hcov. eauto.
        + rewrite totalMembers_app. cbn. lia. }
    destruct H1 as (Hn1 & Hin1 & Hk1 & Hm1 & Ht1).
    split.
    + by rewrite mapAlter_keys.
    + intros k g' (g & Hin & ->)%mapAlter_elem.
      rewrite bfilter_snoc. case_decide as Hk.
      * subst k. cbn. rewrite (Hm1 _ _ Hin).
        replace (hasKey geocoded k0 e) with true
          by (symmetry; by apply hasKey_true).
        reflexivity.
      * rewrite (Hm1 _ _ Hin).
        replace (hasKey geocoded k e) with false
          by (symmetry; apply hasKey_false; congruence).
        by rewrite app_nil_r.
    + intros k. rewrite mapAlter_keys, Hk1, Hcov. split.
      * intros [(x & Hx & Hkx) | ->].
        -- exists x. split; [apply elem_of_app; by left | exact Hkx].
        -- exists e. split; [apply elem_of_app; right; left | exact Hk0].
      * intros (x & [Hx | ->%list_elem_of_singleton]%elem_of_app & Hkx).
        -- left. eauto.
        -- right. congruence.
    + rewrite totalMembers_push by assumption.
      rewrite bfilter_snoc, Hres, length_app, Ht1, Htot. cbn. lia.
  - assert (Hk0 : groupKey geocoded e = None)
      by (unfold groupKey; rewrite Hc; reflexivity).
    assert (Hres : resolves geocoded e = false).
    { destruct (resolves geocoded e) eqn:Hr; [| reflexivity].
      apply resolves_true in Hr. rewrite Hk0 in Hr. by destruct Hr. }
    split.
    + exact Hkeys.
    + intros k g Hin. rewrite bfilter_snoc, (Hmem _ _ Hin).
      replace (hasKey geocoded k e) with false
        by (symmetry; apply hasKey_false; congruence).
      by rewrite app_nil_r.
    + intros k. rewrite Hcov. split.
      * intros (x & Hx & Hkx). exists x.
        split; [apply elem_of_app; by left | exact Hkx].
      * intros (x & [Hx | ->%list_elem_of_singleton]%elem_of_app & Hkx);
          [eauto | congruence].
    + rewrite bfilter_snoc, Hres, app_nil_r. exact Htot.
Qed.

Lemma grouped_fold (rest seen : list Employee)
    (groups : JsMap LocationGroup) :
  grouped geocoded seen groups ->
  grouped geocoded (seen ++ rest)
  (fold_left (addEmployee geocoded) rest groups).
Proof.
  revert seen groups. induction rest as [| e rest IH]; intros seen groups Hg.
  - by rewrite app_nil_r.
  - cbn [fold_left].
    replace (seen ++ e :: rest) with ((seen ++ [e]) ++ rest)
      by (by rewrite <- app_assoc).
    apply IH, grouped_step, Hg.
Qed.

Lemma grouped_nonempty (seen : list Employee)
    (groups : JsMap LocationGroup) k g :
  grouped geocoded seen groups -> (k, g) ∈ groups -> employees g <> [].
Proof.
  intros [Hkeys Hmem Hcov Htot] Hin.
  assert (Hk : k ∈ List.map fst groups)
    by (apply elem_of_map; exists (k, g); auto).
  apply Hcov in Hk as (e & He & Hke).
  rewrite (Hmem _ _ Hin). intros Hnil.
  assert (Hin' : e ∈ List.filter (hasKey geocoded k) seen)
    by (apply elem_of_bfilter; split; [exact He | by apply hasKey_true]).
  rewrite Hnil in Hin'. inversion Hin'.
Qed.

End Grouping.

Section GroupingProperties.
Context `{Host}.

Lemma groupEmployeesByLocation_fold (employeeList : list Employee)
    (w : World) :
  fst (groupEmployeesByLocation employeeList w)
  = fold_left
      (addEmployee
         (fst (geocodeBatch
                 (List.filter truthy (List.map location employeeList)) w)))
      employeeList [].
Proof.
  unfold groupEmployeesByLocation, bind, ret.
  destruct (geocodeBatch _ w) as [geocoded w']. reflexivity.
Qed.

(** C2: an employee appears in the output of [groupEmployeesByLocation]
    exactly when the employee has a non-empty location that the batch
    resolved to a coordinate; two such employees are members of one group
    exactly when the keys built from their coordinates, each formatted
    with two decimals and joined by a comma, are equal; and the number of
    members over all groups is the number of resolved employees. *)
Theorem groupEmployeesByLocation_groups (employeeList : list Employee)
    (w : World) :
  let geocoded :=
    fst (geocodeBatch
           (List.filter truthy (List.map location employeeList)) w) in
  let groups := fst (groupEmployeesByLocation employeeList w) in
  (forall e,
      (exists k g, (k, g) ∈ groups /\ e ∈ employees g)
      <-> e ∈ employeeList /\ location e <> []
          /\ exists coords, geocoded !! location e = Some (Some coords))
  /\ (forall e1 e2 c1 c2,
        e1 ∈ employeeList -> e2 ∈ employeeList ->
        coordsOf geocoded e1 = Some c1 -> coordsOf geocoded e2 = Some c2 ->
        (exists k g, (k, g) ∈ groups /\ e1 ∈ employees g
                     /\ e2 ∈ employees g)
        <-> toFixed (res_lat c1) 2 ++ js "," ++ toFixed (res_lng c1) 2
            = toFixed (res_lat c2) 2 ++ js "," ++ toFixed (res_lng c2) 2)
  /\ totalMembers groups
     = length (List.filter (resolves geocoded) employeeList)
  /\ NoDup (List.map fst groups)
  /\ (forall k g, (k, g) ∈ groups ->
        employees g <> []
        /\ employees g = List.filter (hasKey geocoded k) employeeList).
Proof.
  intros geocoded groups.
  assert (Hg : grouped geocoded employeeList groups).
  { unfold groups. rewrite groupEmployeesByLocation_fold.
    apply (grouped_fold geocoded employeeList [] []), grouped_nil. }
  pose proof Hg as [Hkeys Hmem Hcov Htot].
  assert (Hcoords : forall e,
             is_Some (coordsOf geocoded e)
             <-> location e <> []
                 /\ exists coords,
                      geocoded !! location e = Some (Some coords)).
  { intros e. unfold coordsOf.
    destruct (location e) as [| c l]; cbn [truthy].
    - split; [by intros [] | by intros []].
    - destruct (geocoded !! (c :: l)) as [[coords |] |] eqn:Hl;
        rewrite ?Hl.
      + split; [intros _; split; [done | eauto] | eauto].
      + split; [by intros [] | intros [_ [? [=]]]].
      + split; [by intros [] | intros [_ [? [=]]]]. }
  assert (Hin : forall e k,
             (exists g, (k, g) ∈ groups /\ e ∈ employees g)
             <-> e ∈ employeeList /\ groupKey geocoded e = Some k).
  { intros e k. split.
    - intros (g & Hkg & He). rewrite (Hmem _ _ Hkg) in He.
      apply elem_of_bfilter in He as [He Hk]. by apply hasKey_true in Hk.
    - intros [He Hk].
      assert (Hkin : k ∈ List.map fst groups) by (apply Hcov; eauto).
      apply elem_of_map in Hkin as ([k' g] & -> & Hkg). cbn.
      exists g. split; [exact Hkg |]. rewrite (Hmem _ _ Hkg).
      apply elem_of_bfilter. split; [exact He | by apply hasKey_true]. }
  split; [| split; [| split; [| split]]].
  - intros e. rewrite <- Hcoords. split.
    + intros (k & g & Hkg & He).
      destruct (proj1 (Hin e k)) as [Hel Hk]; [eauto |].
      split; [exact Hel |]. unfold groupKey in Hk.
      destruct (coordsOf geocoded e); [eauto | discriminate].
    + intros [He [coords Hc]]. exists (keyOf coords).
      apply Hin. split; [exact He |]. unfold groupKey. by rewrite Hc.
  - intros e1 e2 c1 c2 He1 He2 Hc1 Hc2.
    change (toFixed (res_lat c1) 2 ++ js "," ++ toFixed (res_lng c1) 2)
      with (keyOf c1).
    change (toFixed (res_lat c2) 2 ++ js "," ++ toFixed (res_lng c2) 2)
      with (keyOf c2).
    assert (Hk1 : groupKey geocoded e1 = Some (keyOf c1))
      by (unfold groupKey; by rewrite Hc1).
    assert (Hk2 : groupKey geocoded e2 = Some (keyOf c2))
      by (unfold groupKey; by rewrite Hc2).
    split.
    + intros (k & g & Hkg & Hm1 & Hm2).
      destruct (proj1 (Hin e1 k)) as [_ Hk1']; [eauto |].
      destruct (proj1 (Hin e2 k)) as [_ Hk2']; [eauto |].
      congruence.
    + intros Heq.
      destruct (proj2 (Hin e1 (keyOf c1))) as (g & Hkg & Hm1); [auto |].
      exists (keyOf c1), g. split; [exact Hkg |]. split; [exact Hm1 |].
      rewrite (Hmem _ _ Hkg). apply elem_of_bfilter.
      split; [exact He2 |]. apply hasKey_true. congruence.
  - exact Htot.
  - exact Hkeys.
  - intros k g Hkg. split; [| by apply Hmem].
    eapply grouped_nonempty; eauto.
Qed.

End GroupingProperties.

Section GroupingExamples.
#[local] Existing Instance latin1Host.

Lemma groupEmployeesByLocation_groups_witness :
  exists k g,
    (k, g) ∈ fst (groupEmployeesByLocation Sample.staff Sample.loaded)
    /\ Sample.person 1 (js "California - Work From Home") ∈ employees g
    /\ Sample.person 2 (js "CA") ∈ employees g.
Proof.
  destruct (groupEmployeesByLocation_groups Sample.staff Sample.loaded)
    as (_ & Hsame & _).
  apply (Hsame _ _ (subdivisionResult Sample.california "United States")
           (subdivisionResult Sample.california "United States")).
  - unfold Sample.staff. left.
  - unfold Sample.staff. right. left.
  - vm_compute. reflexivity.
  - vm_compute. reflexivity.
  - reflexivity.
Defined.

(** The end-to-end scenario of the specification: three groups, the two
    Californian entries in one of them; the unresolved and the empty
    location are left out. *)
Example staff_groups :
  List.map (fun kg => (kg.1, List.map id (employees kg.2)))
    (fst (groupEmployeesByLocation Sample.staff Sample.loaded))
  = [(js "36.78,-119.42", [1%Z; 2%Z]);
     (js "-38.42,-63.62", [3%Z]);
     (js "51.25,-85.32", [4%Z])].
Proof. vm_compute. reflexivity. Qed.

Local Set Warnings "-inexact-float".

(** Rounding to two decimals separates 37.7749 from 37.7751. *)
Example toFixed_37_77 :
  toFixed 37.7749 2 = js "37.77" /\ toFixed 37.7751 2 = js "37.78"
  /\ toFixed (-122.4194) 2 = js "-122.42"
  /\ toFixed (-122.4193) 2 = js "-122.42".
Proof. vm_compute. repeat split; reflexivity. Qed.

End GroupingExamples.

(** ** The directory payload *)

Section DirectoryFacts.
Import Directory MoreVocabulary.

Lemma sanitize_string (s : list N) :
  sanitizeString (Some (JStr s))
  = trim (List.filter (fun c => negb (c =? 0)%N) s).
Proof.
  cbn. unfold nulPattern. rewrite replace_cls. reflexivity.
Qed.

Lemma sanitize_other (value : option Json) :
  (forall s, value <> Some (JStr s)) -> sanitizeString value = [].
Proof. destruct value as [[] |]; try done. intros Hs. by destruct (Hs s). Qed.

Lemma sanitize_clean (value : option Json) : clean (sanitizeString value).
Proof.
  destruct value as [[| | | s | |] |]; try (split; [by inversion 1 | done]).
  rewrite sanitize_string. split; [| apply trim_idem].
  intros Hin%trim_elem. apply elem_of_bfilter in Hin as [_ Hz]. done.
Qed.

Lemma clean_fixed (s : list N) :
  clean s -> sanitizeString (Some (JStr s)) = s.
Proof.
  intros [Hz Ht]. rewrite sanitize_string, bfilter_all; [exact Ht |].
  apply Forall_forall. intros c Hc. apply negb_true_iff, N.eqb_neq.
  by intros ->.
Qed.

(** X1: [sanitizeString] returns the empty string for everything that is
    not a string; its result contains no U+0000, neither starts nor ends
    with white space, and is left unchanged when sanitised again. *)
Theorem sanitizeString_clean (value : option Json) :
  ((forall s, value <> Some (JStr s)) -> sanitizeString value = [])
  /\ (0%N ∉ sanitizeString value)
  /\ (forall c t, sanitizeString value = c :: t -> isWhiteSpace c = false)
  /\ (forall c t, sanitizeString value = t ++ [c] -> isWhiteSpace c = false)
  /\ sanitizeString (Some (JStr (sanitizeString value)))
     = sanitizeString value.
Proof.
  destruct (sanitize_clean value) as [Hz Ht].
  split; [apply sanitize_other |]. split; [exact Hz |].
  split; [| split].
  - intros c t Hs. rewrite <- Ht in Hs. by apply trim_head in Hs.
  - intros c t Hs. rewrite <- Ht in Hs. by apply trim_last in Hs.
  - by apply clean_fixed.
Qed.

Lemma sanitizeString_clean_witness :
  sanitizeString (Some (JNum 7%float)) = [].
Proof.
  destruct (sanitizeString_clean (Some (JNum 7%float))) as [Hother _].
  apply Hother. discriminate.
Defined.

Lemma validateEmployee_obj (props : list (list N * Json)) :
  validateEmployee (JObj props)
  = match getProp "id" (JObj props) with
    | None => None
    | Some i =>
        Some {| v_id := i;
                v_displayFirstName :=
                  sanitizeString (getProp "displayFirstName" (JObj props));
                v_firstName := sanitizeString (getProp "firstName" (JObj props));
                v_lastName := sanitizeString (getProp "lastName" (JObj props));
                v_displayName :=
                  sanitizeString (getProp "displayName" (JObj props));
                v_jobTitle := sanitizeString (getProp "jobTitle" (JObj props));
                v_department :=
                  sanitizeString (getProp "department" (JObj props));
                v_division := sanitizeString (getProp "division" (JObj props));
                v_location := sanitizeString (getProp "location" (JObj props));
                v_photoUrl := sanitizeString (getProp "photoUrl" (JObj props)) |}
    end.
Proof. reflexivity. Qed.

Lemma validateEmployee_other (emp : Json) :
  (forall props, emp <> JObj props) -> validateEmployee emp = None.
Proof.
  intros Hno. destruct emp as [| b | x | s | items | props];
    try reflexivity.
  - unfold validateEmployee. by destruct (negb (truthyJson (JBool b))).
  - unfold validateEmployee. by destruct (negb (truthyJson (JNum x))).
  - unfold validateEmployee. by destruct (negb (truthyJson (JStr s))).
  - by destruct (Hno props).
Qed.

Lemma validateEmployee_id (emp : Json) (v : ValidEmployee) :
  validateEmployee emp = Some v -> getProp "id" emp = Some (v_id v).
Proof.
  intros Hv. destruct emp as [| b | x | s | items | props];
    try (rewrite validateEmployee_other in Hv by discriminate; discriminate).
  rewrite validateEmployee_obj in Hv.
  destruct (getProp "id" (JObj props)) as [i |]; [| discriminate].
  by injection Hv as <-.
Qed.

(** X2: [validateEmployee] rejects exactly the values that are not objects
    with an [id] property (arrays, [null] and primitives among them);
    what it accepts keeps the [id] as it is, and each of its nine string
    fields is the sanitised property of the same name, hence free of
    U+0000 and of white space at both ends. *)
Theorem validateEmployee_valid (emp : Json) :
  (validateEmployee emp = None
   <-> (forall props, emp <> JObj props) \/ getProp "id" emp = None)
  /\ (forall v,
        validateEmployee emp = Some v ->
        getProp "id" emp = Some (v_id v)
        /\ v_location v = sanitizeString (getProp "location" emp)
        /\ stringFields v
           = List.map (fun key => sanitizeString (getProp key emp))
               fieldNames
        /\ Forall clean (stringFields v)).
Proof.
  split.
  - split.
    + intros Hn. destruct emp as [| b | x | s | items | props];
        try (left; discriminate).
      right. rewrite validateEmployee_obj in Hn.
      by destruct (getProp "id" (JObj props)).
    + intros [Hno | Hid]; [by apply validateEmployee_other |].
      destruct emp as [| b | x | s | items | props];
        try (apply validateEmployee_other; discriminate).
      by rewrite validateEmployee_obj, Hid.
  - intros v Hv. destruct emp as [| b | x | s | items | props];
      try (rewrite validateEmployee_other in Hv by discriminate; discriminate).
    rewrite validateEmployee_obj in Hv.
    destruct (getProp "id" (JObj props)) as [i |]; [| discriminate].
    injection Hv as <-. split; [reflexivity |]. split; [reflexivity |].
    split; [reflexivity |]. unfold stringFields.
    cbn [v_displayFirstName v_firstName v_lastName
      v_displayName v_jobTitle v_department v_division v_location v_photoUrl].
    repeat (constructor; [apply sanitize_clean |]). constructor.
Qed.

Lemma validateEmployee_valid_witness :
  exists v,
    validateEmployee
      (JObj [(js "id", JNum 7%float);
             (js "firstName", JStr (js " Ada"));
             (js "lastName", JStr (js "Lovelace "));
             (js "location", JStr (js "  Ontario "))]) = Some v
    /\ stringFields v
       = [[]; js "Ada"; js "Lovelace"; []; []; []; []; js "Ontario"; []].
Proof.
  eexists. split; [reflexivity |].
  destruct (validateEmployee_valid
              (JObj [(js "id", JNum 7%float);
                     (js "firstName", JStr (js " Ada"));
                     (js "lastName", JStr (js "Lovelace "));
                     (js "location", JStr (js "  Ontario "))]))
    as [_ Hv].
  destruct (Hv _ eq_refl) as (_ & _ & Hfields & _).
  rewrite Hfields. vm_compute. reflexivity.
Defined.

Lemma sanitize_truthy (s : list N) :
  truthy (sanitizeString (Some (JStr s)))
  = existsb (fun c => negb (c =? 0)%N && negb (isWhiteSpace c)) s.
Proof.
  rewrite sanitize_string.
  destruct (existsb _ s) eqn:Hex.
  - apply existsb_exists in Hex as (c & Hc & Hok).
    apply andb_prop in Hok as [Hz Hw]. apply truthy_true.
    intros He%trim_empty.
    assert (Hin : c ∈ List.filter (fun c => negb (c =? 0)%N) s)
      by (apply elem_of_bfilter; split; [by apply list_elem_of_In | done]).
    apply (proj1 (Forall_forall _ _) He) in Hin.
    apply negb_true_iff in Hw. congruence.
  - apply truthy_false, trim_empty, Forall_forall.
    intros c [Hc Hz]%elem_of_bfilter.
    destruct (isWhiteSpace c) eqn:Hw; [done |]. exfalso.
    assert (Hyes : existsb
                     (fun c => negb (c =? 0)%N && negb (isWhiteSpace c)) s
                   = true).
    { apply existsb_exists. exists c.
      split; [by apply list_elem_of_In | by rewrite Hz, Hw]. }
    congruence.
Qed.

Lemma placeable_validate (emp : Json) :
  placeable emp = true
  <-> exists v, validateEmployee emp = Some v /\ truthy (v_location v) = true.
Proof.
  destruct emp as [| b | x | s | items | props];
    try (split; [discriminate |];
         intros (v & Hv & _);
         rewrite validateEmployee_other in Hv by discriminate; discriminate).
  unfold placeable. rewrite validateEmployee_obj.
  destruct (getProp "id" (JObj props)) as [i |].
  - destruct (getProp "location" (JObj props)) as [[| | | s | |] |] eqn:Hl;
      try (split; [discriminate | by intros (v & [= <-] & Ht)]).
    rewrite <- sanitize_truthy. split.
    + intros Ht. eexists. split; [reflexivity | exact Ht].
    + by intros (v & [= <-] & Ht).
  - split; [discriminate | by intros (v & [=] & _)].
Qed.

Lemma processEmployeeData_cons (v : ValidEmployee) (l : list ValidEmployee) :
  List.map p_id (processEmployeeData (v :: l))
  = (if truthy (v_location v) then [v_id v] else [])
      ++ List.map p_id (processEmployeeData l).
Proof.
  unfold processEmployeeData. cbn [List.map List.filter p_location].
  by destruct (truthy (v_location v)).
Qed.

(** X3: of the entries of a payload, [validateEmployee] followed by
    [processEmployeeData] keeps, in their order, exactly the objects with
    an [id] whose [location] is a string holding a character other than
    U+0000 and white space; every record kept has a non-empty
    location. *)
Theorem processEmployeeData_placeable (rawEmployees : list Json) :
  List.map p_id (processEmployeeData (omap validateEmployee rawEmployees))
  = omap (getProp "id") (List.filter placeable rawEmployees)
  /\ Forall (fun p => p_location p <> [])
       (processEmployeeData (omap validateEmployee rawEmployees)).
Proof.
  split.
  - induction rawEmployees as [| emp raws IH]; [reflexivity |].
    cbn [omap list_omap List.filter].
    destruct (placeable emp) eqn:Hp.
    + apply placeable_validate in Hp as (v & Hv & Ht).
      rewrite Hv. rewrite processEmployeeData_cons, Ht. cbn [app].
      cbn [omap list_omap].
      rewrite (validateEmployee_id emp v Hv). f_equal. exact IH.
    + destruct (validateEmployee emp) as [v |] eqn:Hv; [| exact IH].
      rewrite processEmployeeData_cons.
      destruct (truthy (v_location v)) eqn:Ht; [| exact IH].
      exfalso. assert (placeable emp = true)
        by (apply placeable_validate; eauto). congruence.
  - apply Forall_forall. intros p Hp. unfold processEmployeeData in Hp.
    apply elem_of_bfilter in Hp as [_ Ht]. by apply truthy_true.
Qed.

End DirectoryFacts.

(** ** Paging through the directory *)

Section FetchFacts.
Import Directory MoreVocabulary MoreSample.

Lemma fetchLoop_step (server : nat -> Response) (fuel page : nat)
    (allEmployees : list ValidEmployee) :
  fetchLoop server (S fuel) page allEmployees
  = match pageItems server page with
    | Some rawEmployees =>
        if (length rawEmployees <? limit)%nat
        then Some (allEmployees ++ pageValid server page)
        else fetchLoop server fuel (S page)
               (allEmployees ++ pageValid server page)
    | None => Some allEmployees
    end.
Proof.
  unfold pageValid, pageItems. cbn [fetchLoop].
  destruct (server page) as [| | | data]; try reflexivity.
  by destruct (employeesOf data).
Qed.

Lemma fetchLoop_last (server : nat -> Response) (fuel page : nat)
    (allEmployees : list ValidEmployee) :
  (forall raw, pageItems server page = Some raw -> (length raw < limit)%nat) ->
  fetchLoop server (S fuel) page allEmployees
  = Some (allEmployees ++ pageValid server page).
Proof.
  intros Hshort. rewrite fetchLoop_step. unfold pageValid.
  destruct (pageItems server page) as [raw |] eqn:Hp.
  - specialize (Hshort raw eq_refl).
    by destruct (Nat.ltb_spec (length raw) limit); [| lia].
  - cbn. by rewrite app_nil_r.
Qed.

Lemma fetchLoop_pages (server : nat -> Response) (more : nat) :
  forall (fuel page : nat) (allEmployees : list ValidEmployee),
    (forall k, (page <= k < page + more)%nat ->
               exists raw, pageItems server k = Some raw
                           /\ (limit <= length raw)%nat) ->
    (forall raw, pageItems server (page + more) = Some raw ->
                 (length raw < limit)%nat) ->
    (more < fuel)%nat ->
    fetchLoop server fuel page allEmployees
    = Some (allEmployees
              ++ concat (List.map (pageValid server) (seq page (S more)))).
Proof.
  induction more as [| more IH]; intros fuel page allEmployees Hfull Hlast Hf.
  - destruct fuel as [| fuel]; [lia |].
    rewrite Nat.add_0_r in Hlast. rewrite fetchLoop_last by done.
    cbn. by rewrite app_nil_r.
  - destruct fuel as [| fuel]; [lia |].
    rewrite fetchLoop_step.
    destruct (Hfull page) as (raw & -> & Hlen); [lia |].
    destruct (Nat.ltb_spec (length raw) limit); [lia |].
    rewrite (IH fuel (S page)).
    + rewrite <- app_assoc. reflexivity.
    + intros k Hk. apply Hfull. lia.
    + intros raw' Hr. apply Hlast. by rewrite <- Nat.add_succ_comm.
    + lia.
Qed.

(** X4: if the pages before page [n] are full (at least [limit] entries)
    and page [n] is either short or cannot be had (network error, bad
    status, unreadable body), then, given room for [n] requests,
    [fetchEmployees] returns the valid records of pages 1 to [n] in
    order, the page that failed adding none: an error ends the loop but
    loses nothing already collected. *)
Theorem fetchEmployees_pages (server : nat -> Response) (n fuel : nat) :
  (1 <= n)%nat ->
  (forall k, (1 <= k < n)%nat ->
             exists raw, pageItems server k = Some raw
                         /\ (limit <= length raw)%nat) ->
  (forall raw, pageItems server n = Some raw -> (length raw < limit)%nat) ->
  (n <= fuel)%nat ->
  fetchEmployees server fuel
  = Some (concat (List.map (pageValid server) (seq 1 n))).
Proof.
  intros Hn Hfull Hlast Hfuel. unfold fetchEmployees.
  destruct n as [| more]; [lia |].
  rewrite (fetchLoop_pages server more); [reflexivity | | | lia].
  - intros k Hk. apply Hfull. lia.
  - intros raw Hr. apply Hlast. exact Hr.
Qed.

Lemma fetchEmployees_pages_witness :
  option_map (@length _) (fetchEmployees fullThenDown 2) = Some 99%nat.
Proof.
  rewrite (fetchEmployees_pages fullThenDown 2 2).
  - vm_compute. reflexivity.
  - lia.
  - intros k Hk. assert (k = 1%nat) as -> by lia.
    eexists. split; [reflexivity |]. vm_compute. lia.
  - intros raw Hr. discriminate Hr.
  - lia.
Defined.

End FetchFacts.

(** ** The filters *)

Section OrderFacts.
Import Filters.

Lemma unitsLt_irrefl (a : list N) : unitsLt a a = false.
Proof.
  induction a as [| x a IH]; [reflexivity |]. cbn.
  by rewrite N.ltb_irrefl, N.eqb_refl, IH.
Qed.

Lemma unitsLt_cons (x y : N) (a b : list N) :
  unitsLt (x :: a) (y :: b) = true
  <-> (x < y)%N \/ (x = y /\ unitsLt a b = true).
Proof.
  cbn. rewrite orb_true_iff, andb_true_iff, N.ltb_lt, N.eqb_eq. reflexivity.
Qed.

Lemma unitsLt_trans (a b c : list N) :
  unitsLt a b = true -> unitsLt b c = true -> unitsLt a c = true.
Proof.
  revert b c. induction a as [| x a IH]; intros [| y b] [| z c];
    try done.
  rewrite !unitsLt_cons. intros [Hxy | [-> Hab]] [Hyz | [-> Hbc]].
  - left. lia.
  - by left.
  - by left.
  - right. split; [done |]. by apply (IH b).
Qed.

Lemma unitsLt_total (a b : list N) :
  a <> b -> unitsLt a b = false -> unitsLt b a = true.
Proof.
  revert b. induction a as [| x a IH]; intros [| y b] Hne Hlt; try done.
  apply unitsLt_cons. cbn in Hlt.
  apply orb_false_iff in Hlt as [Hxy Hrest]. apply N.ltb_ge in Hxy.
  destruct (N.eq_dec x y) as [-> | Hn]; [| left; lia].
  right. split; [done |]. rewrite N.eqb_refl in Hrest. cbn in Hrest.
  apply IH; [| done]. by intros ->.
Qed.

Lemma insertSorted_elem (x y : list N) (l : list (list N)) :
  y ∈ insertSorted x l <-> y = x \/ y ∈ l.
Proof.
  induction l as [| z l IH]; cbn.
  - rewrite list_elem_of_singleton, elem_of_nil. tauto.
  - destruct (unitsLt z x); rewrite !elem_of_cons; [rewrite IH |]; tauto.
Qed.

Lemma insertSorted_sorted (x : list N) (l : list (list N)) :
  x ∉ l ->
  StronglySorted (fun a b => unitsLt a b = true) l ->
  StronglySorted (fun a b => unitsLt a b = true) (insertSorted x l).
Proof.
  intros Hx Hs. induction Hs as [| z l Hs IH Hz]; cbn.
  - repeat constructor.
  - apply not_elem_of_cons in Hx as [Hxz Hxl].
    destruct (unitsLt z x) eqn:Hzx.
    + constructor; [by apply IH |]. apply Forall_forall.
      intros y [-> | Hy]%insertSorted_elem; [done |].
      by apply (proj1 (Forall_forall _ _) Hz).
    + assert (Hlt : unitsLt x z = true) by (by apply unitsLt_total).
      constructor; [by constructor |]. constructor; [done |].
      apply Forall_forall. intros y Hy. apply (unitsLt_trans _ z); [done |].
      by apply (proj1 (Forall_forall _ _) Hz).
Qed.

Lemma sortStrings_elem (l : list (list N)) (y : list N) :
  y ∈ sortStrings l <-> y ∈ l.
Proof.
  induction l as [| x l IH]; [done |]. cbn [sortStrings fold_right].
  fold (sortStrings l). rewrite insertSorted_elem, elem_of_cons, IH. tauto.
Qed.

Lemma sortStrings_sorted (l : list (list N)) :
  NoDup l -> StronglySorted (fun a b => unitsLt a b = true) (sortStrings l).
Proof.
  induction 1 as [| x l Hx _ IH]; [constructor |].
  cbn [sortStrings fold_right]. fold (sortStrings l).
  apply insertSorted_sorted; [| done]. by rewrite sortStrings_elem.
Qed.

Lemma getUniqueValues_set (field : FilterName) (employeeList : list Employee) :
  getUniqueValues field employeeList
  = sortStrings
      (newSet (List.filter truthy (List.map (fieldOf field) employeeList))).
Proof.
  unfold getUniqueValues, newSet. f_equal. generalize (@nil (list N)).
  induction employeeList as [| emp l IH]; intros acc; [reflexivity |].
  cbn [fold_left List.map List.filter].
  destruct (truthy (fieldOf field emp)); cbn [fold_left]; apply IH.
Qed.

Lemma getUniqueValues_elem (field : FilterName) (employeeList : list Employee)
    (value : list N) :
  value ∈ getUniqueValues field employeeList
  <-> value <> [] /\ exists emp, emp ∈ employeeList /\ fieldOf field emp = value.
Proof.
  rewrite getUniqueValues_set, sortStrings_elem, newSet_elem,
    filter_truthy_elem, elem_of_map.
  split.
  - intros [(emp & -> & He) Hne]. eauto.
  - intros [Hne (emp & He & <-)]. eauto.
Qed.

(** X5: [getUniqueValues] lists exactly the non-empty values that the
    field takes among the employees given, each once, in strictly
    ascending order of code units. *)
Theorem getUniqueValues_sorted (field : FilterName)
    (employeeList : list Employee) :
  (forall value,
     value ∈ getUniqueValues field employeeList
     <-> value <> []
         /\ exists emp, emp ∈ employeeList /\ fieldOf field emp = value)
  /\ StronglySorted (fun a b => unitsLt a b = true)
       (getUniqueValues field employeeList).
Proof.
  split; [apply getUniqueValues_elem |].
  rewrite getUniqueValues_set. apply sortStrings_sorted, newSet_NoDup.
Qed.

End OrderFacts.

Section FilterFacts.
Import Filters.
Context `{Host}.

Lemma isExcluded_None (f : FilterName) : isExcluded None f = false.
Proof. by destruct f. Qed.

Lemma passesFilters_reset (cur : Filters) (x : FilterName) (emp : Employee) :
  passesFilters cur (Some x) emp = passesFilters (resetFilter cur x) None emp.
Proof. destruct x; unfold passesFilters; cbn; reflexivity. Qed.

Lemma passesFilters_weaken (cur : Filters) (x : option FilterName)
    (emp : Employee) :
  passesFilters cur None emp = true -> passesFilters cur x emp = true.
Proof.
  unfold passesFilters. cbn [isExcluded orb].
  rewrite !andb_true_iff. intros [[[Hn Hj] Hd] Hv].
  repeat split; (destruct (isExcluded x _); [reflexivity | assumption]).
Qed.

Lemma getActiveFilterCount_zero (cur : Filters) :
  getActiveFilterCount cur = 0%nat <-> cur = noFilters.
Proof.
  unfold noFilters.
  destruct cur as [[| ? ?] [| ? ?] [| ? ?] [| ? ?]]; cbn; split;
    intros Hx; (reflexivity || discriminate Hx).
Qed.

(** X6: leaving a filter out of [filterEmployeesExcluding] is the same as
    filtering with that filter cleared; the employees that pass all the
    filters are among those that pass with one left out, and in the same
    order; and when [getActiveFilterCount] is 0 every employee passes. *)
Theorem filterEmployeesExcluding_cascade (allEmployeesData : list Employee)
    (cur : Filters) (excludeFilter : FilterName) :
  filterEmployeesExcluding allEmployeesData cur (Some excludeFilter)
  = filterEmployees allEmployeesData (resetFilter cur excludeFilter)
  /\ filterEmployees allEmployeesData cur
     = List.filter (passesFilters cur None)
         (filterEmployeesExcluding allEmployeesData cur (Some excludeFilter))
  /\ (getActiveFilterCount cur = 0%nat ->
      filterEmployees allEmployeesData cur = allEmployeesData).
Proof.
  unfold filterEmployees, filterEmployeesExcluding. split; [| split].
  - apply filter_ext. intros emp. apply passesFilters_reset.
  - induction allEmployeesData as [| emp l IH]; [reflexivity |].
    cbn [List.filter].
    destruct (passesFilters cur None emp) eqn:Hp.
    + rewrite (passesFilters_weaken _ (Some excludeFilter) _ Hp).
      cbn [List.filter]. rewrite Hp. by f_equal.
    + destruct (passesFilters cur (Some excludeFilter) emp); [| exact IH].
      cbn [List.filter]. by rewrite Hp.
  - intros ->%getActiveFilterCount_zero. apply bfilter_all, Forall_forall.
    intros emp _. reflexivity.
Qed.

Lemma updateDropdown_name (present : bool) (f : FilterName)
    (availableValues : list (list N)) (cur : Filters) :
  f <> FName ->
  f_name (updateDropdown present f availableValues cur) = f_name cur.
Proof.
  intros Hf. unfold updateDropdown. destruct (negb present); [done |].
  destruct (_ && _); [| done]. by destruct f.
Qed.

Lemma updateDropdown_keeps (present : bool) (f : FilterName)
    (availableValues : list (list N)) (cur : Filters) :
  (filterValue cur f <> [] -> filterValue cur f ∈ availableValues) ->
  updateDropdown present f availableValues cur = cur.
Proof.
  intros Hin. unfold updateDropdown. destruct (negb present); [done |].
  destruct (truthy (filterValue cur f)) eqn:Ht; [| done].
  apply truthy_true in Ht. by rewrite bool_decide_true by auto.
Qed.

Lemma passes_field (cur : Filters) (emp : Employee) (f : FilterName) :
  f <> FName ->
  passesFilters cur None emp = true ->
  filterValue cur f <> [] ->
  fieldOf f emp = filterValue cur f.
Proof.
  intros Hf Hp Hne. unfold passesFilters in Hp. cbn [isExcluded orb] in Hp.
  apply andb_true_iff in Hp as [Hp Hv].
  apply andb_true_iff in Hp as [Hp Hd].
  apply andb_true_iff in Hp as [_ Hj].
  apply truthy_true in Hne.
  destruct f; [done | | |]; cbn in Hne |- *.
  - rewrite Hne in Hj. by apply bool_decide_eq_true in Hj.
  - rewrite Hne in Hd. by apply bool_decide_eq_true in Hd.
  - rewrite Hne in Hv. by apply bool_decide_eq_true in Hv.
Qed.

Lemma available_selected (allEmployeesData : list Employee) (cur : Filters)
    (emp : Employee) (f : FilterName) :
  f <> FName ->
  emp ∈ filterEmployees allEmployeesData cur ->
  filterValue cur f <> [] ->
  filterValue cur f
  ∈ getUniqueValues f (filterEmployeesExcluding allEmployeesData cur (Some f)).
Proof.
  intros Hf [He Hp]%elem_of_bfilter Hne.
  apply getUniqueValues_elem. split; [done |]. exists emp. split.
  - apply elem_of_bfilter. split; [done |]. by apply passesFilters_weaken.
  - by apply passes_field.
Qed.

(** X7: [updateFilterDropdowns] never touches the name filter, and when
    some employee passes all the current filters it resets no filter at
    all: each selected value is then among the values offered by its own
    dropdown. *)
Theorem updateFilterDropdowns_stable (present : FilterName -> bool)
    (allEmployeesData : list Employee) (cur : Filters) :
  f_name (updateFilterDropdowns present allEmployeesData cur) = f_name cur
  /\ (filterEmployees allEmployeesData cur <> [] ->
      updateFilterDropdowns present allEmployeesData cur = cur).
Proof.
  split.
  - unfold updateFilterDropdowns. by rewrite !updateDropdown_name.
  - intros Hne.
    destruct (filterEmployees allEmployeesData cur) as [| emp l] eqn:Hf;
      [done |].
    assert (He : emp ∈ filterEmployees allEmployeesData cur)
      by (rewrite Hf; left).
    unfold updateFilterDropdowns.
    rewrite (updateDropdown_keeps _ FJobTitle)
      by (by apply (available_selected _ _ emp)).
    rewrite (updateDropdown_keeps _ FDepartment)
      by (by apply (available_selected _ _ emp)).
    by apply updateDropdown_keeps, (available_selected _ _ emp).
Qed.

End FilterFacts.

Section FilterExamples.
Import Filters.
#[local] Existing Instance latin1Host.

Lemma filterEmployeesExcluding_cascade_witness :
  filterEmployees Sample.staff noFilters = Sample.staff.
Proof.
  destruct (filterEmployeesExcluding_cascade Sample.staff noFilters FName)
    as (_ & _ & Hall).
  apply Hall. reflexivity.
Defined.

(** Two engineers of the research department pass the three selected
    filters, and the selection is kept. *)
Lemma updateFilterDropdowns_stable_witness :
  List.map id (filterEmployees MoreSample.team MoreSample.engineers)
  = [1%Z; 2%Z]
  /\ updateFilterDropdowns (fun _ => true) MoreSample.team
       MoreSample.engineers
     = MoreSample.engineers.
Proof.
  split; [vm_compute; reflexivity |].
  destruct (updateFilterDropdowns_stable (fun _ => true) MoreSample.team
              MoreSample.engineers) as [_ Hkeep].
  apply Hkeep. vm_compute. discriminate.
Defined.

(** When no employee passes, selected values are reset: each dropdown
    offers the values left by the other filters, and neither selected
    value is among them. *)
Example updateFilterDropdowns_resets :
  filterEmployees MoreSample.team MoreSample.nobody = []
  /\ updateFilterDropdowns (fun _ => true) MoreSample.team MoreSample.nobody
     = noFilters.
Proof. vm_compute. split; reflexivity. Qed.

End FilterExamples.

(** ** The groups and their pins *)

Section GroupOrder.
Import MoreVocabulary.
Context `{Host}.
Variable geocoded : gmap (list N) (option GeocodeResult).

Lemma addEmployee_keys (groups : JsMap LocationGroup) (e : Employee) :
  List.map fst (addEmployee geocoded groups e)
  = match groupKey geocoded e with
    | Some k => setAdd (List.map fst groups) k
    | None => List.map fst groups
    end.
Proof.
  rewrite addEmployee_unfold. unfold groupKey.
  destruct (coordsOf geocoded e) as [coords |]; [| reflexivity].
  cbn [fmap option_fmap option_map]. rewrite mapAlter_keys. unfold setAdd.
  destruct (mapHas (keyOf coords) groups) eqn:Hhas.
  - apply mapHas_elem in Hhas. by rewrite bool_decide_true.
  - rewrite bool_decide_false.
    + by rewrite List.map_app.
    + intros Hin%mapHas_elem. congruence.
Qed.

Lemma fold_addEmployee_keys (rest : list Employee)
    (groups : JsMap LocationGroup) :
  List.map fst (fold_left (addEmployee geocoded) rest groups)
  = fold_left setAdd (omap (groupKey geocoded) rest) (List.map fst groups).
Proof.
  revert groups. induction rest as [| e rest IH]; intros groups;
    [reflexivity |].
  cbn [fold_left omap list_omap]. rewrite IH, addEmployee_keys.
  by destruct (groupKey geocoded e).
Qed.

Lemma anchored_push (g : LocationGroup) (e : Employee) :
  anchored geocoded g -> anchored geocoded (pushEmployee e g).
Proof.
  intros (e0 & rest & coords & He & Hc & Hlat & Hlng & Hname).
  exists e0, (rest ++ [e]), coords. cbn. by rewrite He.
Qed.

Lemma anchored_step (groups : JsMap LocationGroup) (e : Employee) :
  Forall (fun kg => anchored geocoded kg.2) groups ->
  Forall (fun kg => anchored geocoded kg.2) (addEmployee geocoded groups e).
Proof.
  intros Hall. rewrite addEmployee_unfold.
  destruct (coordsOf geocoded e) as [coords |] eqn:Hc; [| exact Hall].
  assert (Hold : Forall (fun kg => anchored geocoded kg.2)
                   (mapAlter (pushEmployee e) (keyOf coords) groups)).
  { unfold mapAlter. apply Forall_forall. intros kg Hin.
    apply elem_of_map in Hin as ([k g] & -> & Hin).
    apply (proj1 (Forall_forall _ _) Hall) in Hin. cbn [fst snd] in *.
    case_bool_decide; [by apply anchored_push | done]. }
  destruct (mapHas (keyOf coords) groups); [exact Hold |].
  unfold mapAlter in *. rewrite List.map_app. apply Forall_app.
  split; [exact Hold |]. cbn [List.map fst snd].
  rewrite bool_decide_true by done. constructor; [| constructor].
  exists e, [], coords. cbn. done.
Qed.

Lemma anchored_fold (rest : list Employee) (groups : JsMap LocationGroup) :
  Forall (fun kg => anchored geocoded kg.2) groups ->
  Forall (fun kg => anchored geocoded kg.2)
    (fold_left (addEmployee geocoded) rest groups).
Proof.
  revert groups. induction rest as [| e rest IH]; intros groups Hall;
    [exact Hall |].
  cbn [fold_left]. apply IH, anchored_step, Hall.
Qed.

End GroupOrder.

Section GroupOrderProperties.
Import MoreVocabulary.
Context `{Host}.

(** X8: the groups of [groupEmployeesByLocation] come in the order in
    which their keys first occur among the employees, and each group
    carries the latitude and longitude of its first member's coordinate,
    and that coordinate's name, or the first member's location when the
    name is empty; members that join later change none of the three. *)
Theorem groupEmployeesByLocation_order (employeeList : list Employee)
    (w : World) :
  let geocoded :=
    fst (geocodeBatch
           (List.filter truthy (List.map location employeeList)) w) in
  let groups := fst (groupEmployeesByLocation employeeList w) in
  List.map fst groups = newSet (omap (groupKey geocoded) employeeList)
  /\ forall k g, (k, g) ∈ groups ->
       exists e rest coords,
         employees g = e :: rest
         /\ coordsOf geocoded e = Some coords
         /\ grp_lat g = res_lat coords
         /\ grp_lng g = res_lng coords
         /\ grp_name g = (if truthy (res_name coords) then res_name coords
                          else location e).
Proof.
  intros geocoded groups. unfold groups.
  rewrite groupEmployeesByLocation_fold. fold geocoded. split.
  - by rewrite fold_addEmployee_keys.
  - intros k g Hin.
    pose proof (anchored_fold geocoded employeeList [] (Forall_nil_2 _))
      as Hall.
    apply (proj1 (Forall_forall _ _) Hall) in Hin. exact Hin.
Qed.

End GroupOrderProperties.

Section PinFacts.
Import Pins.
Local Open Scope R_scope.

Lemma fold_max_ge (rest : list LocationGroup) (m : Z) :
  (m <= fold_left (fun m l' => Z.max m (Z.of_nat (length (employees l'))))
          rest m)%Z
  /\ forall d, d ∈ rest ->
       (Z.of_nat (length (employees d))
        <= fold_left (fun m l' => Z.max m (Z.of_nat (length (employees l'))))
             rest m)%Z.
Proof.
  revert m. induction rest as [| l rest IH]; intros m; cbn [fold_left].
  - split; [lia |]. intros d Hd. inversion Hd.
  - destruct (IH (Z.max m (Z.of_nat (length (employees l))))) as [Hm Hin].
    split; [lia |]. intros d [-> | Hd]%elem_of_cons; [lia | by apply Hin].
Qed.

Lemma fold_max_attained (rest : list LocationGroup) (m : Z) :
  fold_left (fun m l' => Z.max m (Z.of_nat (length (employees l')))) rest m
  = m
  \/ exists d, d ∈ rest
       /\ Z.of_nat (length (employees d))
          = fold_left
              (fun m l' => Z.max m (Z.of_nat (length (employees l'))))
              rest m.
Proof.
  revert m. induction rest as [| l rest IH]; intros m; cbn [fold_left].
  - by left.
  - destruct (IH (Z.max m (Z.of_nat (length (employees l)))))
      as [Heq | (d & Hd & Heq)].
    + rewrite Heq. destruct (Z.max_spec m (Z.of_nat (length (employees l))))
        as [[_ ->] | [_ ->]]; [| by left].
      right. exists l. split; [left | done].
    + right. exists d. split; [by right | done].
Qed.

Lemma maxCountOf_ge (locations : list LocationGroup) (d : LocationGroup) :
  d ∈ locations ->
  (Z.of_nat (length (employees d)) <= maxCountOf locations)%Z.
Proof.
  destruct locations as [| l rest]; [by inversion 1 |].
  cbn [maxCountOf]. intros [-> | Hd]%elem_of_cons.
  - apply (proj1 (fold_max_ge _ _)).
  - by apply (proj2 (fold_max_ge _ _)).
Qed.

Lemma maxCountOf_attained (locations : list LocationGroup) :
  locations <> [] ->
  exists d, d ∈ locations
            /\ Z.of_nat (length (employees d)) = maxCountOf locations.
Proof.
  destruct locations as [| l rest]; [done |]. intros _. cbn [maxCountOf].
  destruct (fold_max_attained rest (Z.of_nat (length (employees l))))
    as [Heq | (d & Hd & Heq)].
  - exists l. split; [left | by rewrite Heq].
  - exists d. split; [by right | done].
Qed.

Lemma pinRadii_map (locations : list LocationGroup) :
  pinRadii locations
  = List.map
      (fun d => getPinRadius (Z.of_nat (length (employees d)))
                  (maxCountOf locations))
      locations.
Proof. by destruct locations. Qed.

Lemma pinRadii_range (locations : list LocationGroup) :
  (forall d, d ∈ locations -> employees d <> []) ->
  (forall r, r ∈ pinRadii locations -> 6 < r <= 20)
  /\ (locations <> [] -> 20 ∈ pinRadii locations).
Proof.
  intros Hne.
  assert (Hone : forall d, d ∈ locations ->
                           (1 <= Z.of_nat (length (employees d)))%Z).
  { intros d Hd. specialize (Hne d Hd).
    destruct (employees d); [done | cbn; lia]. }
  rewrite pinRadii_map. split.
  - intros r (d & -> & Hd)%elem_of_map.
    pose proof (Hone d Hd) as H1. pose proof (maxCountOf_ge _ _ Hd) as Hle.
    split; [apply getPinRadius_above_base; lia |].
    rewrite <- (getPinRadius_top (maxCountOf locations)) by lia.
    apply getPinRadius_mono; lia.
  - intros Hl. destruct (maxCountOf_attained locations Hl) as (d & Hd & Heq).
    apply elem_of_map. exists d. split; [| done].
    rewrite Heq. symmetry. apply getPinRadius_top. rewrite <- Heq. by apply Hone.
Qed.

End PinFacts.

Section PinProperties.
Import Pins.
Context `{Host}.
Local Open Scope R_scope.

(** X9: when the groups of [groupEmployeesByLocation] are handed to
    [renderPins], as [updateMapWithFilters] does, there is one circle per
    group, every radius lies above the base radius 6 and at most at the
    largest radius 20, and, when there is a group at all, a largest group
    is drawn with radius 20. *)
Theorem renderPins_groups (employeeList : list Employee) (w : World) :
  let locations :=
    List.map snd (fst (groupEmployeesByLocation employeeList w)) in
  length (pinRadii locations) = length locations
  /\ (forall r, r ∈ pinRadii locations -> 6 < r <= 20)
  /\ (locations <> [] -> 20 ∈ pinRadii locations).
Proof.
  intros locations. split.
  - rewrite pinRadii_map. by rewrite length_map.
  - apply pinRadii_range. intros d ([k g] & -> & Hin)%elem_of_map.
    cbn [snd]. rewrite groupEmployeesByLocation_fold in Hin.
    eapply grouped_nonempty; [| exact Hin].
    apply (grouped_fold _ employeeList [] []), grouped_nil.
Qed.

End PinProperties.

Section PinExamples.
Import Pins.
#[local] Existing Instance latin1Host.
Local Open Scope R_scope.

Lemma renderPins_groups_witness :
  20 ∈ pinRadii
         (List.map snd (fst (groupEmployeesByLocation Sample.staff
                               Sample.loaded))).
Proof.
  destruct (renderPins_groups Sample.staff Sample.loaded) as (_ & _ & Htop).
  apply Htop. vm_compute. discriminate.
Defined.

End PinExamples.

(** ** The popup *)

Section AvatarFacts.
Import BambooPopup.

Lemma fold_sum_acc (l : list N) (acc : N) :
  fold_left (fun acc char => acc + char)%N l acc
  = (acc + fold_left (fun acc char => acc + char) l 0)%N.
Proof.
  revert acc. induction l as [| c l IH]; intros acc; cbn [fold_left].
  - lia.
  - rewrite (IH (acc + c)%N), (IH (0 + c)%N). lia.
Qed.

Lemma fold_sum_perm (l1 l2 : list N) :
  Permutation l1 l2 ->
  fold_left (fun acc char => acc + char)%N l1 0%N
  = fold_left (fun acc char => acc + char)%N l2 0%N.
Proof.
  induction 1 as [| c l1 l2 _ IH | c d l | l1 l2 l3 _ IH1 _ IH2];
    cbn [fold_left].
  - reflexivity.
  - rewrite (fold_sum_acc l1), (fold_sum_acc l2). by rewrite IH.
  - rewrite (fold_sum_acc l (0 + d + c)), (fold_sum_acc l (0 + c + d)). lia.
  - by rewrite IH1.
Qed.

(** X10: [getAvatarColor] always yields one of the ten colours, never
    [undefined], and the colour depends only on the characters of the two
    names taken together, not on their order or on where the first name
    ends. *)
Theorem getAvatarColor_palette (firstName lastName : list N) :
  (exists color, getAvatarColor firstName lastName = Some color
                 /\ color ∈ colors)
  /\ forall firstName' lastName',
       Permutation (firstName ++ lastName) (firstName' ++ lastName') ->
       getAvatarColor firstName' lastName'
       = getAvatarColor firstName lastName.
Proof.
  split.
  - unfold getAvatarColor.
    assert (Hlt : (N.to_nat (colorIndex firstName lastName)
                   < length colors)%nat).
    { unfold colorIndex.
      pose proof (N.mod_upper_bound
                    (fold_left (fun acc char => acc + char)%N
                       (firstName ++ lastName) 0%N)
                    (N.of_nat (length colors))) as Hb.
      cbn in Hb |- *. lia. }
    destruct (nth_error colors (N.to_nat (colorIndex firstName lastName)))
      as [color |] eqn:Hn.
    + exists color. split; [done |].
      apply list_elem_of_In. by apply nth_error_In in Hn.
    + apply nth_error_None in Hn. lia.
  - intros firstName' lastName' Hperm. unfold getAvatarColor, colorIndex.
    by rewrite (fold_sum_perm _ _ Hperm).
Qed.

Lemma getAvatarColor_palette_witness :
  getAvatarColor (js "Li") (js "Ada") = getAvatarColor (js "Ada") (js "Li").
Proof.
  destruct (getAvatarColor_palette (js "Ada") (js "Li")) as [_ Hperm].
  apply Hperm. apply (Permutation_app_comm (js "Ada") (js "Li")).
Defined.

End AvatarFacts.

Section PhotoFacts.
Import BambooPopup.
Context `{Host}.
Variable parseURL : list N -> option (list N * list N).

Lemma endsWith_spec (s suffix : list N) :
  endsWith s suffix = true <-> exists pre, s = pre ++ suffix.
Proof.
  unfold endsWith. rewrite andb_true_iff, bool_decide_eq_true, Nat.leb_le.
  split.
  - intros [Hd _]. exists (take (length s - length suffix) s).
    symmetry.
    etrans; [| apply (take_drop (length s - length suffix) s)].
    by rewrite Hd.
  - intros (pre & ->). rewrite length_app. split; [| lia].
    replace (length pre + length suffix - length suffix)%nat
      with (length pre) by lia.
    by rewrite drop_app_length.
Qed.

(** X11: [isValidPhotoUrl] accepts a URL exactly when it is not empty,
    parses, has the protocol [https:], and its host name in lower case is
    one of [bamboohr.com], [cloudfront.net] and [amazonaws.com] or ends
    with a dot followed by one of them; in particular a host that merely
    ends with the letters of a trusted domain is refused. *)
Theorem isValidPhotoUrl_spec (url : list N) :
  isValidPhotoUrl parseURL url = true
  <-> url <> []
      /\ exists host,
           parseURL url = Some (js "https:", host)
           /\ exists domain,
                domain ∈ ["bamboohr.com"; "cloudfront.net";
                          "amazonaws.com"]%string
                /\ (toLowerCase host = js domain
                    \/ exists sub,
                         toLowerCase host = sub ++ js "." ++ js domain).
Proof.
  unfold isValidPhotoUrl.
  destruct url as [| c url]; cbn [truthy negb]; [split; [done | by intros []] |].
  destruct (parseURL (c :: url)) as [[protocol host] |];
    [| split; [done | by intros (_ & host & [=] & _)]].
  case_bool_decide as Hp; cbn [negb].
  - subst protocol. unfold trustedDomains. cbn [existsb].
    rewrite !orb_true_iff, !bool_decide_eq_true, !endsWith_spec. split.
    + intros Hd. split; [done |]. exists host. split; [done |].
      destruct Hd as [[Heq | Hsub] | [[Heq | Hsub] | [[Heq | Hsub] | Hf]]];
        [| | | | | | discriminate Hf].
      * exists "bamboohr.com"%string. split; [left | by left].
      * exists "bamboohr.com"%string. split; [left | by right].
      * exists "cloudfront.net"%string. split; [right; left | by left].
      * exists "cloudfront.net"%string. split; [right; left | by right].
      * exists "amazonaws.com"%string. split; [do 2 right; left | by left].
      * exists "amazonaws.com"%string. split; [do 2 right; left | by right].
    + intros (_ & host' & [= <-] & domain & Hin & Hd).
      apply elem_of_cons in Hin as [-> | Hin]; [left; exact Hd |].
      apply elem_of_cons in Hin as [-> | Hin]; [right; left; exact Hd |].
      apply elem_of_cons in Hin as [-> | Hin];
        [right; right; left; exact Hd | inversion Hin].
  - split; [done |]. intros (_ & host' & [= -> _] & _). done.
Qed.

End PhotoFacts.

Section PopupPosition.
Import BambooPopup.
Local Open Scope R_scope.

(** X12: [positionPopup] never places the popup closer than the padding
    of 16 to the left or the top edge; and when the popup with its
    padding fits into the viewport and the pointer is not to the right
    of it, the popup also ends at least 16 before the right and the
    bottom edge. *)
Theorem positionPopup_inside (clientX clientY popupWidth popupHeight
    viewportWidth viewportHeight : R) :
  let (left, top) :=
    positionPopup clientX clientY popupWidth popupHeight
      viewportWidth viewportHeight in
  16 <= left /\ 16 <= top
  /\ (popupWidth + 2 * 16 <= viewportWidth -> clientX <= viewportWidth ->
      left + popupWidth <= viewportWidth - 16)
  /\ (popupHeight + 2 * 16 <= viewportHeight ->
      top + popupHeight <= viewportHeight - 16).
Proof.
  unfold positionPopup, padding.
  split; [apply Rmax_l |]. split; [apply Rmax_l |]. split.
  - intros Hfit Hx.
    destruct (Rlt_dec (viewportWidth - 16) (clientX + 16 + popupWidth));
      unfold Rmax; destruct (Rle_dec _ _); lra.
  - intros Hfit.
    destruct (Rlt_dec (viewportHeight - 16) (clientY + 16 + popupHeight));
      unfold Rmax; destruct (Rle_dec _ _); lra.
Qed.

Lemma positionPopup_inside_witness :
  fst (positionPopup 1000 700 300 200 1024 768) + 300 <= 1024 - 16
  /\ snd (positionPopup 1000 700 300 200 1024 768) + 200 <= 768 - 16.
Proof.
  pose proof (positionPopup_inside 1000 700 300 200 1024 768) as Hin.
  destruct (positionPopup 1000 700 300 200 1024 768) as [left top].
  destruct Hin as (_ & _ & Hright & Hbottom). cbn [fst snd].
  split; [apply Hright; lra | apply Hbottom; lra].
Defined.

End PopupPosition.

(** ** The shape of the cleaned string and of the parts *)

Section Collapse.
Import MoreVocabulary.
Implicit Types (s t l : list N) (b : bool).

Lemma takeWhile_dropWhile p s : takeWhile p s ++ dropWhile p s = s.
Proof.
  induction s as [| c s IH]; [reflexivity |]. cbn.
  destruct (p c); [cbn; by rewrite IH | reflexivity].
Qed.

Lemma dropWhile_length p s : (length (dropWhile p s) <= length s)%nat.
Proof.
  induction s as [| c s IH]; [done |]. cbn. destruct (p c); cbn; lia.
Qed.

Lemma collapsed_cons c l :
  collapsed (c :: l)
  = (if isWhiteSpace c then (c =? 32)%N && startsPlain l else true)
    && collapsed l.
Proof. reflexivity. Qed.

Lemma replace_ws_step c s :
  replace_from wsPlus (js " ") false 0 (c :: s)
  = if isWhiteSpace c
    then 32%N :: replace_from wsPlus (js " ") false 0
                   (dropWhile isWhiteSpace s)
    else c :: replace_from wsPlus (js " ") false 0 s.
Proof.
  cbn [replace_from]. unfold wsPlus at 1. rewrite matchAt_plus_end.
  destruct (isWhiteSpace c); [| reflexivity].
  rewrite <- (takeWhile_dropWhile isWhiteSpace s) at 2.
  by rewrite replace_from_skip.
Qed.

Lemma replace_ws_bol b s :
  replace_from wsPlus (js " ") b 0 s
  = replace_from wsPlus (js " ") false 0 s.
Proof.
  destruct s as [| c s]; cbn [replace_from]; unfold wsPlus;
    by rewrite !matchAt_plus_end.
Qed.

Lemma replace_ws_collapsed (n : nat) s :
  (length s <= n)%nat ->
  collapsed (replace_from wsPlus (js " ") false 0 s) = true
  /\ (startsPlain s = true ->
      startsPlain (replace_from wsPlus (js " ") false 0 s) = true).
Proof.
  revert s. induction n as [| n IH]; intros s Hn.
  - destruct s; [| cbn in Hn; lia]. split; reflexivity.
  - destruct s as [| c s]; [split; reflexivity |].
    cbn [length] in Hn. rewrite replace_ws_step.
    destruct (isWhiteSpace c) eqn:Hc.
    + pose proof (dropWhile_length isWhiteSpace s) as Hlen.
      destruct (IH (dropWhile isWhiteSpace s)) as [Hcol Hplain]; [lia |].
      split; [| by cbn; rewrite Hc].
      rewrite collapsed_cons, Hcol, Hplain; [reflexivity |].
      destruct (dropWhile isWhiteSpace s) as [| d t] eqn:Hd; [done |].
      cbn. by rewrite (dropWhile_head _ _ _ _ Hd).
    + destruct (IH s) as [Hcol _]; [lia |].
      split; [| by cbn; rewrite Hc].
      by rewrite collapsed_cons, Hc, Hcol.
Qed.

Lemma collapsed_app_r l t : collapsed (l ++ t) = true -> collapsed t = true.
Proof.
  induction l as [| c l IH]; [done |]. cbn [app].
  rewrite collapsed_cons. intros [_ Hl]%andb_prop. by apply IH.
Qed.

Lemma collapsed_app_l l t : collapsed (l ++ t) = true -> collapsed l = true.
Proof.
  induction l as [| c l IH]; [done |]. cbn [app].
  rewrite !collapsed_cons. intros [Hc Hl]%andb_prop.
  rewrite (IH Hl), andb_true_r.
  destruct (isWhiteSpace c); [| done].
  apply andb_prop in Hc as [-> Hp]. by destruct l.
Qed.

Lemma trim_collapsed s : collapsed s = true -> collapsed (trim s) = true.
Proof.
  destruct (trim_split s) as (l & r & Hs & _ & _). intros Hc.
  rewrite Hs in Hc. by apply collapsed_app_r, collapsed_app_l in Hc.
Qed.

End Collapse.

Section PartsShape.
Import MoreVocabulary.
Context `{Host}.

(** X16: unless stripping the phrases leaves nothing, the string that
    [parseLocation] splits has white space only as single spaces between
    other characters: no run of white space, no tab or line break, nothing
    at either end. *)
Theorem cleaned_collapsed (locationStr : list N) :
  trim (replace [Cls isWhiteSpace; Star isWhiteSpace] (js " ")
          (stripPhrases (trim locationStr))) <> [] ->
  cleaned locationStr
  = trim (replace [Cls isWhiteSpace; Star isWhiteSpace] (js " ")
            (stripPhrases (trim locationStr)))
  /\ collapsed (cleaned locationStr) = true
  /\ trim (cleaned locationStr) = cleaned locationStr.
Proof.
  intros Hne.
  assert (Hc : cleaned locationStr
               = trim (replace [Cls isWhiteSpace; Star isWhiteSpace]
                         (js " ") (stripPhrases (trim locationStr)))).
  { rewrite cleaned_unfold. by destruct (trim _). }
  split; [exact Hc |]. split; [| apply cleaned_trimmed].
  rewrite Hc. apply trim_collapsed. unfold replace.
  change [Cls isWhiteSpace; Star isWhiteSpace] with wsPlus.
  rewrite replace_ws_bol. by eapply replace_ws_collapsed.
Qed.

(** X17: every part that [parseLocation] returns is free of commas and
    hyphens, neither starts nor ends with white space, and consists of
    characters of the cleaned string. *)
Theorem parseLocation_parts (locationStr : list N)
    (parsed : ParsedLocation) (part : list N) :
  parseLocation locationStr = Some parsed ->
  part ∈ parts parsed ->
  trim part = part
  /\ forall c, c ∈ part ->
       isDelimiter c = false /\ c ∈ cleaned locationStr.
Proof.
  rewrite parseLocation_unfold. intros Hp Hin.
  assert (Hparts : part ∈ partsOf (cleaned locationStr)).
  { destruct locationStr as [| c0 s]; [done |].
    destruct (partsOf (cleaned (c0 :: s))) as [| p ps] eqn:Hps; [done |].
    injection Hp as <-. exact Hin. }
  unfold partsOf in Hparts.
  apply elem_of_bfilter in Hparts as [Hfrag _].
  apply elem_of_map in Hfrag as (fragment & -> & Hfrag).
  split; [apply trim_idem |].
  intros c Hc%trim_elem.
  assert (Hcc : c ∈ concat (split delimiters (cleaned locationStr))).
  { apply list_elem_of_In, in_concat. exists fragment.
    by rewrite <- !list_elem_of_In. }
  rewrite split_concat in Hcc. apply elem_of_bfilter in Hcc as [Hcl Hd].
  split; [by apply negb_true_iff | exact Hcl].
Qed.

End PartsShape.

Section PartsExamples.
Import MoreVocabulary.
#[local] Existing Instance latin1Host.

Lemma cleaned_collapsed_witness :
  collapsed (cleaned (js "New   York  -  WFH")) = true.
Proof.
  apply (cleaned_collapsed (js "New   York  -  WFH")).
  vm_compute. discriminate.
Defined.

(** When the phrases are all there is, the trimmed input is split as it
    is, runs of white space included. *)
Example cleaned_fallback_keeps_runs :
  cleaned (js " Office  -  Office ") = js "Office  -  Office"
  /\ collapsed (cleaned (js " Office  -  Office ")) = false.
Proof. vm_compute. split; reflexivity. Qed.

Lemma parseLocation_parts_witness :
  trim (js "NY") = js "NY"
  /\ forall c, c ∈ js "NY" ->
       isDelimiter c = false /\ c ∈ cleaned (js "New York, NY - USA").
Proof.
  apply (parseLocation_parts (js "New York, NY - USA")
           {| original := js "New York, NY - USA";
              parts := [js "New York"; js "NY"; js "USA"] |}).
  - vm_compute. reflexivity.
  - right. left.
Defined.

End PartsExamples.

(** ** Looking a part up in a table *)

Section Lookup.
Import MoreVocabulary.
Context `{Host}.

Lemma find_first {A} (p : A -> bool) (l : list A) (x : A) :
  List.find p l = Some x
  <-> exists before after,
        l = before ++ x :: after /\ p x = true
        /\ Forall (fun y => p y = false) before.
Proof.
  induction l as [| y l IH]; cbn [List.find].
  - split; [discriminate |]. intros (before & after & Hl & _).
    by destruct before.
  - destruct (p y) eqn:Hy.
    + split.
      * intros [= ->]. exists [], l. auto.
      * intros ([| z before] & after & Hl & Hx & Hb).
        -- by injection Hl as ->.
        -- injection Hl as -> _. apply Forall_cons in Hb as [Hz _].
           congruence.
    + rewrite IH. split.
      * intros (before & after & -> & Hx & Hb).
        exists (y :: before), after. auto.
      * intros ([| z before] & after & Hl & Hx & Hb).
        -- injection Hl as -> _. congruence.
        -- injection Hl as _ ->. apply Forall_cons in Hb as [_ Hb]. eauto.
Qed.

Lemma findTier_table (d : Gazetteer) (t : Tier) (part : list N) :
  findTier d t part
  = if truthy part
    then List.find (nameOrCode (normalize part)) (tierTable d t)
    else None.
Proof. destruct t; cbn; by destruct (truthy part). Qed.

(** X18: each of [findUSState], [findCAProvince], [findAUState] and
    [findCountry] finds nothing for an empty part, and otherwise returns
    the first entry of its table, in the order of the data file, whose
    normalised name or whose code in lower case equals the normalised
    part. *)
Theorem findTier_first (d : Gazetteer) (t : Tier) (part : list N)
    (e : Entry) :
  findTier d t part = Some e
  <-> part <> []
      /\ exists before after,
           tierTable d t = before ++ e :: after
           /\ (normalize (name e) = normalize part
               \/ toLowerCase (code e) = normalize part)
           /\ Forall (fun e' => normalize (name e') <> normalize part
                                /\ toLowerCase (code e') <> normalize part)
                before.
Proof.
  rewrite findTier_table.
  assert (Hyes : forall e0, nameOrCode (normalize part) e0 = true
                   <-> normalize (name e0) = normalize part
                       \/ toLowerCase (code e0) = normalize part).
  { intros e0. unfold nameOrCode.
    by rewrite orb_true_iff, !bool_decide_eq_true. }
  assert (Hno : forall e0, nameOrCode (normalize part) e0 = false
                  <-> normalize (name e0) <> normalize part
                      /\ toLowerCase (code e0) <> normalize part).
  { intros e0. unfold nameOrCode.
    by rewrite orb_false_iff, !bool_decide_eq_false. }
  destruct part as [| c part]; cbn [truthy].
  - split; [discriminate | by intros []].
  - rewrite find_first. split.
    + intros (before & after & Ht & He & Hb). split; [done |].
      exists before, after. split; [exact Ht |]. split; [by apply Hyes |].
      eapply Forall_impl; [exact Hb |]. intros e0. apply Hno.
    + intros (_ & before & after & Ht & He & Hb).
      exists before, after. split; [exact Ht |]. split; [by apply Hyes |].
      eapply Forall_impl; [exact Hb |]. intros e0. apply Hno.
Qed.

End Lookup.

Section MoreExamples.
Import MoreVocabulary BambooPopup.
#[local] Existing Instance latin1Host.

Lemma groupEmployeesByLocation_order_witness :
  exists k g e rest coords,
    (k, g) ∈ fst (groupEmployeesByLocation Sample.staff Sample.loaded)
    /\ employees g = e :: rest
    /\ coordsOf
         (fst (geocodeBatch
                 (List.filter truthy (List.map location Sample.staff))
                 Sample.loaded)) e = Some coords
    /\ grp_lat g = res_lat coords.
Proof.
  pose proof (groupEmployeesByLocation_order Sample.staff Sample.loaded)
    as [_ Hanchor].
  destruct (fst (groupEmployeesByLocation Sample.staff Sample.loaded))
    as [| [k g] groups] eqn:Hgroups; [vm_compute in Hgroups; discriminate |].
  destruct (Hanchor k g) as (e & rest & coords & He & Hc & Hlat & _);
    [left |].
  exists k, g, e, rest, coords. split; [left | auto].
Defined.

Lemma findTier_first_witness :
  findTier Sample.gazetteer TierUS (js "N.Y.")
  = Some (nth 2 Sample.usStates Sample.california).
Proof.
  apply findTier_first. split; [discriminate |].
  exists (take 2 Sample.usStates), (drop 3 Sample.usStates).
  split; [vm_compute; reflexivity |].
  split; [right; vm_compute; reflexivity |].
  repeat constructor; vm_compute; discriminate.
Defined.

(** A host that only ends with the letters of a trusted domain is refused,
    as is a trusted host over plain HTTP. *)
Example isValidPhotoUrl_examples :
  List.map
    (fun ph => isValidPhotoUrl (fun _ => Some (js ph.1, js ph.2)) (js "u"))
    [("https:", "images.BambooHR.com"); ("https:", "bamboohr.com");
     ("https:", "evilbamboohr.com"); ("http:", "images.bamboohr.com");
     ("https:", "bamboohr.com.evil.example")]%string
  = [true; true; false; false; false].
Proof. vm_compute. reflexivity. Qed.

End MoreExamples.

(** ** Calls that overlap *)

Section AsyncSegments.
Import Async MoreVocabulary.
Context `{Host}.

Lemma loads_snoc (tr : list Event) (e : Event) :
  loads (tr ++ [e])
  = (loads tr + match e with EvFetch true => 1 | _ => 0 end)%nat.
Proof.
  unfold loads. rewrite List.filter_app, length_app.
  by destruct e as [[] | |].
Qed.

(** The monadic calls are their segments run one after the other. *)
Lemma init_split (w : World) :
  init w = match data w with Some d => (Some d, w) | None => loadEnd w end.
Proof. reflexivity. Qed.

Lemma geocode_split (locationStr : list N) (w : World) :
  geocode locationStr w
  = match geocodeBegin locationStr w with
    | (inl r, w1) => (r, w1)
    | (inr Loaded, w1) => geocodeEnd locationStr w1
    | (inr Loading, w1) => geocodeEnd locationStr (snd (loadEnd w1))
    end.
Proof.
  unfold geocode, geocodeBegin, geocodeEnd, bind, modify, get, ret.
  destruct (truthy locationStr); cbn [negb]; [| reflexivity].
  cbn [cache emit].
  destruct (cache w !! normalize locationStr) as [hit |]; [reflexivity |].
  rewrite init_split. unfold initBegin. cbn [data emit].
  destruct (data w) as [d |] eqn:Hd.
  - cbn [data emit]. rewrite Hd.
    by destruct (parseLocation locationStr).
  - destruct (loadEnd (emit (EvGeocode locationStr) w)) as [o w1]. cbn [snd].
    destruct (data w1); [| reflexivity].
    by destruct (parseLocation locationStr).
Qed.

Lemma loadEnd_cache (w : World) : cache (snd (loadEnd w)) = cache w.
Proof. unfold loadEnd. by destruct (fetches w) as [| [d |] fs]. Qed.

Lemma loadEnd_resolveRuns (w : World) :
  resolveRuns (trace (snd (loadEnd w))) = resolveRuns (trace w).
Proof.
  unfold loadEnd. destruct (fetches w) as [| [d |] fs]; cbn;
    by rewrite resolveRuns_snoc, app_nil_r.
Qed.

Lemma loadEnd_data (w : World) :
  (is_Some (data (snd (loadEnd w)))
   /\ loads (trace (snd (loadEnd w))) = S (loads (trace w)))
  \/ (data (snd (loadEnd w)) = data w
      /\ loads (trace (snd (loadEnd w))) = loads (trace w)).
Proof.
  unfold loadEnd.
  destruct (fetches w) as [| [d |] fs];
    cbn [snd emit trace data set_data set_fetches]; rewrite loads_snoc.
  - right. split; [done | lia].
  - left. split; [eauto | lia].
  - right. split; [done | lia].
Qed.

Lemma geocodeEnd_data (locationStr : list N) (w : World) :
  data (snd (geocodeEnd locationStr w)) = data w
  /\ loads (trace (snd (geocodeEnd locationStr w))) = loads (trace w).
Proof.
  unfold geocodeEnd.
  destruct (data w) as [d |] eqn:Hd;
    [destruct (parseLocation locationStr) |];
    cbn [snd emit trace data set_cache]; rewrite ?loads_snoc, ?Hd;
    split; (done || lia).
Qed.

Lemma geocodeEnd_cases (locationStr : list N) (w : World) :
  geocodeEnd locationStr w = (None, w)
  \/ exists d parsed,
       data w = Some d /\ parseLocation locationStr = Some parsed
       /\ fst (geocodeEnd locationStr w) = tryParts (Some d) (parts parsed)
       /\ cache (snd (geocodeEnd locationStr w))
          = <[normalize locationStr := tryParts (Some d) (parts parsed)]>
              (cache w)
       /\ resolveRuns (trace (snd (geocodeEnd locationStr w)))
          = resolveRuns (trace w) ++ [normalize locationStr].
Proof.
  unfold geocodeEnd. destruct (data w) as [d |] eqn:Hd; [| by left].
  destruct (parseLocation locationStr) as [parsed |]; [| by left].
  right. exists d, parsed. cbn. rewrite Hd, resolveRuns_snoc. auto.
Qed.

Lemma runsFor_snoc (k x : list N) (tr tr' : list Event) :
  resolveRuns tr' = resolveRuns tr ++ [x] ->
  runsFor k tr' = (runsFor k tr + if bool_decide (x = k) then 1 else 0)%nat.
Proof.
  unfold runsFor. intros ->. rewrite List.filter_app, length_app. cbn.
  by case_bool_decide.
Qed.

Lemma runsFor_same (k : list N) (tr tr' : list Event) :
  resolveRuns tr' = resolveRuns tr -> runsFor k tr' = runsFor k tr.
Proof. unfold runsFor. by intros ->. Qed.

(** What a step other than [clearCache] does. *)
Lemma act_shape (a : Action) (c : Config) :
  isClearAction a = false ->
  act a c = c
  \/ exists i old new,
       Shape (world c) old new (world (act a c))
       /\ (forall t, old = Some t -> pending c !! i = Some t)
       /\ pending (act a c)
          = match new, old with
            | Some t', _ => <[i := t']> (pending c)
            | None, Some _ => delete i (pending c)
            | None, None => pending c
            end.
Proof.
  intros Hclear. destruct a as [o | i].
  - right. exists (next c), None. destruct o as [| s | l |]; [| | | done].
    + unfold act, call. destruct (data (world c)) as [d |] eqn:Hd.
      * exists None. split; [by apply shape_same |]. done.
      * exists (Some TInit). split; [by apply shape_same |]. done.
    + unfold act, call, geocodeBegin.
      destruct (truthy s) eqn:Ht; cbn [negb].
      * cbn [cache emit].
        destruct (cache (world c) !! normalize s) as [hit |] eqn:Hc.
        -- exists None. split; [by apply shape_begin |]. done.
        -- exists (Some (TGeocode s
                           (initBegin (emit (EvGeocode s) (world c))))).
           split; [| done]. apply shape_begin; [done |]. right.
           split; [done |]. split; [done |]. split; [done |].
           unfold initBegin. cbn [data emit].
           by destruct (data (world c)).
      * exists None. split; [by apply shape_begin |]. done.
    + exists (Some (TBatchInit l (initBegin (world c)))).
      split; [| done]. apply shape_same; [done |]. split; [done |].
      unfold initBegin. cbn. by destruct (data (world c)).
  - unfold act. destruct (pending c !! i) as [t |] eqn:Ht; [| by left].
    right. exists i, (Some t).
    assert (Hnext : forall results rest,
               loadingTask t = false -> waits t = None ->
               exists new,
                 Shape (world c) (Some t) new
                   (snd (batchNext results rest (world c)))
                 /\ fst (batchNext results rest (world c))
                    = match new with
                      | Some t' => inl t'
                      | None => inr (VBatch results)
                      end).
    { intros results rest Hl Hw. destruct rest as [| s rest].
      - exists None. split; [by apply shape_same | done].
      - unfold batchNext, geocodeBegin.
        destruct (truthy s) eqn:Hs; cbn [negb].
        + cbn [cache emit].
          destruct (cache (world c) !! normalize s) as [hit |] eqn:Hc.
          * eexists (Some _). split; [| reflexivity].
            apply shape_begin; [done |]. by left.
          * eexists (Some _). split; [| reflexivity].
            apply shape_begin; [done |]. right.
            split; [done |]. split; [done |]. split; [done |].
            unfold initBegin. cbn. by destruct (data (world c)).
        + eexists (Some _). split; [| reflexivity].
          apply shape_begin; [done |]. by left. }
    destruct t as [| s [|] | l [|] | results s [[|] | r] rest]; cbn [resume].
    + destruct (loadEnd (world c)) as [d w'] eqn:Hl. exists None.
      split; [| split; [by intros ? [= <-] | done]].
      replace w' with (snd (loadEnd (world c)))
        by (by rewrite Hl).
      by apply shape_load.
    + exists (Some (TGeocode s Loaded)).
      split; [| split; [by intros ? [= <-] | done]].
      by apply shape_load.
    + destruct (geocodeEnd s (world c)) as [r w'] eqn:Hg. exists None.
      split; [| split; [by intros ? [= <-] | done]].
      replace w' with (snd (geocodeEnd s (world c)))
        by (by rewrite Hg).
      by apply (shape_end _ _ s).
    + exists (Some (TBatchInit l Loaded)).
      split; [| split; [by intros ? [= <-] | done]].
      by apply shape_load.
    + destruct (Hnext ∅ (newSet (List.filter truthy l)) eq_refl eq_refl)
        as (new & Hshape & Hfst).
      destruct (batchNext ∅ _ (world c)) as [r w']. cbn [fst snd] in *.
      exists new. subst r.
      destruct new;
        (split; [exact Hshape | split; [by intros ? [= <-] | done]]).
    + exists (Some (TBatchLoop results s (GWait Loaded) rest)).
      split; [| split; [by intros ? [= <-] | done]]. by apply shape_load.
    + destruct (geocodeEnd s (world c)) as [r w'] eqn:Hg.
      exists (Some (TBatchLoop results s (GDone r) rest)).
      split; [| split; [by intros ? [= <-] | done]].
      replace w' with (snd (geocodeEnd s (world c)))
        by (by rewrite Hg).
      by apply (shape_end _ _ s).
    + destruct (Hnext (record results s r) rest eq_refl eq_refl)
        as (new & Hshape & Hfst).
      destruct (batchNext _ rest (world c)) as [r' w']. cbn [fst snd] in *.
      exists new. subst r'.
      destruct new;
        (split; [exact Hshape | split; [by intros ? [= <-] | done]]).
Qed.

End AsyncSegments.

Section AsyncInvariants.
Import Async MoreVocabulary AsyncVocabulary.
Context `{Host}.

Lemma noTask_next (p : Task -> bool) (c c' : Config) (i : nat)
    (old new : option Task) :
  noTask p c ->
  (forall t', new = Some t' -> p t' = false) ->
  pending c'
  = match new, old with
    | Some t', _ => <[i := t']> (pending c)
    | None, Some _ => delete i (pending c)
    | None, None => pending c
    end ->
  noTask p c'.
Proof.
  intros Hn Hp Hpend j u. rewrite Hpend.
  destruct new as [t' |]; [| destruct old].
  - intros [[_ <-] | [_ Hu]]%lookup_insert_Some; [by apply Hp |].
    by apply (Hn j).
  - intros [_ Hu]%lookup_delete_Some. by apply (Hn j).
  - apply Hn.
Qed.

(** When the only call with the property moves on and loses it, no call
    has it. *)
Lemma noTask_only (p : Task -> bool) (c c' : Config) (i : nat) (t : Task)
    (new : option Task) :
  atMostOne p c ->
  pending c !! i = Some t -> p t = true ->
  (forall t', new = Some t' -> p t' = false) ->
  pending c'
  = match new with
    | Some t' => <[i := t']> (pending c)
    | None => delete i (pending c)
    end ->
  noTask p c'.
Proof.
  intros Hone Hi Hpt Hp Hpend j u. rewrite Hpend.
  assert (Hother : j <> i -> pending c !! j = Some u -> p u = false).
  { intros Hne Hu. destruct (p u) eqn:Hpu; [| done].
    by destruct Hne; apply (Hone j i u t). }
  destruct new as [t' |].
  - intros [[_ <-] | [Hne Hu]]%lookup_insert_Some; [by apply Hp |].
    apply Hother; [congruence | done].
  - intros [Hne Hu]%lookup_delete_Some. apply Hother; [congruence | done].
Qed.

Lemma waitsFor_waits (k : list N) (t t' : Task) :
  waits t' = waits t -> waitsFor k t' = waitsFor k t.
Proof. unfold waitsFor. by intros ->. Qed.

Lemma waitsFor_none (k : list N) (t : Task) :
  waits t = None -> waitsFor k t = false.
Proof. unfold waitsFor. by intros ->. Qed.

Lemma waitsFor_some (k : list N) (t : Task) (locationStr : list N) :
  waits t = Some locationStr ->
  waitsFor k t = bool_decide (normalize locationStr = k).
Proof. unfold waitsFor. by intros ->. Qed.

(** A cached entry for which no call is in flight stays as it is, and its
    resolution does not run. *)
Lemma quiet_step (k : list N) (v : option GeocodeResult) (a : Action)
    (c : Config) :
  isClearAction a = false ->
  cache (world c) !! k = Some v -> noTask (waitsFor k) c ->
  cache (world (act a c)) !! k = Some v
  /\ noTask (waitsFor k) (act a c)
  /\ runsFor k (trace (world (act a c))) = runsFor k (trace (world c)).
Proof.
  intros Hcl Hc Hq.
  destruct (act_shape a c Hcl) as [-> | (i & old & new & Hs & Hold & Hp)];
    [done |].
  revert Hs. generalize (world (act a c)). intros w' Hs.
  inversion Hs as [t new' Hl Hnew | t s new' Hl Hw Hnew
                   | old' s new' Hold' Hnew | old' new' Hold' Hnew]; subst.
  - rewrite loadEnd_cache. split; [done |]. split.
    + apply (noTask_next _ c _ i (Some t) new);
        [exact Hq | | exact Hp].
      intros t' [= ->].
      destruct Hnew as [_ Hw]. rewrite (waitsFor_waits _ _ _ Hw).
      apply (Hq i), Hold. done.
    + apply runsFor_same, loadEnd_resolveRuns.
  - assert (Hne : normalize s <> k).
    { pose proof (Hq i t (Hold t eq_refl)) as Hf.
      rewrite (waitsFor_some _ _ _ Hw) in Hf.
      by apply bool_decide_eq_false in Hf. }
    assert (Hnt : noTask (waitsFor k) (act a c)).
    { apply (noTask_next _ c _ i (Some t) new);
        [exact Hq | | exact Hp].
      intros t' [= ->].
      destruct Hnew as [_ Hw']. by apply waitsFor_none. }
    destruct (geocodeEnd_cases s (world c))
      as [Heq | (d & parsed & _ & _ & _ & Hcache & Hruns)].
    + rewrite Heq. done.
    + rewrite Hcache, lookup_insert_ne by done. split; [done |].
      split; [done |]. rewrite (runsFor_snoc k _ _ _ Hruns).
      rewrite bool_decide_false by done. lia.
  - cbn [cache emit trace]. split; [done |]. split.
    + apply (noTask_next _ c _ i old new);
        [exact Hq | | exact Hp].
      intros t' [= ->].
      destruct Hnew as [[_ Hw] | (Hw & _ & Hmiss & _)].
      * by apply waitsFor_none.
      * rewrite (waitsFor_some _ _ _ Hw). apply bool_decide_eq_false.
        intros <-. congruence.
    + apply runsFor_same. by rewrite resolveRuns_snoc, app_nil_r.
  - split; [done |]. split; [| done].
    apply (noTask_next _ c _ i old new);
      [exact Hq | | exact Hp].
    intros t' [= ->].
    destruct Hnew as [Hw _]. by apply waitsFor_none.
Qed.

Lemma noClear_cons (a : Action) (sched : list Action) :
  noClear (a :: sched) = true ->
  isClearAction a = false /\ noClear sched = true.
Proof.
  unfold noClear. cbn [forallb]. intros [Ha Hs]%andb_prop.
  split; [by apply negb_true_iff | done].
Qed.

Lemma noClear_app (pre post : list Action) :
  noClear (pre ++ post) = true ->
  noClear pre = true /\ noClear post = true.
Proof. unfold noClear. rewrite forallb_app. apply andb_prop. Qed.

Lemma exec_app (pre post : list Action) (c : Config) :
  exec (pre ++ post) c = exec post (exec pre c).
Proof. apply fold_left_app. Qed.

Lemma quiet_exec (k : list N) (v : option GeocodeResult)
    (sched : list Action) (c : Config) :
  noClear sched = true ->
  cache (world c) !! k = Some v -> noTask (waitsFor k) c ->
  cache (world (exec sched c)) !! k = Some v
  /\ noTask (waitsFor k) (exec sched c)
  /\ runsFor k (trace (world (exec sched c))) = runsFor k (trace (world c)).
Proof.
  revert c. induction sched as [| a sched IH]; intros c Hn Hc Hq; [done |].
  apply noClear_cons in Hn as [Ha Hn].
  destruct (quiet_step k v a c Ha Hc Hq) as (Hc' & Hq' & Hr').
  cbn [exec fold_left]. fold (exec sched (act a c)).
  destruct (IH (act a c) Hn Hc' Hq') as (Hc2 & Hq2 & Hr2).
  split; [done |]. split; [done |]. congruence.
Qed.

(** Without overlapping calls for a key, its resolution runs once at
    most. *)
Lemma once_step (k : list N) (a : Action) (c : Config) :
  isClearAction a = false ->
  atMostOne (waitsFor k) c ->
  onceFor k c -> onceFor k (act a c).
Proof.
  intros Hcl Hone [[Hc Hr] | ([v Hc] & Hr & Hq)].
  2:{ destruct (quiet_step k v a c Hcl Hc Hq) as (Hc' & Hq' & Hr').
      right. split; [eauto |]. split; [congruence | done]. }
  destruct (act_shape a c Hcl) as [-> | (i & old & new & Hs & Hold & Hp)];
    [by left |].
  unfold onceFor. revert Hs. generalize (world (act a c)). intros w' Hs.
  inversion Hs as [t new' Hl Hnew | t s new' Hl Hw Hnew
                   | old' s new' Hold' Hnew | old' new' Hold' Hnew]; subst.
  - left. rewrite loadEnd_cache.
    rewrite (runsFor_same k _ _ (loadEnd_resolveRuns _)). done.
  - destruct (geocodeEnd_cases s (world c))
      as [Heq | (d & parsed & _ & _ & _ & Hcache & Hruns)].
    + left. rewrite Heq. done.
    + rewrite Hcache, (runsFor_snoc k _ _ _ Hruns).
      destruct (decide (normalize s = k)) as [Heq | Hne].
      * right. rewrite Heq, lookup_insert_eq, bool_decide_true by done.
        split; [eauto |]. split; [lia |].
        apply (noTask_only _ c _ i t new); [done | by apply Hold | | |].
        -- rewrite (waitsFor_some _ _ _ Hw). by apply bool_decide_eq_true.
        -- intros t' ->. destruct Hnew as [_ Hw']. by apply waitsFor_none.
        -- rewrite Hp. by destruct new.
      * left. rewrite lookup_insert_ne, bool_decide_false by done.
        split; [done | lia].
  - left. cbn [cache emit trace].
    rewrite (runsFor_same k (trace (world c)) (_ ++ _)); [done |].
    by rewrite resolveRuns_snoc, app_nil_r.
  - by left.
Qed.

Lemma once_exec (k : list N) (sched : list Action) (c : Config) :
  noClear sched = true ->
  always (atMostOne (waitsFor k)) sched c ->
  onceFor k c -> onceFor k (exec sched c).
Proof.
  revert c. induction sched as [| a sched IH]; intros c Hn Hal Ho; [done |].
  apply noClear_cons in Hn as [Ha Hn]. destruct Hal as [Hone Hal].
  cbn [exec fold_left]. fold (exec sched (act a c)).
  apply IH; [done | done |]. by apply once_step.
Qed.

(** The same for the load of the data file; [clearCache] does not
    matter here. *)
Lemma clear_world (c : Config) :
  world (act (Call OpClearCache) c) = set_cache ∅ (world c)
  /\ pending (act (Call OpClearCache) c) = pending c.
Proof. done. Qed.

Lemma isClearAction_true (a : Action) :
  isClearAction a = true -> a = Call OpClearCache.
Proof. by destruct a as [[] |]. Qed.

Lemma loaded_step (d : Gazetteer) (a : Action) (c : Config) :
  data (world c) = Some d -> noTask loadingTask c ->
  data (world (act a c)) = Some d
  /\ noTask loadingTask (act a c)
  /\ loads (trace (world (act a c))) = loads (trace (world c)).
Proof.
  intros Hd Hq. destruct (isClearAction a) eqn:Hcl.
  { apply isClearAction_true in Hcl as ->. done. }
  destruct (act_shape a c Hcl) as [-> | (i & old & new & Hs & Hold & Hp)];
    [done |].
  revert Hs. generalize (world (act a c)). intros w' Hs.
  inversion Hs as [t new' Hl Hnew | t s new' Hl Hw Hnew
                   | old' s new' Hold' Hnew | old' new' Hold' Hnew]; subst.
  - pose proof (Hq i t (Hold t eq_refl)). congruence.
  - destruct (geocodeEnd_data s (world c)) as [-> ->].
    split; [done |]. split; [| done].
    apply (noTask_next _ c _ i (Some t) new);
      [exact Hq | | exact Hp].
    intros t' [= ->].
    by destruct Hnew.
  - cbn [data emit trace]. rewrite loads_snoc, Nat.add_0_r.
    split; [done |]. split; [| done].
    apply (noTask_next _ c _ i old new);
      [exact Hq | | exact Hp].
    intros t' [= ->].
    destruct Hnew as [[Hl _] | (_ & _ & _ & Hl)]; [done |].
    destruct (loadingTask t'); [| done]. by rewrite Hl in Hd.
  - split; [done |]. split; [| done].
    apply (noTask_next _ c _ i old new);
      [exact Hq | | exact Hp].
    intros t' [= ->].
    destruct Hnew as [_ Hl].
    destruct (loadingTask t'); [| done]. by rewrite Hl in Hd.
Qed.

Lemma loaded_exec (d : Gazetteer) (sched : list Action) (c : Config) :
  data (world c) = Some d -> noTask loadingTask c ->
  data (world (exec sched c)) = Some d
  /\ noTask loadingTask (exec sched c)
  /\ loads (trace (world (exec sched c))) = loads (trace (world c)).
Proof.
  revert c. induction sched as [| a sched IH]; intros c Hd Hq; [done |].
  destruct (loaded_step d a c Hd Hq) as (Hd' & Hq' & Hl').
  cbn [exec fold_left]. fold (exec sched (act a c)).
  destruct (IH (act a c) Hd' Hq') as (Hd2 & Hq2 & Hl2).
  split; [done |]. split; [done |]. congruence.
Qed.

Lemma loadedOnce_step (a : Action) (c : Config) :
  atMostOne loadingTask c -> loadedOnce c -> loadedOnce (act a c).
Proof.
  intros Hone [[Hd Hl] | ([d Hd] & Hl & Hq)].
  2:{ destruct (loaded_step d a c Hd Hq) as (Hd' & Hq' & Hl').
      right. split; [eauto |]. split; [congruence | done]. }
  destruct (isClearAction a) eqn:Hcl.
  { apply isClearAction_true in Hcl as ->. by left. }
  destruct (act_shape a c Hcl) as [-> | (i & old & new & Hs & Hold & Hp)];
    [by left |].
  unfold loadedOnce. revert Hs. generalize (world (act a c)). intros w' Hs.
  inversion Hs as [t new' Hlt Hnew | t s new' Hlt Hw Hnew
                   | old' s new' Hold' Hnew | old' new' Hold' Hnew]; subst.
  - destruct (loadEnd_data (world c)) as [[Hsome Hn] | [Hsame Hn]].
    + right. split; [done |]. split; [lia |].
      apply (noTask_only _ c _ i t new); [done | by apply Hold | done | |].
      * intros t' ->. by destruct Hnew.
      * rewrite Hp. by destruct new.
    + left. rewrite Hsame, Hn. done.
  - left. by destruct (geocodeEnd_data s (world c)) as [-> ->].
  - left. cbn [data emit trace]. rewrite loads_snoc. split; [done | lia].
  - by left.
Qed.

Lemma loadedOnce_exec (sched : list Action) (c : Config) :
  always (atMostOne loadingTask) sched c ->
  loadedOnce c -> loadedOnce (exec sched c).
Proof.
  revert c. induction sched as [| a sched IH]; intros c Hal Ho; [done |].
  destruct Hal as [Hone Hal].
  cbn [exec fold_left]. fold (exec sched (act a c)).
  apply IH; [done |]. by apply loadedOnce_step.
Qed.

(** What holds of the module state under every schedule. *)
Lemma world_step (P : World -> Prop) (a : Action) (c : Config) :
  (forall w, P w -> P (snd (loadEnd w))) ->
  (forall s w, P w -> P (snd (geocodeEnd s w))) ->
  (forall s w, P w -> P (emit (EvGeocode s) w)) ->
  (isClearAction a = true -> forall w, P w -> P (set_cache ∅ w)) ->
  P (world c) -> P (world (act a c)).
Proof.
  intros Hload Hend Hcall Hclear Hw. destruct (isClearAction a) eqn:Hcl.
  { pose proof (isClearAction_true a Hcl) as ->. by apply Hclear. }
  destruct (act_shape a c Hcl) as [-> | (i & old & new & Hs & _ & _)];
    [done |].
  revert Hs. generalize (world (act a c)). intros w' Hs.
  inversion Hs; subst; auto.
Qed.

Lemma world_exec (P : World -> Prop) (clears : bool) (sched : list Action)
    (c : Config) :
  (forall w, P w -> P (snd (loadEnd w))) ->
  (forall s w, P w -> P (snd (geocodeEnd s w))) ->
  (forall s w, P w -> P (emit (EvGeocode s) w)) ->
  (clears = true -> forall w, P w -> P (set_cache ∅ w)) ->
  (clears = false -> noClear sched = true) ->
  P (world c) -> P (world (exec sched c)).
Proof.
  intros Hload Hend Hcall Hclear. revert c.
  induction sched as [| a sched IH]; intros c Hn Hw; [done |].
  cbn [exec fold_left]. fold (exec sched (act a c)). apply IH.
  - intros Hf. by apply Hn, noClear_cons in Hf as [_ ?].
  - apply world_step; try done. intros Ha. destruct clears; [auto |].
    specialize (Hn eq_refl). apply noClear_cons in Hn as [? _]. congruence.
Qed.

End AsyncInvariants.

(** ** Calls awaited one after the other *)

Section AsyncSequential.
Import Async MoreVocabulary AsyncVocabulary.
Context `{Host}.

Lemma exec_cons (a : Action) (sched : list Action) (c : Config) :
  exec (a :: sched) c = exec sched (act a c).
Proof. reflexivity. Qed.

Lemma run_step (n : nat) (t : Task) (w : World) :
  run (S n) t w
  = match resume t w with
    | (inl t', w') => run n t' w'
    | (inr v, w') => (inr v, w')
    end.
Proof. reflexivity. Qed.

Lemma exec_resume_none (i n : nat) (c : Config) :
  pending c !! i = None -> exec (repeat (Resume i) n) c = c.
Proof.
  intros Hn. induction n as [| n IH]; [done |].
  cbn [repeat]. rewrite exec_cons.
  replace (act (Resume i) c) with c; [exact IH |].
  unfold act. by rewrite Hn.
Qed.

(** Resuming one call again and again runs its segments in a row. *)
Lemma exec_resume_run (i n : nat) (c : Config) (t : Task) :
  pending c !! i = Some t ->
  exec (repeat (Resume i) n) c
  = match run n t (world c) with
    | (inl t', w') =>
        {| world := w'; pending := <[i := t']> (pending c);
           settled := settled c; next := next c |}
    | (inr v, w') =>
        {| world := w'; pending := delete i (pending c);
           settled := <[i := v]> (settled c); next := next c |}
    end.
Proof.
  revert c t. induction n as [| n IH]; intros c t Ht.
  - cbn. destruct c as [w p s m]. cbn in *. f_equal.
    symmetry. by apply insert_id.
  - cbn [repeat]. rewrite exec_cons, run_step. unfold act at 1. rewrite Ht.
    destruct (resume t (world c)) as [[t' | v] w'].
    + rewrite (IH _ t') by apply lookup_insert_eq.
      cbn [world pending settled next].
      destruct (run n t' w') as [[t'' | v] w'']; f_equal.
      * apply insert_insert_eq.
      * apply delete_insert_eq.
    + apply exec_resume_none. apply lookup_delete_eq.
Qed.

Lemma geocodeBatch_unfold (locations : list (list N)) (w : World) :
  geocodeBatch locations w
  = foldM geocodeBatch_body ∅ (newSet (List.filter truthy locations))
      (snd (init w)).
Proof. unfold geocodeBatch, bind. by destruct (init w). Qed.

Lemma foldM_body_record (s : list N) (l : list (list N))
    (acc : gmap (list N) (option GeocodeResult)) (w : World) :
  foldM geocodeBatch_body acc (s :: l) w
  = foldM geocodeBatch_body (record acc s (fst (geocode s w))) l
      (snd (geocode s w)).
Proof. apply foldM_body_cons. Qed.

(** The loop of a batch that runs alone is the monadic fold. *)
Lemma run_next (rest : list (list N)) :
  forall (results : gmap (list N) (option GeocodeResult)) (w : World)
         (n : nat),
    (3 * length rest <= n)%nat ->
    match batchNext results rest w with
    | (inl t, w1) => run n t w1
    | (inr v, w1) => (inr v, w1)
    end
    = (inr (VBatch (fst (foldM geocodeBatch_body results rest w))),
       snd (foldM geocodeBatch_body results rest w)).
Proof.
  induction rest as [| s rest IH]; intros results w n Hn; [reflexivity |].
  rewrite foldM_body_record. rewrite geocode_split.
  cbn [batchNext length] in *.
  destruct (geocodeBegin s w) as [[r | [|]] w1].
  - destruct n as [| n]; [lia |]. rewrite run_step. cbn [resume fst snd].
    apply IH. lia.
  - destruct n as [| [| [| n]]]; try lia.
    rewrite run_step. cbn [resume]. rewrite run_step. cbn [resume].
    destruct (geocodeEnd s (snd (loadEnd w1))) as [r w2].
    rewrite run_step. cbn [resume fst snd]. apply IH. lia.
  - destruct n as [| [| n]]; try lia.
    rewrite run_step. cbn [resume].
    destruct (geocodeEnd s w1) as [r w2].
    rewrite run_step. cbn [resume fst snd]. apply IH. lia.
Qed.

(** A call that runs alone is the monadic call. *)
Lemma call_run (o : Op) (w : World) :
  match call o w with
  | (inl t, w1) => run (turns o) t w1
  | (inr v, w1) => (inr v, w1)
  end
  = (inr (valueOf o w), runOp o w).
Proof.
  destruct o as [| s | l |]; cbn [call turns valueOf runOp].
  - rewrite init_split. destruct (data w) as [d |]; [reflexivity |].
    rewrite run_step. cbn [resume]. by destruct (loadEnd w).
  - rewrite geocode_split. destruct (geocodeBegin s w) as [[r | [|]] w1].
    + reflexivity.
    + rewrite run_step. cbn [resume]. rewrite run_step. cbn [resume].
      by destruct (geocodeEnd s (snd (loadEnd w1))).
    + rewrite run_step. cbn [resume]. by destruct (geocodeEnd s w1).
  - rewrite geocodeBatch_unfold, init_split. unfold initBegin.
    destruct (data w) as [d |].
    + cbn [Nat.add]. rewrite run_step. cbn [resume snd].
      apply run_next. lia.
    + cbn [Nat.add]. rewrite run_step. cbn [resume].
      rewrite run_step. cbn [resume]. apply run_next. lia.
  - reflexivity.
Qed.

Lemma exec_awaited (o : Op) (c : Config) :
  pending c = ∅ ->
  exec (awaited (next c) o) c
  = {| world := runOp o (world c); pending := ∅;
       settled := <[next c := valueOf o (world c)]> (settled c);
       next := S (next c) |}.
Proof.
  intros Hp. unfold awaited. rewrite exec_cons. unfold act at 1.
  pose proof (call_run o (world c)) as Hrun.
  destruct (call o (world c)) as [[t | v] w1].
  - rewrite (exec_resume_run _ _ _ t) by apply lookup_insert_eq.
    cbn [world pending settled next]. rewrite Hrun, Hp.
    f_equal. by rewrite delete_insert_eq, delete_empty.
  - injection Hrun as -> ->.
    rewrite exec_resume_none by (cbn; by rewrite Hp).
    by rewrite Hp.
Qed.

Lemma awaitEach_settled (ops : list Op) :
  forall (c : Config) (j : nat),
    pending c = ∅ -> (j < next c)%nat ->
    settled (exec (awaitEach (next c) ops) c) !! j = settled c !! j.
Proof.
  induction ops as [| o ops IH]; intros c j Hp Hj; [reflexivity |].
  cbn [awaitEach]. rewrite exec_app, exec_awaited by done.
  set (c1 := {| world := runOp o (world c); pending := ∅;
                settled := <[next c := valueOf o (world c)]> (settled c);
                next := S (next c) |}).
  change (S (next c)) with (next c1). rewrite IH; [| done | cbn; lia].
  cbn. apply lookup_insert_ne. lia.
Qed.

Lemma geocode_some_cached (s : list N) (w : World) (c : GeocodeResult) :
  fst (geocode s w) = Some c ->
  truthy s = true
  /\ cache (snd (geocode s w)) !! normalize s = Some (Some c).
Proof.
  destruct (geocode_cases s w)
    as [[_ ->] | [(v & Ht & Hc & ->) | [(_ & _ & -> & _)
        | (d & parsed & Ht & _ & _ & _ & ->)]]]; cbn [fst snd];
    try discriminate.
  - intros ->. split; [exact Ht | exact Hc].
  - intros ->. split; [exact Ht |]. cbn. apply lookup_insert_eq.
Qed.

Lemma geocodeBatch_lookup (locations : list (list N)) (w : World)
    (s : list N) (c : GeocodeResult) :
  fst (geocodeBatch locations w) !! s = Some (Some c) ->
  exists pre post,
    newSet (List.filter truthy locations) = pre ++ s :: post
    /\ fst (geocode s (afterGeocodes pre (snd (init w)))) = Some c.
Proof.
  rewrite geocodeBatch_results.
  set (unique := newSet (List.filter truthy locations)).
  pose proof (newSet_NoDup (List.filter truthy locations)) as Hnd.
  fold unique in Hnd.
  destruct (decide (s ∈ unique)) as [Hin | Hout].
  - apply list_elem_of_split in Hin as (pre & post & Hsplit).
    destruct (NoDup_split _ _ _ _ Hnd Hsplit) as [Hpre Hpost].
    rewrite Hsplit at 1. rewrite foldM_body_at by assumption.
    rewrite lookup_empty.
    destruct (fst (geocode s _)) as [c' |] eqn:Hc; [| discriminate].
    intros [= ->]. exists pre, post. auto.
  - rewrite foldM_body_other, lookup_empty by exact Hout. discriminate.
Qed.

Lemma geocodeBatch_stores (locations : list (list N)) (w : World)
    (s : list N) (c : GeocodeResult) :
  fst (geocodeBatch locations w) !! s = Some (Some c) ->
  truthy s = true
  /\ cache (snd (geocodeBatch locations w)) !! normalize s = Some (Some c).
Proof.
  intros (pre & post & Hsplit & Hc)%geocodeBatch_lookup.
  apply geocode_some_cached in Hc as [Ht Hc]. split; [exact Ht |].
  rewrite geocodeBatch_world, Hsplit, afterGeocodes_app.
  change (afterGeocodes (s :: post) ?w0)
    with (afterGeocodes post (snd (geocode s w0))).
  by apply afterGeocodes_keeps.
Qed.

Lemma call_hit (raw : list N) (v : option GeocodeResult) (c : Config) :
  truthy raw = true -> cache (world c) !! normalize raw = Some v ->
  act (Call (OpGeocode raw)) c
  = {| world := emit (EvGeocode raw) (world c); pending := pending c;
       settled := <[next c := VGeocode v]> (settled c);
       next := S (next c) |}.
Proof.
  intros Ht Hc. unfold act, call, geocodeBegin. rewrite Ht. cbn [negb].
  cbn [cache emit]. by rewrite Hc.
Qed.

(** Every later call for a cached key that no call is in flight for is
    answered from the cache. *)
Lemma quiet_calls (k : list N) (v : option GeocodeResult)
    (pre post : list Action) (raw : list N) (c : Config) :
  noClear (pre ++ Call (OpGeocode raw) :: post) = true ->
  cache (world c) !! k = Some v -> noTask (waitsFor k) c ->
  truthy raw = true -> normalize raw = k ->
  settled (exec (pre ++ [Call (OpGeocode raw)]) c) !! next (exec pre c)
  = Some (VGeocode v).
Proof.
  intros [Hpre _]%noClear_app Hc Hq Ht Hk.
  destruct (quiet_exec k v pre c Hpre Hc Hq) as (Hc' & _ & _).
  rewrite exec_app. cbn [exec fold_left].
  rewrite (call_hit raw v) by (by rewrite ?Hk).
  cbn. apply lookup_insert_eq.
Qed.

End AsyncSequential.

Section AsyncProperties.
Import Async MoreVocabulary AsyncVocabulary.
Context `{Host}.

(** C3 (amended): a call of [geocode] whose normalised input is in the
    cache returns the cached value, a cached [None] included, at once:
    no load, no run of the tier-matching loop, nothing changed but the
    ghost log entry of the call.  A call, made directly or by a batch,
    that goes on after [await init()] with the data loaded and at least
    one part stores its result under the key and returns it.  Once a value is stored and no
    call for that key is in flight, the entry stays what it is, its
    resolution does not run again, and every later call for the key
    returns that value, however the calls that follow interleave, short of
    [clearCache].  And from the start of the module, as long as no two
    calls for one key are in flight together, the tier-matching loop runs
    at most once for the key. *)
Theorem geocode_memoised :
  (forall (c : Config) (raw : list N) (v : option GeocodeResult),
      truthy raw = true -> cache (world c) !! normalize raw = Some v ->
      act (Call (OpGeocode raw)) c
      = {| world := emit (EvGeocode raw) (world c); pending := pending c;
           settled := <[next c := VGeocode v]> (settled c);
           next := S (next c) |})
  /\ (forall (c : Config) (i : nat) (t : Task) (raw : list N) d parsed,
        pending c !! i = Some t ->
        waits t = Some raw -> loadingTask t = false ->
        data (world c) = Some d -> parseLocation raw = Some parsed ->
        let c' := act (Resume i) c in
        cache (world c') !! normalize raw
        = Some (tryParts (Some d) (parts parsed))
        /\ (t = TGeocode raw Loaded ->
            settled c' !! i
            = Some (VGeocode (tryParts (Some d) (parts parsed)))))
  /\ (forall (c : Config) (k : list N) (v : option GeocodeResult)
             (sched : list Action),
        cache (world c) !! k = Some v -> noTask (waitsFor k) c ->
        noClear sched = true ->
        cache (world (exec sched c)) !! k = Some v
        /\ noTask (waitsFor k) (exec sched c)
        /\ runsFor k (trace (world (exec sched c)))
           = runsFor k (trace (world c))
        /\ forall pre post raw,
             sched = pre ++ Call (OpGeocode raw) :: post ->
             truthy raw = true -> normalize raw = k ->
             settled (exec (pre ++ [Call (OpGeocode raw)]) c)
               !! next (exec pre c)
             = Some (VGeocode v))
  /\ (forall (fs : list (option Gazetteer)) (sched : list Action)
             (k : list N),
        noClear sched = true ->
        always (atMostOne (waitsFor k)) sched (start fs) ->
        (runsFor k (trace (world (exec sched (start fs)))) <= 1)%nat).
Proof.
  split; [intros c raw v; apply call_hit |]. split; [| split].
  - intros c i t raw d parsed Hi Hw Hl Hd Hp c'. unfold c', act. rewrite Hi.
    destruct t as [| s [|] | l wt | results s [[|] | r] rest];
      try discriminate; injection Hw as ->; cbn [resume];
      unfold geocodeEnd; rewrite Hd, Hp;
      cbn [world settled cache set_cache emit data]; rewrite Hd;
      (split; [apply lookup_insert_eq |]).
    + intros _. apply lookup_insert_eq.
    + discriminate.
  - intros c k v sched Hc Hq Hn.
    destruct (quiet_exec k v sched c Hn Hc Hq) as (Hc' & Hq' & Hr').
    split; [done |]. split; [done |]. split; [done |].
    intros pre post raw -> Ht Hk. by apply (quiet_calls k v pre post).
  - intros fs sched k Hn Hal.
    assert (Ho : onceFor k (exec sched (start fs))).
    { apply once_exec; [done | done |]. left. split; [| reflexivity].
      apply lookup_empty. }
    destruct Ho as [[_ ->] | (_ & -> & _)]; lia.
Qed.

(** X13: from the start of the module, whatever the schedule, [data] is
    set exactly when a load has succeeded; a call of [init] that finds
    [data] set returns it at once and starts no load; once [data] is set
    and no load is in flight, no later call loads again or replaces it;
    and as long as no two loads are in flight together, the data file is
    loaded successfully at most once. *)
Theorem init_loads_once :
  (forall (fs : list (option Gazetteer)) (sched : list Action),
      data (world (exec sched (start fs))) = None
      <-> loads (trace (world (exec sched (start fs)))) = 0%nat)
  /\ (forall (c : Config) (d : Gazetteer),
        data (world c) = Some d ->
        act (Call OpInit) c
        = {| world := world c; pending := pending c;
             settled := <[next c := VInit (Some d)]> (settled c);
             next := S (next c) |})
  /\ (forall (c : Config) (d : Gazetteer) (sched : list Action),
        data (world c) = Some d -> noTask loadingTask c ->
        data (world (exec sched c)) = Some d
        /\ noTask loadingTask (exec sched c)
        /\ loads (trace (world (exec sched c))) = loads (trace (world c)))
  /\ (forall (fs : list (option Gazetteer)) (sched : list Action),
        always (atMostOne loadingTask) sched (start fs) ->
        (loads (trace (world (exec sched (start fs)))) <= 1)%nat).
Proof.
  split; [| split; [| split]].
  - intros fs sched.
    apply (world_exec
             (fun w => data w = None <-> loads (trace w) = 0%nat) true).
    + intros w Hw. destruct (loadEnd_data w) as [[[d ->] ->] | [-> ->]];
        [split; [done | lia] | done].
    + intros s w Hw. by destruct (geocodeEnd_data s w) as [-> ->].
    + intros s w Hw. cbn [data emit trace].
      by rewrite loads_snoc, Nat.add_0_r.
    + intros _ w Hw. exact Hw.
    + discriminate.
    + done.
  - intros c d Hd. unfold act, call. by rewrite Hd.
  - intros c d sched. apply loaded_exec.
  - intros fs sched Hal.
    assert (Ho : loadedOnce (exec sched (start fs))).
    { apply loadedOnce_exec; [done |]. by left. }
    destruct Ho as [[_ ->] | (_ & -> & _)]; lia.
Qed.

(** X14: [clearCache] empties the cache and leaves the data alone; the
    call awaited right after it, with the data loaded, computes its result
    anew from the parts of its own input.  Short of [clearCache], no
    schedule removes a key from the cache, and the value under a key that
    no call is in flight for does not change. *)
Theorem clearCache_resets :
  (forall w : World,
      cache (snd (clearCache w)) = ∅
      /\ data (snd (clearCache w)) = data w)
  /\ (forall (w : World) raw d parsed,
        truthy raw = true -> data w = Some d ->
        parseLocation raw = Some parsed ->
        fst (geocode raw (snd (clearCache w)))
        = tryParts (Some d) (parts parsed))
  /\ (forall (c : Config) (sched : list Action) (k : list N),
        noClear sched = true ->
        is_Some (cache (world c) !! k) ->
        is_Some (cache (world (exec sched c)) !! k))
  /\ (forall (c : Config) (sched : list Action) (k : list N)
             (v : option GeocodeResult),
        noClear sched = true ->
        cache (world c) !! k = Some v -> noTask (waitsFor k) c ->
        cache (world (exec sched c)) !! k = Some v).
Proof.
  split; [done |]. split; [| split].
  - intros w raw d parsed Ht Hd Hp.
    rewrite geocode_miss; [| exact Ht | apply lookup_empty].
    cbn zeta. rewrite (init_data_stable _ d) by exact Hd.
    by rewrite Hp.
  - intros c sched k Hn.
    apply (world_exec (fun w => is_Some (cache w !! k)) false).
    + intros w Hw. by rewrite loadEnd_cache.
    + intros s w Hw.
      destruct (geocodeEnd_cases s w)
        as [-> | (d & parsed & _ & _ & _ & -> & _)]; [done |].
      destruct (decide (normalize s = k)) as [-> | Hne].
      * rewrite lookup_insert_eq. eauto.
      * by rewrite lookup_insert_ne.
    + intros s w Hw. exact Hw.
    + discriminate.
    + done.
  - intros c sched k v Hn Hc Hq.
    by destruct (quiet_exec k v sched c Hn Hc Hq) as [? _].
Qed.

(** X15: when [geocodeBatch] runs alone, awaited before anything else is
    called, every coordinate it hands out is in the cache under the
    normalised key of its location when it returns; and from then on
    every call of [geocode] for that location returns the same
    coordinate, however the calls that follow interleave, short of
    [clearCache]. *)
Theorem geocodeBatch_cached (c : Config) (locations : list (list N))
    (s : list N) (coords : GeocodeResult) :
  pending c = ∅ ->
  fst (geocodeBatch locations (world c)) !! s = Some (Some coords) ->
  let c1 := exec (awaited (next c) (OpGeocodeBatch locations)) c in
  settled c1 !! next c
  = Some (VBatch (fst (geocodeBatch locations (world c))))
  /\ cache (world c1) !! normalize s = Some (Some coords)
  /\ forall pre post,
       noClear (pre ++ Call (OpGeocode s) :: post) = true ->
       settled (exec (pre ++ [Call (OpGeocode s)]) c1) !! next (exec pre c1)
       = Some (VGeocode (Some coords)).
Proof.
  intros Hp Hres c1. unfold c1. rewrite exec_awaited by done.
  apply geocodeBatch_stores in Hres as [Ht Hc].
  split; [apply lookup_insert_eq |]. split; [exact Hc |].
  intros pre post Hn.
  by apply (quiet_calls (normalize s) (Some coords) pre post).
Qed.

(** X19: calls made one after the other, each awaited before the next,
    leave the module in the state that the monadic [init], [geocode],
    [geocodeBatch] and [clearCache] compute in turn, with no call in
    flight, and each call returns what its monadic form returns in the
    state it was made in. *)
Theorem runOps_awaited (ops : list Op) (c : Config) :
  pending c = ∅ ->
  world (exec (awaitEach (next c) ops) c) = runOps ops (world c)
  /\ pending (exec (awaitEach (next c) ops) c) = ∅
  /\ next (exec (awaitEach (next c) ops) c) = (next c + length ops)%nat
  /\ forall pre o post,
       ops = pre ++ o :: post ->
       settled (exec (awaitEach (next c) ops) c) !! (next c + length pre)%nat
       = Some (valueOf o (runOps pre (world c))).
Proof.
  revert c. induction ops as [| o ops IH]; intros c Hp.
  - split; [done |]. split; [done |]. split; [cbn; lia |].
    intros pre o post Hops. by destruct pre.
  - cbn [awaitEach]. rewrite exec_app, exec_awaited by done.
    set (c1 := {| world := runOp o (world c); pending := ∅;
                  settled := <[next c := valueOf o (world c)]> (settled c);
                  next := S (next c) |}).
    change (S (next c)) with (next c1).
    destruct (IH c1 eq_refl) as (Hw & Hpend & Hnext & Hval).
    split; [exact Hw |]. split; [exact Hpend |].
    split; [rewrite Hnext; cbn; lia |].
    intros pre o' post Hops. destruct pre as [| o0 pre].
    + injection Hops as <- <-. rewrite Nat.add_0_r.
      rewrite awaitEach_settled; [| done | cbn; lia].
      cbn. apply lookup_insert_eq.
    + injection Hops as <- ->.
      replace (next c + length (o :: pre))%nat
        with (next c1 + length pre)%nat by (cbn; lia).
      by apply (Hval pre o' post).
Qed.

End AsyncProperties.

(** ** Awaited calls do not overlap *)

Section AsyncExclusive.
Import Async MoreVocabulary AsyncVocabulary.
Context `{Host}.

Lemma always_app (Q : Config -> Prop) (pre post : list Action)
    (c : Config) :
  always Q (pre ++ post) c
  <-> always Q pre c /\ always Q post (exec pre c).
Proof.
  revert c. induction pre as [| a pre IH]; intros c; cbn [app always].
  - cbn. tauto.
  - rewrite IH, exec_cons. tauto.
Qed.

(** At most the call numbered [i] is in flight. *)
Lemma only_atMostOne (p : Task -> bool) (i : nat) (c : Config) :
  (forall j, j <> i -> pending c !! j = None) -> atMostOne p c.
Proof.
  intros Honly j1 j2 t u H1 H2 _ _.
  destruct (decide (j1 = i)) as [-> | Hn1];
    [| by rewrite Honly in H1].
  destruct (decide (j2 = i)) as [-> | Hn2]; [done |].
  by rewrite Honly in H2.
Qed.

Lemma only_resume (i : nat) (c : Config) :
  (forall j, j <> i -> pending c !! j = None) ->
  forall j, j <> i -> pending (act (Resume i) c) !! j = None.
Proof.
  intros Honly j Hj. unfold act.
  destruct (pending c !! i) as [t |]; [| by apply Honly].
  destruct (resume t (world c)) as [[t' | v] w]; cbn [pending].
  - rewrite lookup_insert_ne by done. by apply Honly.
  - rewrite lookup_delete_ne by done. by apply Honly.
Qed.

Lemma only_always (p : Task -> bool) (i n : nat) (c : Config) :
  (forall j, j <> i -> pending c !! j = None) ->
  always (atMostOne p) (repeat (Resume i) n) c.
Proof.
  revert c. induction n as [| n IH]; intros c Honly; [done |].
  cbn [repeat always]. split; [by apply (only_atMostOne p i) |].
  by apply IH, only_resume.
Qed.

Lemma awaited_always (p : Task -> bool) (o : Op) (c : Config) :
  pending c = ∅ -> always (atMostOne p) (awaited (next c) o) c.
Proof.
  intros Hp. unfold awaited. cbn [always]. split.
  - apply (only_atMostOne p 0). intros j _. by rewrite Hp.
  - apply only_always. intros j Hj. unfold act.
    destruct (call o (world c)) as [[t | v] w]; cbn [pending].
    + rewrite lookup_insert_ne by done. by rewrite Hp.
    + by rewrite Hp.
Qed.

(** Calls awaited one after the other never overlap. *)
Lemma awaitEach_always (p : Task -> bool) (ops : list Op) (c : Config) :
  pending c = ∅ -> always (atMostOne p) (awaitEach (next c) ops) c.
Proof.
  revert c. induction ops as [| o ops IH]; intros c Hp; [done |].
  cbn [awaitEach]. apply always_app. split; [by apply awaited_always |].
  rewrite exec_awaited by done.
  by apply (IH {| world := runOp o (world c); pending := ∅;
                  settled := <[next c := valueOf o (world c)]> (settled c);
                  next := S (next c) |}).
Qed.

End AsyncExclusive.

Section AsyncExamples.
Import Async MoreVocabulary AsyncVocabulary.
#[local] Existing Instance latin1Host.

Lemma geocode_memoised_witness :
  settled
    (exec ([Call (OpGeocode (js "Ontario"));
            Call (OpGeocodeBatch [js "Victoria"])]
           ++ [Call (OpGeocode (js " de "))])
       (idle (snd (geocode (js "DE") Sample.loaded)) 1))
    !! next (exec [Call (OpGeocode (js "Ontario"));
                   Call (OpGeocodeBatch [js "Victoria"])]
              (idle (snd (geocode (js "DE") Sample.loaded)) 1))
  = Some (VGeocode (Some (countryResult Sample.germany)))
  /\ (runsFor (js "de")
        (trace (world
           (exec (awaitEach 0 [OpGeocode (js "DE"); OpGeocode (js " de ")])
              (start [Some Sample.gazetteer])))) <= 1)%nat.
Proof.
  destruct geocode_memoised as (_ & _ & Hstable & Honce). split.
  - destruct (Hstable (idle (snd (geocode (js "DE") Sample.loaded)) 1)
                (normalize (js "DE")) (Some (countryResult Sample.germany))
                [Call (OpGeocode (js "Ontario"));
                 Call (OpGeocodeBatch [js "Victoria"]);
                 Call (OpGeocode (js " de ")); Resume 1; Resume 2])
      as (_ & _ & _ & Hcalls).
    + vm_compute. reflexivity.
    + intros i t Hi. cbn in Hi. by rewrite lookup_empty in Hi.
    + reflexivity.
    + apply (Hcalls _ [Resume 1; Resume 2] (js " de "));
        [reflexivity | reflexivity | vm_compute; reflexivity].
  - apply Honce; [reflexivity |].
    apply (awaitEach_always _ _ (start [Some Sample.gazetteer])).
    reflexivity.
Defined.

(** Two calls for one key made before either goes on: both miss the
    cache and both run the tier-matching loop. *)
Example geocode_overlapping_calls :
  resolveRuns
    (trace (world
       (exec [Call (OpGeocode (js "DE")); Call (OpGeocode (js " de "));
              Resume 0; Resume 1]
          (idle Sample.loaded 0))))
  = [js "de"; js "de"].
Proof. vm_compute. reflexivity. Qed.

(** A call in flight stores its own result over an entry stored in the
    meantime: the first call returns Washington, the overlapping one
    replaces the entry by [None], and so answers a third call. *)
Example geocode_overlapping_store :
  let c :=
    exec [Call (OpGeocode (js "Washington, USA"));
          Call (OpGeocode (js "Washington USA"));
          Resume 0; Resume 1; Call (OpGeocode (js "Washington, USA"))]
      (idle Sample.loaded 0) in
  settled c !! 0%nat
  = Some (VGeocode
            (Some (subdivisionResult (nth 3 Sample.usStates Sample.california)
                     "United States")))
  /\ settled c !! 1%nat = Some (VGeocode None)
  /\ settled c !! 2%nat = Some (VGeocode None).
Proof. vm_compute. repeat split; reflexivity. Qed.

(** Two calls of [init] made before the load ends: both load, and the
    second load replaces the data of the first. *)
Example init_overlapping_loads :
  let c :=
    exec [Call OpInit; Call OpInit; Resume 0; Resume 1]
      (start [Some Sample.gazetteer;
              Some {| countries := []; states := ∅ |}]) in
  loads (trace (world c)) = 2%nat
  /\ data (world c) = Some {| countries := []; states := ∅ |}.
Proof. vm_compute. split; reflexivity. Qed.

Lemma init_loads_once_witness :
  data (world
          (exec [Call (OpGeocode (js "Ontario")); Call OpInit;
                 Call (OpGeocodeBatch [js "CA"]); Resume 2; Resume 0;
                 Call OpClearCache; Resume 2]
             (idle Sample.loaded 0)))
  = Some Sample.gazetteer
  /\ (loads (trace (world
        (exec (awaitEach 0 [OpInit; OpGeocode (js "DE"); OpInit])
           (start [None; Some Sample.gazetteer])))) <= 1)%nat.
Proof.
  destruct init_loads_once as (_ & _ & Hstable & Honce). split.
  - apply (Hstable (idle Sample.loaded 0) Sample.gazetteer);
      [reflexivity |].
    intros i t Hi. cbn in Hi. by rewrite lookup_empty in Hi.
  - apply Honce.
    apply (awaitEach_always _ _ (start [None; Some Sample.gazetteer])).
    reflexivity.
Defined.

Lemma clearCache_resets_witness :
  fst (geocode (js "Ontario") (snd (clearCache Sample.loaded)))
  = tryParts (Some Sample.gazetteer) [js "Ontario"].
Proof.
  destruct clearCache_resets as (_ & Hfresh & _).
  apply (Hfresh Sample.loaded (js "Ontario") Sample.gazetteer
           {| original := js "Ontario"; parts := [js "Ontario"] |}).
  - reflexivity.
  - reflexivity.
  - vm_compute. reflexivity.
Defined.

Lemma geocodeBatch_cached_witness :
  cache (world
           (exec (awaited 0 (OpGeocodeBatch [js "Ontario"; js "CA"]))
              (idle Sample.loaded 0)))
    !! normalize (js "CA")
  = Some (Some (subdivisionResult Sample.california "United States")).
Proof.
  apply (geocodeBatch_cached (idle Sample.loaded 0)
           [js "Ontario"; js "CA"] (js "CA")).
  - reflexivity.
  - vm_compute. reflexivity.
Defined.

Lemma runOps_awaited_witness :
  world (exec (awaitEach 0 [OpGeocodeBatch [js "Ontario"; js "CA"];
                            OpGeocode (js "DE")])
           (start [Some Sample.gazetteer]))
  = runOps [OpGeocodeBatch [js "Ontario"; js "CA"]; OpGeocode (js "DE")]
      (boot [Some Sample.gazetteer]).
Proof.
  apply (runOps_awaited _ (start [Some Sample.gazetteer])). reflexivity.
Defined.

End AsyncExamples.
